(** * CityBike: the cleaning pipeline, the statistics routines and the
      analytics queries of [citybike/analyzer.py] and [citybike/numerical.py]

    The tables are pandas data frames and the numeric arrays are NumPy
    arrays.  A data frame is modelled as the list of its rows, a row as a
    record of cells, and a cell as what pandas can hold in it: a missing
    value, a string, a number or a timestamp.  Floating point numbers are
    idealised as exact rationals ([Q]) extended with NaN; infinities are
    not modelled. *)

From Stdlib Require Import List String ZArith QArith Qround Bool Lia Lqa.
From Stdlib Require Import Permutation Sorted SetoidList.
Import ListNotations.

Close Scope Q_scope.

Set Implicit Arguments.

(* ================================================================== *)
(** ** Python results: a value or a raised exception *)

Module Py.

Inductive exn : Type :=
| IndexError
| KeyError.

Inductive result (A : Type) : Type :=
| Ok (a : A)
| Raise (e : exn).

Arguments Ok {A} a.
Arguments Raise {A} e.

Definition bind {A B : Type} (m : result A) (k : A -> result B) : result B :=
  match m with
  | Ok a => k a
  | Raise e => Raise e
  end.

(** A Python [float]: [None] is NaN. *)
Definition float : Type := option Q.
Definition nan : float := None.

(** A Python [dict] with string keys, in insertion order. *)
Definition dict (V : Type) : Type := list (string * V).

Fixpoint getitem {V : Type} (d : dict V) (k : string) : result V :=
  match d with
  | [] => Raise KeyError
  | (k', v) :: d' => if String.eqb k k' then Ok v else getitem d' k
  end.

End Py.

Notation "x <- m ;; k" := (Py.bind m (fun x => k))
  (at level 61, m at next level, right associativity).

(* ================================================================== *)
(** ** Rational helpers *)

Definition Qltb (x y : Q) : bool := negb (Qle_bool y x).

(** [rint]: round to the nearest integer, ties to the even one. *)
Definition rint (x : Q) : Z :=
  let f := Qfloor x in
  let d := (x - inject_Z f)%Q in
  if Qltb d (1 # 2) then f
  else if Qltb (1 # 2) d then (f + 1)%Z
  else if Z.even f then f else (f + 1)%Z.

(** [round(x, 2)] on a float. *)
Definition round2 (x : Q) : Q := Qmake (rint (x * 100)) 100.

Definition round2_float (x : Py.float) : Py.float := option_map round2 x.

(* ================================================================== *)
(** ** Data frames *)

Module Frame.

(** What a cell of a data frame holds.  [NA] stands for NaN, None and
    NaT alike; [Stamp t] is a [datetime64[ns]] value, [t] nanoseconds
    since the epoch. *)
Inductive cell : Type :=
| NA
| Str (s : string)
| Num (x : Q)
| Stamp (t : Z).

Definition isna (c : cell) : bool :=
  match c with NA => true | _ => false end.

Definition notna (c : cell) : bool := negb (isna c).

(** Equality of cells as [drop_duplicates] sees it: missing values are
    equal to each other. *)
Definition cell_eqb (a b : cell) : bool :=
  match a, b with
  | NA, NA => true
  | Str s, Str s' => String.eqb s s'
  | Num x, Num y => Qeq_bool x y
  | Stamp t, Stamp t' => Z.eqb t t'
  | _, _ => false
  end.

Definition cell_eq (a b : cell) : Prop := cell_eqb a b = true.

(** Element-wise comparisons of a column with a column or a scalar: a
    comparison with a missing value is [False]. *)
Definition lt (a b : cell) : bool :=
  match a, b with
  | Stamp x, Stamp y => Z.ltb x y
  | Num x, Num y => Qltb x y
  | _, _ => false
  end.

Definition ge_num (a : cell) (k : Q) : bool :=
  match a with Num x => Qle_bool k x | _ => false end.

Definition le_num (a : cell) (k : Q) : bool :=
  match a with Num x => Qle_bool x k | _ => false end.

Definition gt_num (a : cell) (k : Q) : bool :=
  match a with Num x => Qltb k x | _ => false end.

(** [Series.isin(values)] for a set of strings. *)
Definition isin (a : cell) (values : list string) : bool :=
  match a with
  | Str s => existsb (String.eqb s) values
  | _ => false
  end.

(** [Series.values] of a float column. *)
Definition to_float (a : cell) : Py.float :=
  match a with Num x => Some x | _ => None end.

Definition of_float (x : Py.float) : cell :=
  match x with Some q => Num q | None => NA end.

Section Coercion.

(** The parsers of pandas are library code: what they make of a string
    (and [to_datetime] of a bare number) is left open. *)
Variable parse_datetime : string -> option Z.
Variable parse_numeric : string -> option Q.
Variable datetime_of_number : Q -> option Z.

Definition stamp_or_na (o : option Z) : cell :=
  match o with Some t => Stamp t | None => NA end.

(** [pd.to_datetime(column, errors="coerce")], cell by cell. *)
Definition to_datetime (c : cell) : cell :=
  match c with
  | NA => NA
  | Str s => stamp_or_na (parse_datetime s)
  | Num x => stamp_or_na (datetime_of_number x)
  | Stamp t => Stamp t
  end.

(** [pd.to_numeric(column, errors="coerce")], cell by cell. *)
Definition to_numeric (c : cell) : cell :=
  match c with
  | NA => NA
  | Str s => of_float (parse_numeric s)
  | Num x => Num x
  | Stamp t => Num (inject_Z t)
  end.

End Coercion.

Section Rows.

Variable row : Type.

(** [df.drop_duplicates(subset=[key], keep="first")]. *)
Fixpoint drop_duplicates_from (key : row -> cell) (seen : list cell)
         (df : list row) : list row :=
  match df with
  | [] => []
  | r :: df' =>
      if existsb (cell_eqb (key r)) seen
      then drop_duplicates_from key seen df'
      else r :: drop_duplicates_from key (key r :: seen) df'
  end.

Definition drop_duplicates (key : row -> cell) (df : list row) : list row :=
  drop_duplicates_from key [] df.

(** [df.dropna(subset=cols)]. *)
Definition dropna (cols : list (row -> cell)) (df : list row) : list row :=
  filter (fun r => forallb (fun col => notna (col r)) cols) df.

(** [column.isna().any()]. *)
Definition any_na (col : row -> cell) (df : list row) : bool :=
  existsb (fun r => isna (col r)) df.

(** [column.sum()] and [column.mean()]: missing values are skipped, the
    mean of no value is NaN. *)
Definition numbers (col : row -> cell) (df : list row) : list Q :=
  flat_map (fun r => match col r with Num x => [x] | _ => [] end) df.

Definition Qsum (l : list Q) : Q := fold_left Qplus l 0%Q.

Definition column_sum (col : row -> cell) (df : list row) : Q :=
  Qsum (numbers col df).

Definition column_mean (col : row -> cell) (df : list row) : Py.float :=
  match numbers col df with
  | [] => Py.nan
  | l => Some (Qsum l / inject_Z (Z.of_nat (length l)))%Q
  end.

(** [df[mask]] for a boolean array [mask] as long as the frame. *)
Definition select (mask : list bool) (df : list row) : list row :=
  map snd (filter fst (combine mask df)).

End Rows.

End Frame.

(* ================================================================== *)
(** ** [citybike/numerical.py] *)

Module Numerical.

Import Py.

(** Ascending sort of an array, as [np.percentile] and [np.median]
    arrange it. *)
Fixpoint insert (x : Q) (l : list Q) : list Q :=
  match l with
  | [] => [x]
  | y :: l' => if Qle_bool x y then x :: l else y :: insert x l'
  end.

Fixpoint sort (l : list Q) : list Q :=
  match l with
  | [] => []
  | x :: l' => insert x (sort l')
  end.

(** The virtual index [(n - 1) * p / 100] of the percentile [p] in a
    sorted array of [n] values, and the ranks of the two order statistics
    around it. *)
Definition virtual_index (n : nat) (p : Q) : Q :=
  (inject_Z (Z.of_nat n - 1) * (p / 100))%Q.

Definition previous_index (n : nat) (p : Q) : nat :=
  Z.to_nat (Qfloor (virtual_index n p)).

Definition next_index (n : nat) (p : Q) : nat :=
  Z.to_nat (Z.min (Qfloor (virtual_index n p) + 1) (Z.of_nat n - 1)).

(** Linear interpolation between the two order statistics of the sorted
    array [s]. *)
Definition interpolate (s : list Q) (p : Q) : Q :=
  let n := length s in
  let previous := nth (previous_index n p) s 0%Q in
  let next := nth (next_index n p) s 0%Q in
  let gamma :=
    (virtual_index n p - inject_Z (Qfloor (virtual_index n p)))%Q in
  (previous + (next - previous) * gamma)%Q.

(** [np.percentile(a, p)] (method "linear") for [0 <= p <= 100].  NumPy
    from 1.22 on, hence the [numpy>=1.24.0] the project requires, raises
    [IndexError] on an empty array. *)
Definition percentile (a : list Q) (p : Q) : result Q :=
  match a with
  | [] => Raise IndexError
  | _ => Ok (interpolate (sort a) p)
  end.

(** [data[~np.isnan(data)]]. *)
Definition drop_nan (data : list float) : list Q :=
  flat_map (fun x => match x with Some v => [v] | None => [] end) data.

(** [data < bound] and [data > bound], element-wise: False on NaN. *)
Definition float_lt (x : float) (bound : Q) : bool :=
  match x with Some v => Qltb v bound | None => false end.

Definition float_gt (x : float) (bound : Q) : bool :=
  match x with Some v => Qltb bound v | None => false end.

Record bounds : Type := {
  q1 : Q;
  q3 : Q;
  iqr : Q;
  lower_bound : Q;
  upper_bound : Q
}.

Definition default_iqr_multiplier : Q := 3 # 2.

(** [OutlierDetection.iqr_outliers]. *)
Definition iqr_outliers (data : list float) (iqr_multiplier : Q)
  : result (list bool * bounds) :=
  let clean_data := drop_nan data in
  q1 <- percentile clean_data 25 ;;
  q3 <- percentile clean_data 75 ;;
  let iqr := (q3 - q1)%Q in
  let lower_bound := (q1 - iqr_multiplier * iqr)%Q in
  let upper_bound := (q3 + iqr_multiplier * iqr)%Q in
  let outliers :=
    map (fun x => float_lt x lower_bound || float_gt x upper_bound) data in
  Ok (outliers,
      {| q1 := q1; q3 := q3; iqr := iqr;
         lower_bound := lower_bound; upper_bound := upper_bound |}).

(** The values of the dictionary [compute_statistics] returns: the count
    is an [int], the rest are floats. *)
Inductive stat : Type :=
| Count (n : nat)
| Float (x : float).

Definition mean (l : list Q) : Q :=
  (Frame.Qsum l / inject_Z (Z.of_nat (length l)))%Q.

(** [np.median] of a non-empty array: the middle element of the sorted
    array, or the mean of the two middle ones. *)
Definition median (l : list Q) : Q :=
  let s := sort l in
  let n := length s in
  if Nat.even n
  then ((nth (n / 2 - 1) s 0 + nth (n / 2) s 0) / 2)%Q
  else nth (n / 2) s 0%Q.

Definition minimum (l : list Q) : Q := hd 0%Q (sort l).
Definition maximum (l : list Q) : Q := last (sort l) 0%Q.

Section Statistics.

(** The floating point square root is library code. *)
Variable sqrt : Q -> Q.

(** [np.std]: the population standard deviation. *)
Definition std (l : list Q) : Q :=
  let m := mean l in
  sqrt (mean (map (fun x => (x - m) * (x - m))%Q l)).

(** [StatisticalAnalyzer.compute_statistics].  The two [return]
    statements are transcribed key by key. *)
Definition compute_statistics (data : list float) : result (dict stat) :=
  let data := drop_nan data in
  if Nat.eqb (length data) 0 then
    Ok [ ("count", Count 0);
         ("mean", Float nan);
         ("median", Float nan);
         ("std", Float nan);
         ("min", Float nan);
         ("max", Float nan);
         ("q25", Float nan);
         ("q75", Float nan) ]%string
  else
    p25 <- percentile data 25 ;;
    p75 <- percentile data 75 ;;
    p90 <- percentile data 90 ;;
    Ok [ ("count", Count (length data));
         ("mean", Float (Some (mean data)));
         ("median", Float (Some (median data)));
         ("std", Float (Some (std data)));
         ("min", Float (Some (minimum data)));
         ("max", Float (Some (maximum data)));
         ("q25", Float (Some p25));
         ("q75", Float (Some p75));
         ("q90", Float (Some p90)) ]%string.

End Statistics.

End Numerical.

(* ================================================================== *)
(** ** The three tables *)

Module Trips.

Import Frame.

Record row : Type := {
  trip_id : cell;
  user_id : cell;
  user_type : cell;
  bike_id : cell;
  bike_type : cell;
  start_station_id : cell;
  end_station_id : cell;
  start_time : cell;
  end_time : cell;
  duration_minutes : cell;
  distance_km : cell;
  status : cell
}.

Definition set_start_time (v : cell) (r : row) : row :=
  {| trip_id := trip_id r; user_id := user_id r; user_type := user_type r;
     bike_id := bike_id r; bike_type := bike_type r;
     start_station_id := start_station_id r;
     end_station_id := end_station_id r;
     start_time := v; end_time := end_time r;
     duration_minutes := duration_minutes r; distance_km := distance_km r;
     status := status r |}.

Definition set_end_time (v : cell) (r : row) : row :=
  {| trip_id := trip_id r; user_id := user_id r; user_type := user_type r;
     bike_id := bike_id r; bike_type := bike_type r;
     start_station_id := start_station_id r;
     end_station_id := end_station_id r;
     start_time := start_time r; end_time := v;
     duration_minutes := duration_minutes r; distance_km := distance_km r;
     status := status r |}.

Definition set_duration_minutes (v : cell) (r : row) : row :=
  {| trip_id := trip_id r; user_id := user_id r; user_type := user_type r;
     bike_id := bike_id r; bike_type := bike_type r;
     start_station_id := start_station_id r;
     end_station_id := end_station_id r;
     start_time := start_time r; end_time := end_time r;
     duration_minutes := v; distance_km := distance_km r;
     status := status r |}.

Definition set_distance_km (v : cell) (r : row) : row :=
  {| trip_id := trip_id r; user_id := user_id r; user_type := user_type r;
     bike_id := bike_id r; bike_type := bike_type r;
     start_station_id := start_station_id r;
     end_station_id := end_station_id r;
     start_time := start_time r; end_time := end_time r;
     duration_minutes := duration_minutes r; distance_km := v;
     status := status r |}.

Definition set_status (v : cell) (r : row) : row :=
  {| trip_id := trip_id r; user_id := user_id r; user_type := user_type r;
     bike_id := bike_id r; bike_type := bike_type r;
     start_station_id := start_station_id r;
     end_station_id := end_station_id r;
     start_time := start_time r; end_time := end_time r;
     duration_minutes := duration_minutes r; distance_km := distance_km r;
     status := v |}.

End Trips.

Module Stations.

Import Frame.

Record row : Type := {
  station_id : cell;
  station_name : cell;
  capacity : cell;
  latitude : cell;
  longitude : cell
}.

End Stations.

Module Maintenance.

Import Frame.

Record row : Type := {
  record_id : cell;
  bike_id : cell;
  bike_type : cell;
  date : cell;
  maintenance_type : cell;
  cost : cell;
  description : cell
}.

End Maintenance.

(* ================================================================== *)
(** ** [citybike/analyzer.py]: [DataCleaner] *)

Module DataCleaner.

Import Frame.

Definition ns_per_minute : Z := 60000000000.

(** [(end_time - start_time).dt.total_seconds() / 60]: NaN when either
    timestamp is NaT. *)
Definition minutes_between (start_time end_time : cell) : cell :=
  match start_time, end_time with
  | Stamp s, Stamp e => Num (inject_Z (e - s) / inject_Z ns_per_minute)%Q
  | _, _ => NA
  end.

Definition valid_statuses : list string := ["completed"; "cancelled"]%string.

Definition valid_types : list string :=
  ["tire_repair"; "brake_adjustment"; "battery_replacement";
   "chain_lubrication"; "general_inspection"]%string.

Section Cleaning.

Variable parse_datetime : string -> option Z.
Variable parse_numeric : string -> option Q.
Variable datetime_of_number : Q -> option Z.

Local Abbreviation to_datetime :=
  (to_datetime parse_datetime datetime_of_number).
Local Abbreviation to_numeric := (to_numeric parse_numeric).

(** The steps of [clean_trips_csv], in the order of the source. *)

(** Convert datetime columns, then numeric columns. *)
Definition convert_columns (df : list Trips.row) : list Trips.row :=
  let df := map (fun r => Trips.set_start_time
                            (to_datetime (Trips.start_time r)) r) df in
  let df := map (fun r => Trips.set_end_time
                            (to_datetime (Trips.end_time r)) r) df in
  let df := map (fun r => Trips.set_duration_minutes
                            (to_numeric (Trips.duration_minutes r)) r) df in
  map (fun r => Trips.set_distance_km
                  (to_numeric (Trips.distance_km r)) r) df.

(** What the four conversions make of one row. *)
Definition convert_row (r : Trips.row) : Trips.row :=
  {| Trips.trip_id := Trips.trip_id r;
     Trips.user_id := Trips.user_id r;
     Trips.user_type := Trips.user_type r;
     Trips.bike_id := Trips.bike_id r;
     Trips.bike_type := Trips.bike_type r;
     Trips.start_station_id := Trips.start_station_id r;
     Trips.end_station_id := Trips.end_station_id r;
     Trips.start_time := to_datetime (Trips.start_time r);
     Trips.end_time := to_datetime (Trips.end_time r);
     Trips.duration_minutes := to_numeric (Trips.duration_minutes r);
     Trips.distance_km := to_numeric (Trips.distance_km r);
     Trips.status := Trips.status r |}.

(** Handle missing durations by calculating from timestamps:
    [df.loc[mask, "duration_minutes"] = ...] under
    [if df["duration_minutes"].isna().any()]. *)
Definition fill_duration (r : Trips.row) : Trips.row :=
  if isna (Trips.duration_minutes r)
  then Trips.set_duration_minutes
         (minutes_between (Trips.start_time r) (Trips.end_time r)) r
  else r.

Definition fill_durations (df : list Trips.row) : list Trips.row :=
  if any_na Trips.duration_minutes df then map fill_duration df else df.

(** Handle missing distances (fill with mean).  The in-place [fillna] on
    the column is taken to update the frame, as the code means it to;
    filling with a NaN mean leaves the column as it is. *)
Definition fill_distance (mean_distance : Py.float) (r : Trips.row)
  : Trips.row :=
  if isna (Trips.distance_km r)
  then Trips.set_distance_km (of_float mean_distance) r
  else r.

Definition fill_distances (df : list Trips.row) : list Trips.row :=
  if any_na Trips.distance_km df
  then
    let mean_distance := column_mean Trips.distance_km df in
    map (fill_distance mean_distance) df
  else df.

(** [DataCleaner.clean_trips_csv]. *)
Definition clean_trips_csv (df : list Trips.row) : list Trips.row :=
  let df := convert_columns df in
  (* Remove rows where end_time is before start_time *)
  let df := filter (fun r => negb (lt (Trips.end_time r)
                                      (Trips.start_time r))) df in
  (* Remove duplicate rows *)
  let df := drop_duplicates Trips.trip_id df in
  (* Remove rows with missing critical columns *)
  let df := dropna [Trips.trip_id; Trips.user_id; Trips.bike_id;
                    Trips.start_station_id; Trips.end_station_id] df in
  let df := fill_durations df in
  (* Remove rows with still-missing duration (< 1 minute probably invalid) *)
  let df := dropna [Trips.duration_minutes] df in
  let df := filter (fun r => ge_num (Trips.duration_minutes r) 1) df in
  let df := fill_distances df in
  (* Validate status column *)
  filter (fun r => isin (Trips.status r) valid_statuses
                   || isna (Trips.status r)) df.

(** The frame [clean_trips_csv] has in hand when it comes to the
    distances: its steps up to the filter on the duration. *)
Definition before_fill (df : list Trips.row) : list Trips.row :=
  let df := convert_columns df in
  let df := filter (fun r => negb (lt (Trips.end_time r)
                                      (Trips.start_time r))) df in
  let df := drop_duplicates Trips.trip_id df in
  let df := dropna [Trips.trip_id; Trips.user_id; Trips.bike_id;
                    Trips.start_station_id; Trips.end_station_id] df in
  let df := fill_durations df in
  let df := dropna [Trips.duration_minutes] df in
  filter (fun r => ge_num (Trips.duration_minutes r) 1) df.

(** [DataCleaner.clean_stations_csv]. *)
Definition clean_stations_csv (df : list Stations.row)
  : list Stations.row :=
  (* Convert numeric columns *)
  let df := map (fun r =>
                   {| Stations.station_id := Stations.station_id r;
                      Stations.station_name := Stations.station_name r;
                      Stations.capacity := to_numeric (Stations.capacity r);
                      Stations.latitude := to_numeric (Stations.latitude r);
                      Stations.longitude :=
                        to_numeric (Stations.longitude r) |}) df in
  (* Remove duplicates *)
  let df := drop_duplicates Stations.station_id df in
  (* Remove rows with missing critical fields *)
  let df := dropna [Stations.station_id; Stations.station_name;
                    Stations.capacity; Stations.latitude;
                    Stations.longitude] df in
  (* Validate coordinates *)
  let df := filter (fun r => ge_num (Stations.latitude r) (-90)
                             && le_num (Stations.latitude r) 90
                             && ge_num (Stations.longitude r) (-180)
                             && le_num (Stations.longitude r) 180) df in
  (* Validate capacity (> 0) *)
  filter (fun r => gt_num (Stations.capacity r) 0) df.

(** [DataCleaner.clean_maintenance_csv]. *)
Definition clean_maintenance_csv (df : list Maintenance.row)
  : list Maintenance.row :=
  (* Parse date, convert cost *)
  let df := map (fun r =>
                   {| Maintenance.record_id := Maintenance.record_id r;
                      Maintenance.bike_id := Maintenance.bike_id r;
                      Maintenance.bike_type := Maintenance.bike_type r;
                      Maintenance.date := to_datetime (Maintenance.date r);
                      Maintenance.maintenance_type :=
                        Maintenance.maintenance_type r;
                      Maintenance.cost := to_numeric (Maintenance.cost r);
                      Maintenance.description :=
                        Maintenance.description r |}) df in
  (* Remove duplicates *)
  let df := drop_duplicates Maintenance.record_id df in
  (* Remove rows with missing critical fields *)
  let df := dropna [Maintenance.record_id; Maintenance.bike_id;
                    Maintenance.date; Maintenance.maintenance_type;
                    Maintenance.cost] df in
  (* Validate maintenance type *)
  let df := filter (fun r => isin (Maintenance.maintenance_type r)
                                  valid_types) df in
  (* Validate cost (>= 0) *)
  filter (fun r => ge_num (Maintenance.cost r) 0) df.

End Cleaning.

End DataCleaner.

(* ================================================================== *)
(** ** [citybike/analyzer.py]: the queries of [BikeShareSystem]

    Each query reads [self.trips_clean_df], here its argument. *)

Module BikeShareSystem.

Import Py Frame.

(** *** Q1 *)

Record trip_summary : Type := {
  total_trips : nat;
  total_distance_km : float;
  average_duration_minutes : float
}.

Definition q1_trip_summary (trips : list Trips.row) : trip_summary :=
  let total_trips := length trips in
  let total_distance := column_sum Trips.distance_km trips in
  let avg_duration := column_mean Trips.duration_minutes trips in
  {| total_trips := total_trips;
     total_distance_km := round2_float (Some total_distance);
     average_duration_minutes := round2_float avg_duration |}.

(** *** Q4 *)

Definition ns_per_day : Z := 86400000000000.

(** [start_time.dt.date], as the number of days since 1970-01-01, and
    [start_time.dt.day_name()]; rows without a start time have neither
    and [groupby] leaves them out. *)
Definition date_of (t : Z) : Z := (t / ns_per_day)%Z.

Definition day_names : list string :=
  ["Monday"; "Tuesday"; "Wednesday"; "Thursday"; "Friday"; "Saturday";
   "Sunday"]%string.

Definition day_name (date : Z) : string :=
  nth (Z.to_nat ((date + 3) mod 7)) day_names ""%string.

Definition stamps (col : Trips.row -> cell) (df : list Trips.row) : list Z :=
  flat_map (fun r => match col r with Stamp t => [t] | _ => [] end) df.

(** [groupby(key).size()]: the groups in ascending order of their key,
    each with its number of rows. *)
Fixpoint bump (k : Z) (groups : list (Z * nat)) : list (Z * nat) :=
  match groups with
  | [] => [(k, 1)]
  | (k', n) :: rest =>
      if (k <? k')%Z then (k, 1) :: groups
      else if (k =? k')%Z then (k', S n) :: rest
      else (k', n) :: bump k rest
  end.

Definition groupby_size (keys : list Z) : list (Z * nat) :=
  fold_left (fun groups k => bump k groups) keys [].

(** [Series.idxmax()]: the label of the first occurrence of the maximum. *)
Fixpoint idxmax_from (best : Z * nat) (groups : list (Z * nat)) : Z :=
  match groups with
  | [] => fst best
  | g :: rest =>
      if (snd best <? snd g)%nat then idxmax_from g rest
      else idxmax_from best rest
  end.

(** [Series.max()]. *)
Definition max_count (groups : list (Z * nat)) : nat :=
  fold_left Nat.max (map snd groups) 0.

Record peak : Type := {
  peak_date : option Z;
  peak_day : option string;
  trips : nat
}.

(** The group key is the pair of the date and its day name; the day name
    is a function of the date, so the groups and their order are those of
    the dates. *)
Definition q4_peak_day (trips : list Trips.row) : peak :=
  let daily_counts :=
    groupby_size (map date_of (stamps Trips.start_time trips)) in
  match daily_counts with
  | first :: rest =>
      let peak_date := idxmax_from first rest in
      {| peak_date := Some peak_date;
         peak_day := Some (day_name peak_date);
         trips := max_count daily_counts |}
  | [] => {| peak_date := None; peak_day := None; trips := 0 |}
  end.

(** *** Q6 *)

(** [column.nunique()]: the number of distinct values, missing ones not
    counted. *)
Definition nunique (col : Trips.row -> cell) (df : list Trips.row) : nat :=
  length (drop_duplicates (fun c : cell => c) (filter notna (map col df))).

(** [column.max()] and [column.min()] of a timestamp column: NaT is
    skipped, and NaT is the result when nothing is left. *)
Definition column_max (col : Trips.row -> cell) (df : list Trips.row)
  : option Z :=
  match stamps col df with
  | [] => None
  | t :: ts => Some (fold_left Z.max ts t)
  end.

Definition column_min (col : Trips.row -> cell) (df : list Trips.row)
  : option Z :=
  match stamps col df with
  | [] => None
  | t :: ts => Some (fold_left Z.min ts t)
  end.

(** [date_range_days] is an [int], or NaN ([None]) when the difference of
    the two timestamps is NaT. *)
Record utilization : Type := {
  utilization_percentage : Q;
  bikes_in_fleet : nat;
  date_range_days : option Z
}.

Definition q6_bike_utilization (trips : list Trips.row) : utilization :=
  let bikes := nunique Trips.bike_id trips in
  let date_range :=
    match column_max Trips.start_time trips,
          column_min Trips.start_time trips with
    | Some hi, Some lo => Some ((hi - lo) / ns_per_day + 1)%Z
    | _, _ => None
    end in
  let total_possible_minutes :=
    option_map (fun d => (Z.of_nat bikes * 24 * 60 * d)%Z) date_range in
  let total_usage_minutes := column_sum Trips.duration_minutes trips in
  let utilization_rate :=
    match total_possible_minutes with
    | Some m =>
        if (0 <? m)%Z then (total_usage_minutes / inject_Z m * 100)%Q
        else 0%Q
    | None => 0%Q
    end in
  {| utilization_percentage := round2 utilization_rate;
     bikes_in_fleet := bikes;
     date_range_days := date_range |}.

(** *** Q11 *)

Record completion : Type := {
  completion_rate_percentage : Q;
  completion_total_trips : nat;
  completed : nat;
  cancelled : nat
}.

Definition count_status (s : string) (trips : list Trips.row) : nat :=
  length (filter (fun r => cell_eqb (Trips.status r) (Str s)) trips).

Definition q11_trip_completion_rate (trips : list Trips.row) : completion :=
  let total := length trips in
  let completed := count_status "completed" trips in
  let cancelled := count_status "cancelled" trips in
  let completion_rate :=
    if (0 <? total)%nat
    then (inject_Z (Z.of_nat completed) / inject_Z (Z.of_nat total) * 100)%Q
    else 0%Q in
  {| completion_rate_percentage := round2 completion_rate;
     completion_total_trips := total;
     completed := completed;
     cancelled := cancelled |}.

(** *** Q14 *)

Record outlier : Type := {
  outlier_trip_id : cell;
  outlier_duration_minutes : float;
  outlier_distance_km : float
}.

Record outlier_report : Type := {
  total_outliers : nat;
  outliers : list outlier
}.

Definition outlier_of (r : Trips.row) : outlier :=
  {| outlier_trip_id := Trips.trip_id r;
     outlier_duration_minutes := to_float (Trips.duration_minutes r);
     outlier_distance_km := to_float (Trips.distance_km r) |}.

(** [mask_a | mask_b] on two boolean arrays of one length. *)
Definition mask_or (a b : list bool) : list bool :=
  map (fun p => fst p || snd p) (combine a b).

Definition q14_outlier_trips (trips : list Trips.row)
  : result outlier_report :=
  let durations := map (fun r => to_float (Trips.duration_minutes r)) trips in
  let distances := map (fun r => to_float (Trips.distance_km r)) trips in
  d <- Numerical.iqr_outliers durations Numerical.default_iqr_multiplier ;;
  k <- Numerical.iqr_outliers distances Numerical.default_iqr_multiplier ;;
  let outlier_duration := fst d in
  let outlier_distance := fst k in
  let outliers := select (mask_or outlier_duration outlier_distance) trips in
  let outlier_list := map outlier_of outliers in
  Ok {| total_outliers := length outlier_list;
        outliers := firstn 20 outlier_list |}.

(** The number of trips that start on a date. *)
Definition trips_on (df : list Trips.row) (date : Z) : nat :=
  count_occ Z.eq_dec (map date_of (stamps Trips.start_time df)) date.

(** The size the groups record for a key. *)
Fixpoint group_count (groups : list (Z * nat)) (k : Z) : nat :=
  match groups with
  | [] => 0
  | (k', n) :: rest => (if (k' =? k)%Z then n else 0) + group_count rest k
  end.

(** Groups in ascending order of their keys. *)
Definition key_lt (a b : Z * nat) : Prop := (fst a < fst b)%Z.


(** A value lies strictly outside the bounds ([False] for a missing
    value). *)
Definition outside (b : Numerical.bounds) (c : cell) : bool :=
  match c with
  | Num x => Qltb x (Numerical.lower_bound b)
             || Qltb (Numerical.upper_bound b) x
  | _ => false
  end.

End BikeShareSystem.

(* ================================================================== *)
(** ** Example data *)

Module Examples.

Import Frame.

(** What pandas makes of the strings that occur in the examples. *)
Definition parse_datetime (s : string) : option Z :=
  if String.eqb s "2024-01-01 10:00:00" then Some 1704103200000000000%Z
  else if String.eqb s "2024-01-01 10:30:00" then Some 1704105000000000000%Z
  else if String.eqb s "2024-01-02 09:00:00" then Some 1704186000000000000%Z
  else if String.eqb s "2024-01-02 09:30:00" then Some 1704187800000000000%Z
  else None.

Definition parse_numeric (s : string) : option Q :=
  if String.eqb s "30" then Some 30%Q else None.

Definition datetime_of_number (x : Q) : option Z := Some (Qfloor x).

Definition trip (id start_time end_time : string) (duration : cell)
  : Trips.row :=
  {| Trips.trip_id := Str id;
     Trips.user_id := Str "USR1000";
     Trips.user_type := Str "member";
     Trips.bike_id := Str "BK200";
     Trips.bike_type := Str "classic";
     Trips.start_station_id := Str "ST100";
     Trips.end_station_id := Str "ST101";
     Trips.start_time := Str start_time;
     Trips.end_time := Str end_time;
     Trips.duration_minutes := duration;
     Trips.distance_km := Num 2.5;
     Trips.status := Str "completed" |}.

(** A trip of half an hour. *)
Definition trip_ok : Trips.row :=
  trip "TR10000" "2024-01-01 10:00:00" "2024-01-01 10:30:00" (Num 30).

(** A trip that ends at the instant it starts, recorded as 5 minutes. *)
Definition trip_same_instant : Trips.row :=
  trip "TR10001" "2024-01-01 10:00:00" "2024-01-01 10:00:00" (Num 5).


(** A trip that ends before it starts. *)
Definition trip_reversed : Trips.row :=
  trip "TR10003" "2024-01-01 10:30:00" "2024-01-01 10:00:00" (Num 30).

(** A trip on the next day. *)
Definition trip_next_day : Trips.row :=
  trip "TR10004" "2024-01-02 09:00:00" "2024-01-02 09:30:00" (Num 30).

Definition cancelled (id : string) : Trips.row :=
  Trips.set_status (Str "cancelled")
    (trip id "2024-01-01 10:00:00" "2024-01-01 10:30:00" (Num 30)).

Definition completed (id : string) : Trips.row :=
  trip id "2024-01-01 10:00:00" "2024-01-01 10:30:00" (Num 30).

Definition clean_trips_csv : list Trips.row -> list Trips.row :=
  DataCleaner.clean_trips_csv parse_datetime parse_numeric
    datetime_of_number.

Definition station (id name : string) (capacity latitude longitude : Q)
  : Stations.row :=
  {| Stations.station_id := Str id;
     Stations.station_name := Str name;
     Stations.capacity := Num capacity;
     Stations.latitude := Num latitude;
     Stations.longitude := Num longitude |}.

(** A station, a second row with its id, a station with a latitude out
    of range and a station without capacity. *)
Definition stations : list Stations.row :=
  [station "ST100" "Central Station" 20 48.78 9.18;
   station "ST100" "Central Station (old)" 25 48.78 9.18;
   station "ST101" "Harbor View" 15 95 9.2;
   station "ST102" "West End" 0 48.76 9.16].

(** The array of the worked example of [iqr_outliers]. *)
Definition iqr_data : list Py.float :=
  map (fun z => Some (inject_Z z)) [1; 2; 3; 4; 5; 6; 7; 8; 9; 100]%Z.

End Examples.

(* ================================================================== *)
(** * The other routines of [citybike/numerical.py] *)

From Stdlib Require Import Qabs.

Close Scope Q_scope.

(** ** Results with [ValueError]

    A NumPy routine raises [ValueError] on arguments it rejects (a
    percentile outside [0, 100], arrays whose shapes do not broadcast),
    as do the constructors of the models, besides the exceptions of
    [Py]. *)

Module Np.

Inductive exn : Type :=
| ValueError
| Builtin (e : Py.exn).

Inductive result (A : Type) : Type :=
| Ok (a : A)
| Raise (e : exn).

Arguments Ok {A} a.
Arguments Raise {A} e.

Definition bind {A B : Type} (m : result A) (k : A -> result B) : result B :=
  match m with
  | Ok a => k a
  | Raise e => Raise e
  end.

Definition lift {A : Type} (m : Py.result A) : result A :=
  match m with
  | Py.Ok a => Ok a
  | Py.Raise e => Raise (Builtin e)
  end.

(** [np.percentile(a, q)] with its check of [q], which comes before the
    array is looked at. *)
Definition percentile (a : list Q) (q : Z) : result Q :=
  if ((0 <=? q) && (q <=? 100))%Z
  then lift (Numerical.percentile a (inject_Z q))
  else Raise ValueError.

(** [a[i] = v] on a list or a one-dimensional array, [i] in range. *)
Fixpoint setitem {A : Type} (l : list A) (i : nat) (v : A) : list A :=
  match l, i with
  | [], _ => []
  | _ :: t, O => v :: t
  | h :: t, S i' => h :: setitem t i' v
  end.

(** The position a Python index denotes in a sequence of [n] elements:
    a negative index counts from the end. *)
Definition index (n : nat) (i : Z) : Py.result nat :=
  if ((0 <=? i) && (i <? Z.of_nat n))%Z then Py.Ok (Z.to_nat i)
  else if ((- Z.of_nat n <=? i) && (i <? 0))%Z
       then Py.Ok (Z.to_nat (Z.of_nat n + i))
       else Py.Raise Py.IndexError.

End Np.

(* ------------------------------------------------------------------ *)
(** ** [DistanceCalculator] *)

Module DistanceCalculator.

Import Py.

Definition fsub (x y : float) : float :=
  match x, y with
  | Some a, Some b => Some (a - b)%Q
  | _, _ => nan
  end.

Definition fadd (x y : float) : float :=
  match x, y with
  | Some a, Some b => Some (a + b)%Q
  | _, _ => nan
  end.

Definition fsquare (x : float) : float := option_map (fun a => (a * a)%Q) x.

(** The entries of a row in which [nearest_station] has put [np.inf]. *)
Inductive extended : Type :=
| Finite (x : float)
| Infinity.

(** [candidate] takes the place of the running minimum of [np.argmin]:
    it is smaller, or it is the first NaN. *)
Definition replaces (candidate best : extended) : bool :=
  match best, candidate with
  | Finite None, _ => false
  | _, Finite None => true
  | Finite (Some b), Finite (Some c) => Qltb c b
  | Finite (Some _), Infinity => false
  | Infinity, Finite (Some _) => true
  | Infinity, Infinity => false
  end.

Fixpoint argmin_from (best_index : nat) (best : extended) (i : nat)
  (l : list extended) : nat :=
  match l with
  | [] => best_index
  | x :: rest =>
      if replaces x best then argmin_from i x (S i) rest
      else argmin_from best_index best (S i) rest
  end.

(** [np.argmin] of a non-empty array: the first position of the
    minimum, or of a NaN when there is one. *)
Definition argmin (l : list extended) : nat :=
  match l with
  | [] => 0
  | x :: rest => argmin_from 0 x 1 rest
  end.

(** [np.zeros((n, m))]. *)
Definition zeros (n m : nat) : list (list float) :=
  repeat (repeat (Some 0%Q) m) n.

(** [distances[i, j] = v]. *)
Definition setitem2 (distances : list (list float)) (i j : nat) (v : float)
  : list (list float) :=
  match nth_error distances i with
  | Some row => Np.setitem distances i (Np.setitem row j v)
  | None => distances
  end.

Section Distances.

(** [math.sqrt] is library code. *)
Variable sqrt : Q -> Q.

(** [DistanceCalculator.euclidean_distance]. *)
Definition euclidean_distance (lat1 lon1 lat2 lon2 : float) : float :=
  let dlat := fsub lat2 lat1 in
  let dlon := fsub lon2 lon1 in
  option_map sqrt (fadd (fsquare dlat) (fsquare dlon)).

(** [DistanceCalculator.pairwise_distances]: the two loops fill the
    upper triangle and mirror it. *)
Definition pairwise_distances (stations_coords : list (float * float))
  : list (list float) :=
  let coords := stations_coords in
  let n := length coords in
  let distances := zeros n n in
  fold_left
    (fun distances i =>
       fold_left
         (fun distances j =>
            let '(lat1, lon1) := nth i coords (nan, nan) in
            let '(lat2, lon2) := nth j coords (nan, nan) in
            let dist := euclidean_distance lat1 lon1 lat2 lon2 in
            let distances := setitem2 distances i j dist in
            setitem2 distances j i dist)
         (seq (i + 1) (n - (i + 1))) distances)
    (seq 0 n) distances.

(** The distance the loops compute for the stations [i] and [j]. *)
Definition station_distance (coords : list (float * float)) (i j : nat)
  : float :=
  let '(lat1, lon1) := nth i coords (nan, nan) in
  let '(lat2, lon2) := nth j coords (nan, nan) in
  euclidean_distance lat1 lon1 lat2 lon2.

End Distances.

(** [distances[i, j]]. *)
Definition entry (distances : list (list float)) (i j : nat) : float :=
  nth j (nth i distances []) nan.

(** The order [np.argmin] goes by, on entries that are not NaN. *)
Definition precedes (a b : extended) : Prop :=
  match a, b with
  | Finite (Some x), Finite (Some y) => (x < y)%Q
  | Finite (Some _), Infinity => True
  | _, _ => False
  end.

(** [DistanceCalculator.nearest_station]. *)
Definition nearest_station (from_station_idx : Z)
  (distance_matrix : list (list float)) : result nat :=
  i <- Np.index (length distance_matrix) from_station_idx ;;
  let distances := map Finite (nth i distance_matrix []) in
  j <- Np.index (length distances) from_station_idx ;;
  let distances := Np.setitem distances j Infinity in
  Ok (argmin distances).

End DistanceCalculator.

(* ------------------------------------------------------------------ *)
(** ** [StatisticalAnalyzer.percentile_analysis] *)

Module StatisticalAnalyzer.

Import Py.

(** [d[k] = v] on a dictionary with integer keys: a key that is there
    keeps its place. *)
Fixpoint setitem (d : list (Z * Q)) (k : Z) (v : Q) : list (Z * Q) :=
  match d with
  | [] => [(k, v)]
  | (k', v') :: d' =>
      if (k =? k')%Z then (k', v) :: d' else (k', v') :: setitem d' k v
  end.

Definition default_percentiles : list Z := [10; 25; 50; 75; 90; 95; 99]%Z.

(** The percentiles [np.percentile] accepts. *)
Definition in_range (p : Z) : Prop := (0 <= p <= 100)%Z.

(** The dictionary comprehension, one percentile after the other. *)
Fixpoint percentiles_from (data : list Q) (percentiles : list Z)
  (d : list (Z * Q)) : Np.result (list (Z * Q)) :=
  match percentiles with
  | [] => Np.Ok d
  | p :: rest =>
      Np.bind (Np.percentile data p)
        (fun v => percentiles_from data rest (setitem d p v))
  end.

(** [percentiles] is [None] when the caller leaves it out. *)
Definition percentile_analysis (data : list float)
  (percentiles : option (list Z)) : Np.result (list (Z * Q)) :=
  let percentiles :=
    match percentiles with
    | None => default_percentiles
    | Some l => l
    end in
  let data := Numerical.drop_nan data in
  percentiles_from data percentiles [].

End StatisticalAnalyzer.

(* ------------------------------------------------------------------ *)
(** ** [OutlierDetection.zscore_outliers] *)

Module OutlierDetection.

Import Py.

Definition default_threshold : Q := 3.

Section ZScore.

Variable sqrt : Q -> Q.


End ZScore.

End OutlierDetection.

(* ------------------------------------------------------------------ *)
(** ** [BatchNumericalComputation.calculate_fares] *)

Module BatchNumericalComputation.

Import Py.


(** [np.maximum] of two numbers: NaN if either is. *)
Definition maximum (x y : float) : float :=
  match x, y with
  | Some a, Some b => Some (if Qle_bool a b then b else a)
  | _, _ => nan
  end.


Definition default_rate_per_minute : Q := 0.30.
Definition default_rate_per_km : Q := 0.80.


End BatchNumericalComputation.

(* ================================================================== *)
(** * The other queries of [BikeShareSystem]

    The queries read the cleaned tables ([self.trips_clean_df],
    [self.stations_clean_df], [self.maintenance_clean_df]): a timestamp
    column holds timestamps and missing values, a numeric column
    numbers and missing values. *)

Module Analytics.

Import Py Frame BikeShareSystem.

(** *** Q3 *)

Definition ns_per_hour : Z := 3600000000000.

(** [start_time.dt.hour]. *)
Definition hour_of (t : Z) : Z := ((t / ns_per_hour) mod 24)%Z.

(** Rows without a start time have no hour and [groupby] leaves them
    out; the dictionary is filled in the order of the groups, which is
    the ascending order of the hours. *)
Definition q3_peak_hours (trips : list Trips.row) : list (Z * nat) :=
  let hourly_counts :=
    groupby_size (map hour_of (stamps Trips.start_time trips)) in
  hourly_counts.

(** *** Counting the rows of each key *)

Section Counting.

Variable K : Type.
Variable eqb : K -> K -> bool.

Definition count (k : K) (keys : list K) : nat :=
  length (filter (eqb k) keys).

(** The distinct keys, in the order of their first occurrence. *)
Fixpoint unique_from (seen keys : list K) : list K :=
  match keys with
  | [] => []
  | k :: rest =>
      if existsb (eqb k) seen then unique_from seen rest
      else k :: unique_from (k :: seen) rest
  end.

Definition unique (keys : list K) : list K := unique_from [] keys.

(** Every distinct key with the number of its rows. *)
Definition sizes (keys : list K) : list (K * nat) :=
  map (fun k => (k, count k keys)) (unique keys).

End Counting.

(** [Series.head(n)]: the first [n] entries, or all but the last [-n]
    when [n] is negative. *)
Definition head {A : Type} (n : Z) (l : list A) : list A :=
  if (0 <=? n)%Z then firstn (Z.to_nat n) l
  else firstn (length l - Z.to_nat (- n)) l.

(** The number of rows of a table with the value [k] in a column. *)
Definition rows_with {row : Type} (col : row -> cell) (k : cell)
  (df : list row) : nat :=
  length (filter (fun r => cell_eqb k (col r)) df).

(** Counts in descending order. *)
Definition descending {K : Type} (a b : K * nat) : Prop := snd b <= snd a.


(** The dictionaries of the results, a field for each key; the key
    ["trips"] of Q2 is [station_trip_count], [trips] being the table. *)
Record user_trips : Type := {
  user_id : cell;
  trip_count : nat
}.

Record bike_maintenance : Type := {
  bike_id : cell;
  maintenance_records : nat
}.

Record station_trips : Type := {
  station : cell;
  station_trip_count : nat
}.

Record popular_stations : Type := {
  top_start_stations : list station_trips;
  top_end_stations : list station_trips
}.


(** [station_map.get(sid, sid)] on [dict(zip(station_id, station_name))]:
    of two stations with one id the dictionary keeps the later name. *)
Definition station_name_of (stations : list Stations.row) (sid : cell)
  : cell :=
  fold_left
    (fun found s =>
       if cell_eqb (Stations.station_id s) sid then Stations.station_name s
       else found)
    stations sid.

Section Ranking.

(** [sort_values(ascending=False)]: the order it gives to equal counts
    is that of the sorting routine of the library. *)
Variable sort_values : forall K : Type, list (K * nat) -> list (K * nat).

(** The order in which [groupby] on two columns lists its groups is
    the order of the library on pairs of keys. *)
Variable sort_index :
  list ((cell * cell) * nat) -> list ((cell * cell) * nat).

(** [column.value_counts()]: missing values are not counted. *)
Definition value_counts (column : list cell) : list (cell * nat) :=
  sort_values (sizes cell_eqb (filter notna column)).

(** *** Q8 *)
Definition q8_top_users (trips : list Trips.row) (top_n : Z)
  : list user_trips :=
  let user_trip_counts :=
    head top_n (value_counts (map Trips.user_id trips)) in
  map (fun p => {| user_id := fst p; trip_count := snd p |})
    user_trip_counts.

(** *** Q13 *)
Definition q13_bike_maintenance_frequency (maint : list Maintenance.row)
  (top_n : Z) : list bike_maintenance :=
  let maint_counts :=
    head top_n (value_counts (map Maintenance.bike_id maint)) in
  map (fun p => {| bike_id := fst p; maintenance_records := snd p |})
    maint_counts.

(** *** Q2 *)
Definition q2_popular_stations (trips : list Trips.row)
  (stations : list Stations.row) (top_n : Z) : popular_stations :=
  let start_counts :=
    head top_n (value_counts (map Trips.start_station_id trips)) in
  let end_counts :=
    head top_n (value_counts (map Trips.end_station_id trips)) in
  let top_starts :=
    map (fun p => {| station := station_name_of stations (fst p);
                     station_trip_count := snd p |}) start_counts in
  let top_ends :=
    map (fun p => {| station := station_name_of stations (fst p);
                     station_trip_count := snd p |}) end_counts in
  {| top_start_stations := top_starts; top_end_stations := top_ends |}.

(** *** Q10 *)



End Ranking.

(** What an entry of Q2 says about the column [col] of the trips: it
    stands for a station id that occurs in the column, counts the trips
    with that id, and shows the name of the station with that id, or
    the id itself when the table has no such station. *)
Definition station_entry (col : Trips.row -> cell) (trips : list Trips.row)
  (stations : list Stations.row) (e : station_trips) : Prop :=
  exists sid,
    sid <> NA /\
    station_trip_count e = rows_with col sid trips /\
    0 < station_trip_count e /\
    (forall s, In s stations -> cell_eq (Stations.station_id s) sid ->
               station e = Stations.station_name s) /\
    ((forall s, In s stations -> ~ cell_eq (Stations.station_id s) sid) ->
     station e = sid).



Section Grouping.

(** The order in which [groupby] on one column lists its groups is the
    order of the library on the keys. *)
Variable sort_keys : list cell -> list cell.





End Grouping.

(** A sorting routine for the examples: insertion sort by descending
    count, which keeps the order of equal counts. *)
Fixpoint insert_by_count {K : Type} (g : K * nat) (l : list (K * nat))
  : list (K * nat) :=
  match l with
  | [] => [g]
  | h :: rest =>
      if (snd h <? snd g)%nat then g :: l
      else h :: insert_by_count g rest
  end.

Definition stable_sort_values (K : Type) (l : list (K * nat))
  : list (K * nat) :=
  fold_right insert_by_count [] l.

(** A maintenance record for the examples. *)
Definition maintenance_record (id bike : string) : Maintenance.row :=
  {| Maintenance.record_id := Str id;
     Maintenance.bike_id := Str bike;
     Maintenance.bike_type := Str "classic";
     Maintenance.date := Stamp 1704103200000000000;
     Maintenance.maintenance_type := Str "tire_repair";
     Maintenance.cost := Num 12.5;
     Maintenance.description := NA |}.

End Analytics.

(* ================================================================== *)
(** * [citybike/algorithms.py]: sorting and searching

    The elements are compared by their keys; a key is a number that is
    not NaN.  The default key of the source is the identity. *)

From Stdlib Require Import FunInd Recdef.

Module Algorithms.

Import Py.

Section Keys.

Variable A : Type.
Variable key : A -> Q.

(** The order of the keys, and the elements with a given key. *)
Definition key_le (a b : A) : Prop := (key a <= key b)%Q.
Definition has_key (k : Q) (x : A) : bool := Qeq_bool (key x) k.

(** *** [merge_sort] *)

(** The inner function [merge]: the loop takes the smaller head, the
    left one when the keys are equal, and the two [extend] calls add
    what is left. *)
Fixpoint merge (left : list A) : list A -> list A :=
  fix merge_right (right : list A) : list A :=
    match left, right with
    | [], _ => right
    | _, [] => left
    | x :: left', y :: right' =>
        if Qle_bool (key x) (key y) then x :: merge left' right
        else y :: merge_right right'
    end.

Function merge_sort (data : list A) {measure length data} : list A :=
  if Nat.leb (length data) 1 then data
  else
    let mid := length data / 2 in
    merge (merge_sort (firstn mid data)) (merge_sort (skipn mid data)).
Proof.
- intros data H. apply Nat.leb_gt in H. rewrite length_skipn.
  assert (0 < length data / 2) by (apply Nat.div_str_pos; lia). lia.
- intros data H. apply Nat.leb_gt in H. rewrite length_firstn.
  assert (length data / 2 < length data) by (apply Nat.div_lt; lia). lia.
Defined.

(** *** [quick_sort] *)

Definition smaller (pivot_key : Q) (x : A) : bool := Qltb (key x) pivot_key.
Definition equal (pivot_key : Q) (x : A) : bool := Qeq_bool (key x) pivot_key.
Definition larger (pivot_key : Q) (x : A) : bool := Qltb pivot_key (key x).

Function quick_sort (data : list A) {measure length data} : list A :=
  if Nat.leb (length data) 1 then data
  else
    match nth_error data (length data / 2) with
    | None => data
    | Some pivot =>
        let pivot_key := key pivot in
        quick_sort (filter (smaller pivot_key) data)
        ++ filter (equal pivot_key) data
        ++ quick_sort (filter (larger pivot_key) data)
    end.
Proof.
- intros data _ pivot H. apply nth_error_In in H.
  assert (larger (key pivot) pivot = false) as P.
  { unfold larger, Qltb.
    now rewrite (proj2 (Qle_bool_iff _ _) (Qle_refl _)). }
  revert H P. generalize (larger (key pivot)) as p. intros p H P.
  induction data as [|x data IH]; simpl; [contradiction|].
  destruct H as [->|H].
  + rewrite P. pose proof (filter_length_le p data). lia.
  + apply IH in H. destruct (p x); simpl; lia.
- intros data _ pivot H. apply nth_error_In in H.
  assert (smaller (key pivot) pivot = false) as P.
  { unfold smaller, Qltb.
    now rewrite (proj2 (Qle_bool_iff _ _) (Qle_refl _)). }
  revert H P. generalize (smaller (key pivot)) as p. intros p H P.
  induction data as [|x data IH]; simpl; [contradiction|].
  destruct H as [->|H].
  + rewrite P. pose proof (filter_length_le p data). lia.
  + apply IH in H. destruct (p x); simpl; lia.
Defined.

(** *** [bubble_sort] *)

(** The inner loop, [j] running over [m] positions from the head of the
    list: neighbours in the wrong order are swapped, and [swapped] says
    whether any were. *)
Fixpoint bubble (m : nat) (result : list A) : list A * bool :=
  match m, result with
  | S m', x :: y :: rest =>
      if Qltb (key y) (key x)
      then (y :: fst (bubble m' (x :: rest)), true)
      else (x :: fst (bubble m' (y :: rest)), snd (bubble m' (y :: rest)))
  | _, _ => (result, false)
  end.

(** The outer loop from the pass [i] on, [passes] passes being left. *)
Fixpoint bubble_passes (passes i n : nat) (result : list A) : list A :=
  match passes with
  | O => result
  | S passes' =>
      let (result', swapped) := bubble (n - i - 1) result in
      if swapped then bubble_passes passes' (S i) n result'
      else result'
  end.

Definition bubble_sort (data : list A) : list A :=
  let result := data in
  let n := length result in
  bubble_passes n 0 n result.

(** *** [linear_search] *)

(** The target is a value that is not callable: it is compared with the
    keys as it is. *)
Fixpoint linear_search_from (i : nat) (data : list A) (target : Q)
  : option nat :=
  match data with
  | [] => None
  | item :: rest =>
      if Qeq_bool (key item) target then Some i
      else linear_search_from (S i) rest target
  end.

Definition linear_search (data : list A) (target : Q) : option nat :=
  linear_search_from 0 data target.

(** *** [binary_search] and [binary_search_recursive] *)

(** [data[mid]]: an index below 0 counts from the end. *)
Definition getitem (data : list A) (mid : Z) : result A :=
  i <- Np.index (length data) mid ;;
  match nth_error data i with
  | Some x => Ok x
  | None => Raise IndexError
  end.

(** The number of positions left between [left] and [right]. *)
Definition span (bounds : Z * Z) : nat :=
  Z.to_nat (snd bounds - fst bounds + 1).

Function binary_search_loop (data : list A) (target : Q) (bounds : Z * Z)
  {measure span bounds} : result (option Z) :=
  let (left, right) := bounds in
  if (left <=? right)%Z then
    let mid := ((left + right) / 2)%Z in
    match getitem data mid with
    | Raise e => Raise e
    | Ok item =>
        let mid_key := key item in
        if Qeq_bool mid_key target then Ok (Some mid)
        else if Qltb mid_key target
             then binary_search_loop data target ((mid + 1)%Z, right)
             else binary_search_loop data target (left, (mid - 1)%Z)
    end
  else Ok None.
Proof.
- intros data target bounds left right -> H item _ _ _.
  apply Z.leb_le in H. unfold span. simpl.
  assert (left <= (left + right) / 2 <= right)%Z
    by (split; [apply Z.div_le_lower_bound|apply Z.div_le_upper_bound]; lia).
  lia.
- intros data target bounds left right -> H item _ _ _.
  apply Z.leb_le in H. unfold span. simpl.
  assert (left <= (left + right) / 2 <= right)%Z
    by (split; [apply Z.div_le_lower_bound|apply Z.div_le_upper_bound]; lia).
  lia.
Defined.

Definition binary_search (data : list A) (target : Q)
  : result (option Z) :=
  binary_search_loop data target (0%Z, (Z.of_nat (length data) - 1)%Z).

Function binary_search_between (data : list A) (target : Q)
  (bounds : Z * Z) {measure span bounds} : result (option Z) :=
  let (left, right) := bounds in
  if (right <? left)%Z then Ok None
  else
    let mid := ((left + right) / 2)%Z in
    match getitem data mid with
    | Raise e => Raise e
    | Ok item =>
        let mid_key := key item in
        if Qeq_bool mid_key target then Ok (Some mid)
        else if Qltb mid_key target
             then binary_search_between data target ((mid + 1)%Z, right)
             else binary_search_between data target (left, (mid - 1)%Z)
    end.
Proof.
- intros data target bounds left right -> H item _ _ _.
  apply Z.ltb_ge in H. unfold span. simpl.
  assert (left <= (left + right) / 2 <= right)%Z
    by (split; [apply Z.div_le_lower_bound|apply Z.div_le_upper_bound]; lia).
  lia.
- intros data target bounds left right -> H item _ _ _.
  apply Z.ltb_ge in H. unfold span. simpl.
  assert (left <= (left + right) / 2 <= right)%Z
    by (split; [apply Z.div_le_lower_bound|apply Z.div_le_upper_bound]; lia).
  lia.
Defined.

(** [binary_search_recursive]: [left] is 0 and [right] is [None] when
    the caller leaves them out. *)
Definition binary_search_recursive (data : list A) (target : Q)
  (left : Z) (right : option Z) : result (option Z) :=
  let right :=
    match right with
    | None => (Z.of_nat (length data) - 1)%Z
    | Some r => r
    end in
  binary_search_between data target (left, right).

End Keys.

End Algorithms.

(* ================================================================== *)
(** * [citybike/pricing.py]: the pricing strategies

    Durations, distances and fares are floats that are not NaN. *)

Module Pricing.

(** The built-in [max(a, b)]: [b] when it is greater, else [a]. *)
Definition max (a b : Q) : Q := if Qltb a b then b else a.

Definition is_electric (bike_type : string) : bool :=
  String.eqb bike_type "electric".

Module CasualPricingStrategy.

Definition BASE_RATE_PER_MINUTE : Q := 0.30.
Definition MINIMUM_FARE : Q := 2.00.
Definition ELECTRIC_SURCHARGE : Q := 0.20.

Definition calculate_fare (duration_minutes distance_km : Q)
  (bike_type : string) : Q :=
  (* Base calculation: minutes * rate *)
  let fare := (duration_minutes * BASE_RATE_PER_MINUTE)%Q in
  (* Apply electric bike surcharge *)
  let fare :=
    if is_electric bike_type then (fare * (1 + ELECTRIC_SURCHARGE))%Q
    else fare in
  (* Apply minimum fare *)
  let fare := max fare MINIMUM_FARE in
  round2 fare.

End CasualPricingStrategy.

Module MemberPricingStrategy.

Definition BASE_RATE_PER_MINUTE : Q := 0.18.
Definition UNLIMITED_DURATION : Q := 45.
Definition MINIMUM_FARE : Q := 1.00.
Definition ELECTRIC_SURCHARGE : Q := 0.10.

Definition calculate_fare (duration_minutes distance_km : Q)
  (bike_type : string) : Q :=
  (* Free rides up to 45 minutes *)
  if Qle_bool duration_minutes UNLIMITED_DURATION then 0.00%Q
  else
    (* Charge for excess time *)
    let excess_minutes := (duration_minutes - UNLIMITED_DURATION)%Q in
    let fare := (excess_minutes * BASE_RATE_PER_MINUTE)%Q in
    (* Apply electric bike surcharge *)
    let fare :=
      if is_electric bike_type then (fare * (1 + ELECTRIC_SURCHARGE))%Q
      else fare in
    (* Apply minimum if trip was very short *)
    let fare :=
      if Qltb 0 duration_minutes then max fare MINIMUM_FARE else 0%Q in
    round2 fare.

End MemberPricingStrategy.

Module PeakHourPricingStrategy.

Definition PEAK_HOURS : list Z := [8; 17; 18]%Z.
Definition PEAK_MULTIPLIER : Q := 1.5.
Definition BASE_RATE_PER_MINUTE : Q := 0.25.
Definition MINIMUM_FARE : Q := 1.50.

(** [time_of_day] is the hour of the trip's start, [None] when the
    caller leaves the time out; [now] is the hour of the clock. *)
Definition calculate_fare (now : Z) (duration_minutes distance_km : Q)
  (bike_type : string) (time_of_day : option Z) : Q :=
  let time_of_day :=
    match time_of_day with
    | None => now
    | Some hour => hour
    end in
  (* Base calculation *)
  let fare := (duration_minutes * BASE_RATE_PER_MINUTE)%Q in
  (* Apply peak hour multiplier *)
  let fare :=
    if existsb (Z.eqb time_of_day) PEAK_HOURS
    then (fare * PEAK_MULTIPLIER)%Q else fare in
  (* Apply electric bike surcharge *)
  let fare := if is_electric bike_type then (fare * 1.15)%Q else fare in
  (* Apply minimum *)
  let fare := max fare MINIMUM_FARE in
  round2 fare.

End PeakHourPricingStrategy.

Module DistanceBasedPricingStrategy.

Definition RATE_PER_KM : Q := 0.80.
Definition MINIMUM_FARE : Q := 2.50.
Definition FALLBACK_RATE_PER_MINUTE : Q := 0.15.

Definition calculate_fare (duration_minutes distance_km : Q)
  (bike_type : string) : Q :=
  let fare :=
    if Qle_bool distance_km 0
    then (* Fallback to time-based *)
      (duration_minutes * FALLBACK_RATE_PER_MINUTE)%Q
    else (distance_km * RATE_PER_KM)%Q in
  (* Apply electric bike surcharge *)
  let fare := if is_electric bike_type then (fare * 1.25)%Q else fare in
  (* Apply minimum *)
  let fare := max fare MINIMUM_FARE in
  round2 fare.

End DistanceBasedPricingStrategy.

End Pricing.

(* ================================================================== *)
(** * [citybike/models.py]: the bikes of a station *)

Module Station.

Record station : Type := {
  id : string;
  name : string;
  capacity : Z;
  latitude : Q;
  longitude : Q;
  current_bikes : list string
}.

(** [Station.__init__], after [Entity.__init__]: the checks in the order
    of the source, each a [ValueError]. *)
Definition init (station_id name : string) (capacity : Z)
  (latitude longitude : Q) : Np.result station :=
  if String.eqb station_id "" then Np.Raise Np.ValueError
  else if String.eqb name "" then Np.Raise Np.ValueError
  else if (capacity <=? 0)%Z then Np.Raise Np.ValueError
  else if negb (Qle_bool (-90) latitude && Qle_bool latitude 90)
       then Np.Raise Np.ValueError
  else if negb (Qle_bool (-180) longitude && Qle_bool longitude 180)
       then Np.Raise Np.ValueError
  else Np.Ok {| id := station_id; name := name; capacity := capacity;
                latitude := latitude; longitude := longitude;
                current_bikes := [] |}.

Definition with_bikes (self : station) (bikes : list string) : station :=
  {| id := id self; name := name self; capacity := capacity self;
     latitude := latitude self; longitude := longitude self;
     current_bikes := bikes |}.

Definition available_spots (self : station) : Z :=
  Z.max 0 (capacity self - Z.of_nat (length (current_bikes self))).

(** What a station keeps true of its bikes: none twice, and no more
    than it has places. *)
Definition sound (self : station) : Prop :=
  NoDup (current_bikes self) /\
  (Z.of_nat (length (current_bikes self)) <= capacity self)%Z.

(** [bike_id in self._current_bikes]. *)
Definition contains (bikes : list string) (bike_id : string) : bool :=
  existsb (String.eqb bike_id) bikes.

(** [list.remove]: the first occurrence goes. *)
Fixpoint remove (bikes : list string) (bike_id : string) : list string :=
  match bikes with
  | [] => []
  | b :: rest => if String.eqb bike_id b then rest else b :: remove rest bike_id
  end.

(** The methods return their result and the station as they leave it. *)
Definition add_bike (self : station) (bike_id : string) : bool * station :=
  if (Z.of_nat (length (current_bikes self)) <? capacity self)%Z
     && negb (contains (current_bikes self) bike_id)
  then (true, with_bikes self (current_bikes self ++ [bike_id]))
  else (false, self).

Definition remove_bike (self : station) (bike_id : string)
  : bool * station :=
  if contains (current_bikes self) bike_id
  then (true, with_bikes self (remove (current_bikes self) bike_id))
  else (false, self).

(** A call of one of the two methods, and a sequence of calls. *)
Inductive call : Type :=
| AddBike (bike_id : string)
| RemoveBike (bike_id : string).

Definition step (self : station) (c : call) : station :=
  match c with
  | AddBike b => snd (add_bike self b)
  | RemoveBike b => snd (remove_bike self b)
  end.

Definition run (calls : list call) (self : station) : station :=
  fold_left step calls self.

End Station.
(* ================================================================== *)
(** * Properties *)

(** ** Comparisons of rationals *)

Lemma Qltb_lt (x y : Q) : Qltb x y = true <-> (x < y)%Q.
Proof.
  unfold Qltb. rewrite negb_true_iff.
  split; intro H.
  - apply Qnot_le_lt. intro L. apply Qle_bool_iff in L. congruence.
  - destruct (Qle_bool y x) eqn:E; trivial.
    apply Qle_bool_iff in E. exfalso. apply (Qlt_not_le _ _ H E).
Qed.

Lemma Qltb_ge (x y : Q) : Qltb x y = false <-> (y <= x)%Q.
Proof.
  unfold Qltb. rewrite negb_false_iff. apply Qle_bool_iff.
Qed.

(** ** Data frames *)

Module FrameFacts.

Import Frame.

Lemma cell_eqb_refl (a : cell) : cell_eqb a a = true.
Proof.
  destruct a; simpl; trivial.
  - apply String.eqb_refl.
  - apply Qeq_bool_iff. reflexivity.
  - apply Z.eqb_refl.
Qed.

Lemma cell_eqb_sym (a b : cell) : cell_eqb a b = cell_eqb b a.
Proof.
  destruct a, b; simpl; trivial.
  - apply String.eqb_sym.
  - destruct (Qeq_bool x x0) eqn:E, (Qeq_bool x0 x) eqn:F; trivial.
    + apply Qeq_bool_iff in E. symmetry in E.
      apply Qeq_bool_iff in E. congruence.
    + apply Qeq_bool_iff in F. symmetry in F.
      apply Qeq_bool_iff in F. congruence.
  - apply Z.eqb_sym.
Qed.

Lemma cell_eqb_trans (a b c : cell) :
  cell_eqb a b = true -> cell_eqb b c = true -> cell_eqb a c = true.
Proof.
  destruct a, b, c; simpl; try discriminate; trivial.
  - rewrite !String.eqb_eq. congruence.
  - rewrite !Qeq_bool_iff. intros E F. rewrite E. exact F.
  - rewrite !Z.eqb_eq. congruence.
Qed.

#[export] Instance cell_eq_equiv : Equivalence cell_eq.
Proof.
  split.
  - intro a. apply cell_eqb_refl.
  - intros a b H. unfold cell_eq in *. now rewrite cell_eqb_sym.
  - intros a b c. apply cell_eqb_trans.
Qed.

Lemma existsb_cell_eqb (k : cell) (seen : list cell) :
  existsb (cell_eqb k) seen = true <-> InA cell_eq k seen.
Proof.
  rewrite existsb_exists, InA_alt. unfold cell_eq. firstorder.
Qed.

Lemma to_numeric_idem (pn : string -> option Q) (c : cell) :
  to_numeric pn (to_numeric pn c) = to_numeric pn c.
Proof.
  destruct c; simpl; trivial.
  destruct (pn s); reflexivity.
Qed.

Lemma to_numeric_shape (pn : string -> option Q) (c : cell) :
  to_numeric pn c = NA \/ exists d, to_numeric pn c = Num d.
Proof.
  destruct c; simpl; eauto.
  destruct (pn s); simpl; eauto.
Qed.

Lemma to_datetime_idem (pd : string -> option Z) (dn : Q -> option Z)
      (c : cell) :
  to_datetime pd dn (to_datetime pd dn c) = to_datetime pd dn c.
Proof.
  destruct c; simpl; trivial.
  - destruct (pd s); reflexivity.
  - destruct (dn x); reflexivity.
Qed.

(** Membership in a frame that went through filters: back to the
    frame before them, with the conditions that held. *)
Ltac through_filters H :=
  repeat (apply filter_In in H; destruct H as [H ?]).

Section Duplicates.

Variable row : Type.
Variable key : row -> cell.

Lemma drop_duplicates_from_In (seen : list cell) (df : list row) (r : row) :
  In r (drop_duplicates_from key seen df) ->
  In r df /\ existsb (cell_eqb (key r)) seen = false.
Proof.
  revert seen. induction df as [|x df IH]; simpl; intros seen H.
  - contradiction.
  - destruct (existsb (cell_eqb (key x)) seen) eqn:E.
    + apply IH in H. tauto.
    + destruct H as [<-|H].
      * auto.
      * apply IH in H. simpl in H. destruct H as [H1 H2].
        apply orb_false_iff in H2. tauto.
Qed.

Lemma drop_duplicates_from_NoDupA (seen : list cell) (df : list row) :
  NoDupA cell_eq (map key (drop_duplicates_from key seen df)).
Proof.
  revert seen. induction df as [|x df IH]; simpl; intros seen.
  - constructor.
  - destruct (existsb (cell_eqb (key x)) seen) eqn:E.
    + apply IH.
    + simpl. constructor; [|apply IH].
      intro H. apply InA_alt in H. destruct H as (k & Hk & Hin).
      apply in_map_iff in Hin. destruct Hin as (r & <- & Hr).
      apply drop_duplicates_from_In in Hr. destruct Hr as [_ Hr].
      simpl in Hr. apply orb_false_iff in Hr. destruct Hr as [Hr _].
      unfold cell_eq in Hk. rewrite cell_eqb_sym in Hk. congruence.
Qed.

Lemma drop_duplicates_from_fixed (seen : list cell) (df : list row) :
  NoDupA cell_eq (map key df) ->
  (forall r, In r df -> existsb (cell_eqb (key r)) seen = false) ->
  drop_duplicates_from key seen df = df.
Proof.
  revert seen. induction df as [|x df IH]; simpl; intros seen ND Hseen.
  - reflexivity.
  - inversion ND as [|k ks Hnot ND']; subst.
    rewrite (Hseen x (or_introl eq_refl)). f_equal.
    apply IH; trivial.
    intros r Hr. simpl. apply orb_false_iff. split.
    + destruct (cell_eqb (key r) (key x)) eqn:E; trivial.
      exfalso. apply Hnot. apply InA_alt. exists (key r). split.
      * unfold cell_eq. now rewrite cell_eqb_sym.
      * now apply in_map.
    + apply Hseen. now right.
Qed.

Lemma drop_duplicates_fixed (df : list row) :
  NoDupA cell_eq (map key df) -> drop_duplicates key df = df.
Proof.
  intro ND. apply drop_duplicates_from_fixed; trivial.
Qed.

(** Every row that survives is a first occurrence of its key. *)
Lemma drop_duplicates_from_first (seen : list cell) (df : list row)
      (r : row) :
  In r (drop_duplicates_from key seen df) ->
  exists pre post,
    df = pre ++ r :: post /\
    forall y, In y pre -> cell_eqb (key y) (key r) = false.
Proof.
  revert seen. induction df as [|x df IH]; simpl; intros seen H.
  - contradiction.
  - destruct (existsb (cell_eqb (key x)) seen) eqn:E.
    + pose proof (drop_duplicates_from_In _ _ _ H) as [_ Hr].
      destruct (IH _ H) as (pre & post & -> & Hpre).
      exists (x :: pre), post. split; [reflexivity|].
      intros y [Hy|Hy]; [subst y|now apply Hpre].
      destruct (cell_eqb (key x) (key r)) eqn:F; trivial.
      exfalso. apply existsb_cell_eqb in E.
      assert (InA cell_eq (key r) seen) as G.
      { eapply InA_eqA; try exact E.
        - apply cell_eq_equiv.
        - exact F. }
      apply existsb_cell_eqb in G. congruence.
    + destruct H as [<-|H].
      * exists [], df. split; [reflexivity|]. intros y [].
      * pose proof (drop_duplicates_from_In _ _ _ H) as [_ Hr].
        destruct (IH _ H) as (pre & post & -> & Hpre).
        exists (x :: pre), post. split; [reflexivity|].
        intros y [Hy|Hy]; [subst y|now apply Hpre].
        simpl in Hr. apply orb_false_iff in Hr. destruct Hr as [Hr _].
        now rewrite cell_eqb_sym.
Qed.

Lemma NoDupA_filter (f : row -> bool) (df : list row) :
  NoDupA cell_eq (map key df) -> NoDupA cell_eq (map key (filter f df)).
Proof.
  induction df as [|x df IH]; simpl; intro ND; trivial.
  inversion ND as [|k ks Hnot ND']; subst.
  destruct (f x); simpl; [|now apply IH].
  constructor; [|now apply IH].
  intro H. apply Hnot. apply InA_alt in H. destruct H as (k & Hk & Hin).
  apply InA_alt. exists k. split; trivial.
  apply in_map_iff in Hin. destruct Hin as (r & <- & Hr).
  apply filter_In in Hr. apply in_map. tauto.
Qed.

Lemma filter_fixed (f : row -> bool) (df : list row) :
  (forall r, In r df -> f r = true) -> filter f df = df.
Proof.
  induction df as [|x df IH]; simpl; intro H; trivial.
  rewrite (H x (or_introl eq_refl)). f_equal. apply IH. auto.
Qed.

Lemma map_fixed (g : row -> row) (df : list row) :
  (forall r, In r df -> g r = r) -> map g df = df.
Proof.
  induction df as [|x df IH]; simpl; intro H; trivial.
  rewrite (H x (or_introl eq_refl)). f_equal. apply IH. auto.
Qed.

End Duplicates.

End FrameFacts.

(** ** Cleaned stations *)

Module StationsFacts.

Import Frame FrameFacts DataCleaner.

Section Stations.

Variable parse_numeric : string -> option Q.

Local Abbreviation clean := (clean_stations_csv parse_numeric).

Lemma stations_clean_In (raw : list Stations.row) (r : Stations.row) :
  In r (clean raw) ->
  forallb (fun col => notna (col r))
    [Stations.station_id; Stations.station_name; Stations.capacity;
     Stations.latitude; Stations.longitude] = true /\
  (ge_num (Stations.latitude r) (-90) && le_num (Stations.latitude r) 90
   && ge_num (Stations.longitude r) (-180)
   && le_num (Stations.longitude r) 180 = true) /\
  gt_num (Stations.capacity r) 0 = true.
Proof.
  unfold clean_stations_csv, dropna. intro H.
  through_filters H. auto.
Qed.

Lemma stations_clean_NoDupA (raw : list Stations.row) :
  NoDupA cell_eq (map Stations.station_id (clean raw)).
Proof.
  unfold clean_stations_csv, dropna, drop_duplicates.
  do 3 apply NoDupA_filter. apply drop_duplicates_from_NoDupA.
Qed.

Lemma clean_numeric (raw : list Stations.row) (r : Stations.row) :
  In r (clean raw) ->
  to_numeric parse_numeric (Stations.capacity r) = Stations.capacity r /\
  to_numeric parse_numeric (Stations.latitude r) = Stations.latitude r /\
  to_numeric parse_numeric (Stations.longitude r) = Stations.longitude r.
Proof.
  intro H. apply stations_clean_In in H. destruct H as (_ & H & G).
  repeat (apply andb_prop in H; destruct H as [H ?]).
  destruct (Stations.capacity r), (Stations.latitude r),
    (Stations.longitude r); simpl in *; try discriminate; auto.
Qed.

End Stations.

(** C9: every cleaned station has its latitude in [-90, 90], its
    longitude in [-180, 180] and a capacity above 0; the station ids of
    the cleaned table are pairwise distinct; and every cleaned row comes
    from the first row of the raw table that carries its station id. *)
Theorem clean_stations_invariant :
  forall (parse_numeric : string -> option Q) (raw : list Stations.row),
    let cleaned := clean_stations_csv parse_numeric raw in
    (forall r, In r cleaned ->
       exists lat lon cap,
         Stations.latitude r = Num lat /\ (-90 <= lat <= 90)%Q /\
         Stations.longitude r = Num lon /\ (-180 <= lon <= 180)%Q /\
         Stations.capacity r = Num cap /\ (0 < cap)%Q) /\
    NoDupA cell_eq (map Stations.station_id cleaned) /\
    (forall r, In r cleaned ->
       exists pre x post,
         raw = pre ++ x :: post /\
         Stations.station_id r = Stations.station_id x /\
         Stations.station_name r = Stations.station_name x /\
         Stations.capacity r = to_numeric parse_numeric (Stations.capacity x) /\
         Stations.latitude r = to_numeric parse_numeric (Stations.latitude x) /\
         Stations.longitude r
           = to_numeric parse_numeric (Stations.longitude x) /\
         forall y, In y pre ->
           cell_eqb (Stations.station_id y) (Stations.station_id x) = false).
Proof.
  intros pn raw cleaned. split; [|split].
  - intros r H. apply stations_clean_In in H. destruct H as (_ & H & G).
    repeat (apply andb_prop in H; destruct H as [H ?]).
    destruct (Stations.latitude r) as [| |lat|]; try discriminate.
    destruct (Stations.longitude r) as [| |lon|]; try discriminate.
    destruct (Stations.capacity r) as [| |cap|]; try discriminate.
    simpl in *. exists lat, lon, cap.
    repeat match goal with
           | E : Qle_bool _ _ = true |- _ => apply Qle_bool_iff in E
           end.
    apply Qltb_lt in G. auto 10.
  - apply stations_clean_NoDupA.
  - intros r H. unfold cleaned, clean_stations_csv, dropna in H.
    repeat (apply filter_In in H; destruct H as [H _]).
    apply drop_duplicates_from_first in H.
    destruct H as (pre & post & E & Hpre).
    apply map_eq_app in E. destruct E as (pre' & rest & -> & <- & E).
    apply map_eq_cons in E. destruct E as (x & post' & -> & <- & _).
    exists pre', x, post'. simpl. repeat (split; [reflexivity|]).
    intros y Hy. apply (Hpre _ (in_map _ _ _ Hy)).
Qed.

Lemma clean_stations_invariant_witness :
  let cleaned :=
    clean_stations_csv Examples.parse_numeric Examples.stations in
  cleaned = [Examples.station "ST100" "Central Station" 20 48.78 9.18] /\
  (forall r, In r cleaned ->
     exists lat lon cap,
       Stations.latitude r = Num lat /\ (-90 <= lat <= 90)%Q /\
       Stations.longitude r = Num lon /\ (-180 <= lon <= 180)%Q /\
       Stations.capacity r = Num cap /\ (0 < cap)%Q) /\
  NoDupA cell_eq (map Stations.station_id cleaned).
Proof.
  intro cleaned. split; [vm_compute; reflexivity|].
  destruct (clean_stations_invariant Examples.parse_numeric
              Examples.stations) as (H1 & H2 & _).
  split; assumption.
Defined.

(** Cleaning cleaned stations changes nothing. *)
Lemma clean_stations_idempotent (parse_numeric : string -> option Q)
      (raw : list Stations.row) :
  clean_stations_csv parse_numeric (clean_stations_csv parse_numeric raw)
  = clean_stations_csv parse_numeric raw.
Proof.
  set (t := clean_stations_csv parse_numeric raw).
  assert (forall r, In r t -> In r (clean_stations_csv parse_numeric raw))
    as Hin by auto.
  pose proof (stations_clean_NoDupA parse_numeric raw) as ND. fold t in ND.
  unfold clean_stations_csv at 1.
  rewrite (map_fixed _ t).
  2:{ intros r Hr. apply Hin, clean_numeric in Hr.
      destruct Hr as (-> & -> & ->). now destruct r. }
  rewrite drop_duplicates_fixed by exact ND.
  unfold dropna.
  do 3 (rewrite (filter_fixed _ t);
        [|intros r Hr; apply Hin, stations_clean_In in Hr; tauto]).
  reflexivity.
Qed.

End StationsFacts.

(** ** Cleaned maintenance records *)

Module MaintenanceFacts.

Import Frame FrameFacts DataCleaner.

Section Maintenance.

Variable parse_datetime : string -> option Z.
Variable parse_numeric : string -> option Q.
Variable datetime_of_number : Q -> option Z.

Local Abbreviation clean :=
  (clean_maintenance_csv parse_datetime parse_numeric datetime_of_number).

Lemma maintenance_clean_In (raw : list Maintenance.row) (r : Maintenance.row) :
  In r (clean raw) ->
  forallb (fun col => notna (col r))
    [Maintenance.record_id; Maintenance.bike_id; Maintenance.date;
     Maintenance.maintenance_type; Maintenance.cost] = true /\
  isin (Maintenance.maintenance_type r) valid_types = true /\
  ge_num (Maintenance.cost r) 0 = true.
Proof.
  unfold clean_maintenance_csv, dropna. intro H.
  through_filters H. auto.
Qed.

Lemma clean_coerced (raw : list Maintenance.row) (r : Maintenance.row) :
  In r (clean raw) ->
  to_datetime parse_datetime datetime_of_number (Maintenance.date r)
  = Maintenance.date r /\
  to_numeric parse_numeric (Maintenance.cost r) = Maintenance.cost r.
Proof.
  unfold clean_maintenance_csv, dropna. intro H.
  repeat (apply filter_In in H; destruct H as [H _]).
  apply drop_duplicates_from_In in H. destruct H as [H _].
  apply in_map_iff in H. destruct H as (x & <- & _). simpl.
  split; [apply to_datetime_idem | apply to_numeric_idem].
Qed.

Lemma maintenance_clean_NoDupA (raw : list Maintenance.row) :
  NoDupA cell_eq (map Maintenance.record_id (clean raw)).
Proof.
  unfold clean_maintenance_csv, dropna, drop_duplicates.
  do 3 apply NoDupA_filter. apply drop_duplicates_from_NoDupA.
Qed.

(** Cleaning cleaned maintenance records changes nothing. *)
Lemma clean_maintenance_idempotent (raw : list Maintenance.row) :
  clean (clean raw) = clean raw.
Proof.
  set (t := clean raw).
  assert (forall r, In r t -> In r (clean raw)) as Hin by auto.
  pose proof (maintenance_clean_NoDupA raw) as ND. fold t in ND.
  unfold clean_maintenance_csv at 1.
  rewrite (map_fixed _ t).
  2:{ intros r Hr. apply Hin, clean_coerced in Hr.
      destruct Hr as (-> & ->). now destruct r. }
  rewrite drop_duplicates_fixed by exact ND.
  unfold dropna.
  do 3 (rewrite (filter_fixed _ t);
        [|intros r Hr; apply Hin, maintenance_clean_In in Hr; tauto]).
  reflexivity.
Qed.

End Maintenance.

End MaintenanceFacts.

(** ** Cleaned trips *)

Module TripsFacts.

Import Frame FrameFacts DataCleaner.

Lemma fill_durations_map (df : list Trips.row) :
  fill_durations df = map fill_duration df.
Proof.
  unfold fill_durations. destruct (any_na _ df) eqn:E; trivial.
  symmetry. apply map_fixed. intros r Hr. unfold fill_duration.
  destruct (isna (Trips.duration_minutes r)) eqn:F; trivial.
  assert (any_na Trips.duration_minutes df = true) as G.
  { apply existsb_exists. eauto. }
  congruence.
Qed.

Lemma fill_distances_map (df : list Trips.row) :
  fill_distances df
  = map (fill_distance (column_mean Trips.distance_km df)) df.
Proof.
  unfold fill_distances. destruct (any_na _ df) eqn:E; trivial.
  symmetry. apply map_fixed. intros r Hr. unfold fill_distance.
  destruct (isna (Trips.distance_km r)) eqn:F; trivial.
  assert (any_na Trips.distance_km df = true) as G.
  { apply existsb_exists. eauto. }
  congruence.
Qed.

Lemma fill_duration_fields (r : Trips.row) :
  Trips.trip_id (fill_duration r) = Trips.trip_id r /\
  Trips.user_id (fill_duration r) = Trips.user_id r /\
  Trips.bike_id (fill_duration r) = Trips.bike_id r /\
  Trips.start_station_id (fill_duration r) = Trips.start_station_id r /\
  Trips.end_station_id (fill_duration r) = Trips.end_station_id r /\
  Trips.start_time (fill_duration r) = Trips.start_time r /\
  Trips.end_time (fill_duration r) = Trips.end_time r /\
  Trips.distance_km (fill_duration r) = Trips.distance_km r /\
  Trips.status (fill_duration r) = Trips.status r.
Proof.
  unfold fill_duration. destruct (isna _); simpl; auto 10.
Qed.

Lemma fill_distance_fields (m : Py.float) (r : Trips.row) :
  Trips.trip_id (fill_distance m r) = Trips.trip_id r /\
  Trips.user_id (fill_distance m r) = Trips.user_id r /\
  Trips.bike_id (fill_distance m r) = Trips.bike_id r /\
  Trips.start_station_id (fill_distance m r) = Trips.start_station_id r /\
  Trips.end_station_id (fill_distance m r) = Trips.end_station_id r /\
  Trips.start_time (fill_distance m r) = Trips.start_time r /\
  Trips.end_time (fill_distance m r) = Trips.end_time r /\
  Trips.duration_minutes (fill_distance m r) = Trips.duration_minutes r /\
  Trips.status (fill_distance m r) = Trips.status r.
Proof.
  unfold fill_distance. destruct (isna _); simpl; auto 10.
Qed.

Lemma fill_distance_nan (r : Trips.row) : fill_distance Py.nan r = r.
Proof.
  unfold fill_distance. destruct r as [? ? ? ? ? ? ? ? ? ? d ?]. simpl.
  destruct d; reflexivity.
Qed.

Lemma column_mean_nan (df : list Trips.row) :
  column_mean Trips.distance_km df = Py.nan <->
  numbers Trips.distance_km df = [].
Proof.
  unfold column_mean. destruct (numbers _ df); split; intro H;
    trivial; discriminate.
Qed.

Lemma numbers_filter (f : Trips.row -> bool) (df : list Trips.row) :
  numbers Trips.distance_km df = [] ->
  numbers Trips.distance_km (filter f df) = [].
Proof.
  unfold numbers. induction df as [|x df IH]; simpl; trivial.
  intro H. apply app_eq_nil in H. destruct H as [H1 H2].
  destruct (f x); simpl; auto. rewrite H1. simpl. auto.
Qed.

Section Trips.

Variable parse_datetime : string -> option Z.
Variable parse_numeric : string -> option Q.
Variable datetime_of_number : Q -> option Z.

Local Abbreviation clean :=
  (clean_trips_csv parse_datetime parse_numeric datetime_of_number).
Local Abbreviation convert :=
  (convert_row parse_datetime parse_numeric datetime_of_number).
Local Abbreviation to_dt := (to_datetime parse_datetime datetime_of_number).
Local Abbreviation to_num := (to_numeric parse_numeric).

Lemma convert_columns_map (df : list Trips.row) :
  convert_columns parse_datetime parse_numeric datetime_of_number df
  = map convert df.
Proof.
  unfold convert_columns. rewrite !map_map. apply map_ext.
  intros [? ? ? ? ? ? ? ? ? ? ? ?]. reflexivity.
Qed.

Local Abbreviation before :=
  (before_fill parse_datetime parse_numeric datetime_of_number).

Lemma clean_unfold (raw : list Trips.row) :
  clean raw
  = filter (fun r => isin (Trips.status r) valid_statuses
                     || isna (Trips.status r))
      (map (fill_distance (column_mean Trips.distance_km (before raw)))
         (before raw)).
Proof.
  unfold clean_trips_csv, before_fill. now rewrite fill_distances_map.
Qed.

(** Where a row of the frame comes from, and the filters it went
    through. *)
Lemma before_fill_In (raw : list Trips.row) (r : Trips.row) :
  In r (before raw) ->
  exists x,
    In x raw /\ r = fill_duration (convert x) /\
    lt (Trips.end_time (convert x)) (Trips.start_time (convert x)) = false /\
    forallb (fun col => notna (col (convert x)))
      [Trips.trip_id; Trips.user_id; Trips.bike_id;
       Trips.start_station_id; Trips.end_station_id] = true /\
    ge_num (Trips.duration_minutes r) 1 = true.
Proof.
  unfold before_fill, dropna.
  rewrite fill_durations_map, convert_columns_map. intro H.
  apply filter_In in H. destruct H as [H Hge].
  apply filter_In in H. destruct H as [H _].
  apply in_map_iff in H. destruct H as (c & <- & H).
  apply filter_In in H. destruct H as [H Hids].
  apply drop_duplicates_from_In in H. destruct H as [H _].
  apply filter_In in H. destruct H as [H Hlt].
  apply in_map_iff in H. destruct H as (x & <- & H).
  apply negb_true_iff in Hlt. eauto 10.
Qed.

Lemma before_fill_NoDupA (raw : list Trips.row) :
  NoDupA cell_eq (map Trips.trip_id (before raw)).
Proof.
  unfold before_fill, dropna, drop_duplicates.
  rewrite fill_durations_map.
  do 2 apply NoDupA_filter.
  rewrite map_map.
  rewrite (map_ext _ Trips.trip_id)
    by (intro r; apply fill_duration_fields).
  apply NoDupA_filter. apply drop_duplicates_from_NoDupA.
Qed.

Lemma trips_clean_NoDupA (raw : list Trips.row) :
  NoDupA cell_eq (map Trips.trip_id (clean raw)).
Proof.
  rewrite clean_unfold. apply NoDupA_filter.
  rewrite map_map.
  rewrite (map_ext _ Trips.trip_id)
    by (intro r; apply fill_distance_fields).
  apply before_fill_NoDupA.
Qed.

(** What holds of every row of the cleaned frame. *)
Lemma trips_clean_In (raw : list Trips.row) (r : Trips.row) :
  In r (clean raw) ->
  exists x m,
    In x raw /\ r = fill_distance m (fill_duration (convert x)) /\
    Trips.start_time r = to_dt (Trips.start_time x) /\
    Trips.end_time r = to_dt (Trips.end_time x) /\
    lt (Trips.end_time r) (Trips.start_time r) = false /\
    forallb (fun col => notna (col r))
      [Trips.trip_id; Trips.user_id; Trips.bike_id;
       Trips.start_station_id; Trips.end_station_id] = true /\
    ge_num (Trips.duration_minutes r) 1 = true /\
    Trips.duration_minutes r
      = Trips.duration_minutes (fill_duration (convert x)) /\
    to_num (Trips.distance_km r) = Trips.distance_km r /\
    isin (Trips.status r) valid_statuses || isna (Trips.status r) = true.
Proof.
  rewrite clean_unfold. intro H.
  apply filter_In in H. destruct H as [H Hst].
  apply in_map_iff in H. destruct H as (b & <- & H).
  apply before_fill_In in H.
  destruct H as (x & Hx & -> & Hlt & Hids & Hge).
  set (m := column_mean _ _) in *. exists x, m.
  pose proof (fill_distance_fields m (fill_duration (convert x)))
    as (E1 & E2 & E3 & E4 & E5 & E6 & E7 & E8 & E9).
  pose proof (fill_duration_fields (convert x))
    as (F1 & F2 & F3 & F4 & F5 & F6 & F7 & F8 & F9).
  repeat split; trivial.
  - now rewrite E6, F6.
  - now rewrite E7, F7.
  - now rewrite E6, E7, F6, F7.
  - simpl. rewrite E1, E2, E3, E4, E5, F1, F2, F3, F4, F5. exact Hids.
  - now rewrite E8.
  - unfold fill_distance.
    destruct (isna (Trips.distance_km (fill_duration (convert x)))) eqn:N.
    + simpl. now destruct m.
    + rewrite F8. simpl. apply to_numeric_idem.
Qed.

Lemma clean_distances (raw : list Trips.row) :
  any_na Trips.distance_km (clean raw) = false \/
  numbers Trips.distance_km (clean raw) = [].
Proof.
  rewrite clean_unfold.
  destruct (column_mean Trips.distance_km (before raw)) as [q|] eqn:M.
  - left. unfold any_na.
    match goal with |- existsb ?f ?l = false =>
      destruct (existsb f l) eqn:E; trivial end.
    apply existsb_exists in E. destruct E as (r & Hr & Hna).
    apply filter_In in Hr. destruct Hr as [Hr _].
    apply in_map_iff in Hr. destruct Hr as (b & <- & _).
    unfold fill_distance in Hna.
    destruct (isna (Trips.distance_km b)) eqn:N; simpl in Hna; congruence.
  - right. apply numbers_filter.
    rewrite map_fixed by (intros; apply fill_distance_nan).
    now apply column_mean_nan.
Qed.

Lemma clean_row_fixed (raw : list Trips.row) (r : Trips.row) :
  In r (clean raw) ->
  convert r = r /\ fill_duration r = r /\
  forallb (fun col => notna (col r)) [Trips.duration_minutes] = true.
Proof.
  intro H. apply trips_clean_In in H.
  destruct H as (x & m & _ & _ & Es & Ee & _ & _ & Hge & _ & Hd & _).
  assert (exists d, Trips.duration_minutes r = Num d) as [d Ed].
  { destruct (Trips.duration_minutes r); try discriminate. eauto. }
  split; [|split].
  - unfold convert_row. rewrite Hd, Ed. simpl.
    rewrite Es, Ee, !to_datetime_idem. rewrite <- Es, <- Ee, <- Ed.
    now destruct r.
  - unfold fill_duration. now rewrite Ed.
  - simpl. now rewrite Ed.
Qed.

(** Cleaning cleaned trips changes nothing. *)
Lemma clean_trips_idempotent (raw : list Trips.row) :
  clean (clean raw) = clean raw.
Proof.
  set (t := clean raw).
  assert (forall r, In r t -> In r (clean raw)) as Hin by auto.
  pose proof (trips_clean_NoDupA raw) as ND. fold t in ND.
  pose proof (clean_distances raw) as HD. fold t in HD.
  unfold clean_trips_csv at 1.
  rewrite convert_columns_map.
  rewrite (map_fixed _ t)
    by (intros r Hr; now apply Hin, clean_row_fixed in Hr).
  rewrite (filter_fixed _ t).
  2:{ intros r Hr. apply Hin, trips_clean_In in Hr.
      destruct Hr as (x & m & _ & _ & _ & _ & -> & _). reflexivity. }
  rewrite drop_duplicates_fixed by exact ND.
  unfold dropna at 2. rewrite (filter_fixed _ t).
  2:{ intros r Hr. apply Hin, trips_clean_In in Hr.
      destruct Hr as (x & m & _ & _ & _ & _ & _ & H & _). exact H. }
  rewrite fill_durations_map.
  rewrite (map_fixed _ t)
    by (intros r Hr; now apply Hin, clean_row_fixed in Hr).
  unfold dropna. rewrite (filter_fixed _ t)
    by (intros r Hr; now apply Hin, clean_row_fixed in Hr).
  rewrite (filter_fixed _ t).
  2:{ intros r Hr. apply Hin, trips_clean_In in Hr.
      destruct Hr as (x & m & _ & _ & _ & _ & _ & _ & H & _). exact H. }
  assert (fill_distances t = t) as ->.
  { unfold fill_distances. destruct (any_na Trips.distance_km t) eqn:A;
      trivial.
    destruct HD as [HD|HD]; [discriminate|].
    apply column_mean_nan in HD. rewrite HD.
    apply map_fixed. intros. apply fill_distance_nan. }
  apply filter_fixed. intros r Hr. apply Hin, trips_clean_In in Hr.
  destruct Hr as (x & m & H). tauto.
Qed.

End Trips.

(** C2, as the code has it: every cleaned trip lasts at least one minute
    and does not end before it starts; its two timestamps are parsed or
    missing, and when both are parsed the end is not earlier than the
    start (it may be the same instant). *)
Theorem clean_trips_invariant :
  forall (parse_datetime : string -> option Z)
         (parse_numeric : string -> option Q)
         (datetime_of_number : Q -> option Z)
         (raw : list Trips.row) (r : Trips.row),
    In r (clean_trips_csv parse_datetime parse_numeric datetime_of_number
            raw) ->
    (exists d, Trips.duration_minutes r = Num d /\ (1 <= d)%Q) /\
    lt (Trips.end_time r) (Trips.start_time r) = false /\
    (forall s e, Trips.start_time r = Stamp s -> Trips.end_time r = Stamp e ->
                 (s <= e)%Z).
Proof.
  intros pd pn dn raw r H. apply trips_clean_In in H.
  destruct H as (x & m & _ & _ & _ & _ & Hlt & _ & Hge & _).
  split; [|split; [exact Hlt|]].
  - destruct (Trips.duration_minutes r) as [| |d|]; try discriminate.
    exists d. split; trivial. now apply Qle_bool_iff.
  - intros s e Es Ee. rewrite Es, Ee in Hlt. simpl in Hlt.
    apply Z.ltb_ge in Hlt. exact Hlt.
Qed.

Lemma clean_trips_invariant_witness :
  let r := Trips.set_end_time (Stamp 1704105000000000000)
             (Trips.set_start_time (Stamp 1704103200000000000)
                Examples.trip_ok) in
  In r (Examples.clean_trips_csv [Examples.trip_ok]) /\
  ((exists d, Trips.duration_minutes r = Num d /\ (1 <= d)%Q) /\
   lt (Trips.end_time r) (Trips.start_time r) = false /\
   (forall s e, Trips.start_time r = Stamp s -> Trips.end_time r = Stamp e ->
                (s <= e)%Z)).
Proof.
  intro r.
  assert (In r (Examples.clean_trips_csv [Examples.trip_ok])) as H.
  { vm_compute. left. reflexivity. }
  split; [exact H|].
  exact (clean_trips_invariant _ _ _ _ _ H).
Defined.

(** A cleaned trip may end at the instant it starts: [end_time >
    start_time] fails for it. *)
Lemma clean_trips_keeps_equal_times :
  ~ (forall r, In r (Examples.clean_trips_csv [Examples.trip_same_instant]) ->
               lt (Trips.start_time r) (Trips.end_time r) = true).
Proof.
  intro H.
  specialize (H (Trips.set_end_time (Stamp 1704103200000000000)
                   (Trips.set_start_time (Stamp 1704103200000000000)
                      Examples.trip_same_instant))).
  assert (false = true) as F; [|discriminate F].
  apply H. vm_compute. left. reflexivity.
Qed.




(** The scenario of the specification: of three trips, one of them
    ending before it starts, two are left. *)
Example clean_trips_drops_reversed :
  length (Examples.clean_trips_csv
            [Examples.trip_ok; Examples.trip_reversed;
             Examples.trip_same_instant]) = 2.
Proof. vm_compute. reflexivity. Qed.

(** C4: each of the three cleaning functions returns its own output
    unchanged. *)
Theorem cleaning_idempotent :
  forall (parse_datetime : string -> option Z)
         (parse_numeric : string -> option Q)
         (datetime_of_number : Q -> option Z),
    (forall raw,
       let clean :=
         clean_trips_csv parse_datetime parse_numeric datetime_of_number in
       clean (clean raw) = clean raw) /\
    (forall raw,
       let clean := clean_stations_csv parse_numeric in
       clean (clean raw) = clean raw) /\
    (forall raw,
       let clean :=
         clean_maintenance_csv parse_datetime parse_numeric
           datetime_of_number in
       clean (clean raw) = clean raw).
Proof.
  intros pd pn dn. split; [|split]; intro raw; simpl.
  - apply clean_trips_idempotent.
  - apply StationsFacts.clean_stations_idempotent.
  - apply MaintenanceFacts.clean_maintenance_idempotent.
Qed.

End TripsFacts.
(** ** Percentiles and outliers *)

Module NumericalFacts.

Import Py Numerical.

Lemma insert_perm (x : Q) (l : list Q) : Permutation (x :: l) (insert x l).
Proof.
  induction l as [|y l IH]; simpl.
  - apply Permutation_refl.
  - destruct (Qle_bool x y).
    + apply Permutation_refl.
    + eapply perm_trans; [apply perm_swap|]. now apply perm_skip.
Qed.

Lemma sort_perm (l : list Q) : Permutation l (sort l).
Proof.
  induction l as [|x l IH]; simpl.
  - apply perm_nil.
  - eapply perm_trans; [apply perm_skip, IH | apply insert_perm].
Qed.

Lemma insert_sorted (x : Q) (l : list Q) :
  Sorted Qle l -> Sorted Qle (insert x l).
Proof.
  induction l as [|y l IH]; simpl; intro S.
  - repeat constructor.
  - destruct (Qle_bool x y) eqn:E.
    + constructor; trivial. constructor. now apply Qle_bool_iff.
    + assert (y <= x)%Q as L.
      { apply Qlt_le_weak, Qltb_lt. unfold Qltb. now rewrite E. }
      inversion S as [|? ? S' Hd]; subst.
      constructor; [now apply IH|].
      destruct l as [|z l]; simpl.
      * now constructor.
      * destruct (Qle_bool x z); constructor; trivial.
        now inversion Hd.
Qed.

Lemma sort_sorted (l : list Q) : Sorted Qle (sort l).
Proof.
  induction l as [|x l IH]; simpl.
  - constructor.
  - now apply insert_sorted.
Qed.

Lemma sorted_nth_le (s : list Q) (i j : nat) :
  Sorted Qle s -> i <= j -> j < length s ->
  (nth i s 0 <= nth j s 0)%Q.
Proof.
  intro S. apply Sorted_StronglySorted in S.
  2:{ intros x y z. apply Qle_trans. }
  revert i j. induction S as [|x r S IH Hall]; simpl; intros i j Hij Hj.
  - lia.
  - destruct i as [|i], j as [|j]; try lia.
    + apply Qle_refl.
    + rewrite Forall_forall in Hall. apply Hall, nth_In. lia.
    + apply IH; lia.
Qed.

(** The percentile lies between the two order statistics around its
    virtual index. *)
Lemma interpolate_between (s : list Q) (p : Q) :
  Sorted Qle s -> s <> [] -> (0 <= p)%Q -> (p <= 100)%Q ->
  (nth (previous_index (length s) p) s 0 <= interpolate s p)%Q /\
  (interpolate s p <= nth (next_index (length s) p) s 0)%Q.
Proof.
  intros S Hne Hp0 Hp1. unfold interpolate.
  set (n := length s).
  assert (0 < n) as Hn by (unfold n; destruct s; simpl; [congruence|lia]).
  set (h := virtual_index n p).
  assert (0 <= h /\ h <= inject_Z (Z.of_nat n - 1))%Q as [Hh0 Hh1].
  { unfold h, virtual_index, Qdiv. change (/ 100)%Q with (1 # 100)%Q.
    assert (0 <= inject_Z (Z.of_nat n - 1))%Q as Hm.
    { change 0%Q with (inject_Z 0). rewrite <- Zle_Qle. lia. }
    revert Hm. generalize (inject_Z (Z.of_nat n - 1)). intros m Hm.
    split; nra. }
  assert (0 <= Qfloor h <= Z.of_nat n - 1)%Z as [Hf0 Hf1].
  { split.
    - rewrite <- (Qfloor_Z 0). now apply Qfloor_resp_le.
    - rewrite <- (Qfloor_Z (Z.of_nat n - 1)). now apply Qfloor_resp_le. }
  pose proof (Qfloor_le h) as Hg0. pose proof (Qlt_floor h) as Hg1.
  rewrite inject_Z_plus in Hg1. change (inject_Z 1) with 1%Q in Hg1.
  assert (nth (previous_index n p) s 0 <= nth (next_index n p) s 0)%Q
    as Hle.
  { apply sorted_nth_le; trivial; unfold previous_index, next_index;
      fold h; fold n; lia. }
  revert Hle Hg0 Hg1.
  generalize (nth (previous_index n p) s 0%Q).
  generalize (nth (next_index n p) s 0%Q).
  generalize (inject_Z (Qfloor h)).
  intros f b a Hle Hg0 Hg1. split; nra.
Qed.

Lemma percentile_nonempty (a : list Q) (p : Q) :
  a <> [] -> percentile a p = Ok (interpolate (sort a) p).
Proof. destruct a; [congruence|reflexivity]. Qed.

Lemma nth_map_true (A : Type) (f : A -> bool) (l : list A) (i : nat) :
  nth i (map f l) false = true <->
  exists x, nth_error l i = Some x /\ f x = true.
Proof.
  revert i. induction l as [|y l IH]; intros [|i]; simpl.
  - split; [discriminate|]. intros (x & H & _). discriminate.
  - split; [discriminate|]. intros (x & H & _). discriminate.
  - split.
    + intro H. eauto.
    + intros (x & [= <-] & H). exact H.
  - apply IH.
Qed.

Lemma outside_iff (x : float) (lo hi : Q) :
  float_lt x lo || float_gt x hi = true <->
  exists v, x = Some v /\ (v < lo \/ hi < v)%Q.
Proof.
  destruct x as [v|]; simpl.
  - rewrite orb_true_iff, !Qltb_lt. split.
    + intro H. eauto.
    + intros (w & [= <-] & H). exact H.
  - split; [discriminate|]. intros (v & H & _). discriminate.
Qed.




(** C6: what [compute_statistics] returns on an array without a number.
    The count is 0 and the seven statistics the empty branch lists are
    NaN, but the key "q90", which the other branch sets, is missing. *)
Theorem compute_statistics_empty :
  forall sqrt : Q -> Q,
    (exists d,
       compute_statistics sqrt [] = Ok d /\
       getitem d "count" = Ok (Count 0) /\
       (forall k, In k ["mean"; "median"; "std"; "min"; "max"; "q25";
                        "q75"]%string ->
                  getitem d k = Ok (Float nan)) /\
       getitem d "q90" = Raise KeyError) /\
    (forall x data,
       exists d p,
         compute_statistics sqrt (Some x :: data) = Ok d /\
         getitem d "q90" = Ok (Float (Some p))).
Proof.
  intro sqrt. split.
  - eexists. split; [reflexivity|]. split; [reflexivity|]. split.
    + intros k Hk. simpl in Hk.
      repeat (destruct Hk as [<-|Hk]; [reflexivity|]). contradiction.
    + reflexivity.
  - intros x data. unfold compute_statistics.
    assert (drop_nan (Some x :: data) <> []) as Hne by discriminate.
    rewrite !percentile_nonempty by exact Hne.
    destruct (drop_nan (Some x :: data)) eqn:E; [congruence|].
    simpl. eexists _, _. split; reflexivity.
Qed.

End NumericalFacts.

(** ** The queries *)

Module QueryFacts.

Import Py Frame FrameFacts BikeShareSystem.

(** *** Rounding *)



(** *** Q14 *)

Lemma drop_nan_numbers (col : Trips.row -> cell) (df : list Trips.row) :
  Numerical.drop_nan (map (fun r => to_float (col r)) df) = numbers col df.
Proof.
  unfold Numerical.drop_nan, numbers.
  induction df as [|r df IH]; simpl; trivial.
  rewrite IH. now destruct (col r).
Qed.

Lemma select_masks (f g : Trips.row -> bool) (df : list Trips.row) :
  select (mask_or (map f df) (map g df)) df
  = filter (fun r => f r || g r) df.
Proof.
  unfold select, mask_or.
  induction df as [|r df IH]; simpl; trivial.
  destruct (f r || g r); simpl; now rewrite IH.
Qed.

Lemma iqr_outliers_Ok (col : Trips.row -> cell) (df : list Trips.row) :
  numbers col df <> [] ->
  exists b,
    Numerical.iqr_outliers (map (fun r => to_float (col r)) df)
      Numerical.default_iqr_multiplier
    = Ok (map (fun r => outside b (col r)) df, b).
Proof.
  intro H. unfold Numerical.iqr_outliers.
  rewrite drop_nan_numbers.
  rewrite !NumericalFacts.percentile_nonempty by exact H.
  cbv beta iota zeta delta [bind].
  eexists. f_equal. f_equal. rewrite map_map. apply map_ext.
  intro r. now destruct (col r).
Qed.

(** When the duration column and the distance column each hold at least
    one number, the query flags exactly the trips whose duration lies
    strictly outside the IQR bounds of the durations or whose distance
    lies strictly outside those of the distances, counts all of them, and
    lists the first 20 in the order of the table. *)
Lemma q14_outlier_trips_spec :
  forall trips : list Trips.row,
    numbers Trips.duration_minutes trips <> [] ->
    numbers Trips.distance_km trips <> [] ->
    exists mask_d bounds_d mask_k bounds_k,
      Numerical.iqr_outliers
        (map (fun r => to_float (Trips.duration_minutes r)) trips)
        Numerical.default_iqr_multiplier = Ok (mask_d, bounds_d) /\
      Numerical.iqr_outliers
        (map (fun r => to_float (Trips.distance_km r)) trips)
        Numerical.default_iqr_multiplier = Ok (mask_k, bounds_k) /\
      let flagged :=
        filter (fun r => outside bounds_d (Trips.duration_minutes r)
                         || outside bounds_k (Trips.distance_km r)) trips in
      q14_outlier_trips trips
      = Ok {| total_outliers := length flagged;
              outliers := firstn 20 (map outlier_of flagged) |} /\
      flagged = select (mask_or mask_d mask_k) trips /\
      (forall r, In r flagged <->
                 In r trips /\
                 (outside bounds_d (Trips.duration_minutes r) = true \/
                  outside bounds_k (Trips.distance_km r) = true)) /\
      length (firstn 20 (map outlier_of flagged))
      = Nat.min 20 (length flagged).
Proof.
  intros trips Hd Hk.
  destruct (iqr_outliers_Ok Trips.duration_minutes trips Hd) as (bd & Ed).
  destruct (iqr_outliers_Ok Trips.distance_km trips Hk) as (bk & Ek).
  unfold q14_outlier_trips. rewrite Ed, Ek.
  eexists _, bd, _, bk. split; [reflexivity|]. split; [reflexivity|].
  cbv beta iota zeta delta [bind fst].
  rewrite select_masks, length_map. split; [reflexivity|].
  split; [reflexivity|]. split.
  - intro r. rewrite filter_In, orb_true_iff. reflexivity.
  - now rewrite length_firstn, length_map.
Qed.

Example q14_outlier_trips_two_trips :
  let trips := Examples.clean_trips_csv
                 [Examples.trip_ok; Examples.trip_same_instant] in
  exists report,
    q14_outlier_trips trips = Ok report /\
    length (outliers report) = Nat.min 20 (total_outliers report).
Proof.
  intro trips.
  assert (numbers Trips.duration_minutes trips <> []) as Hd.
  { vm_compute. discriminate. }
  assert (numbers Trips.distance_km trips <> []) as Hk.
  { vm_compute. discriminate. }
  destruct (q14_outlier_trips_spec trips Hd Hk)
    as (md & bd & mk & bk & _ & _ & E & _ & _ & L).
  eexists. split; [exact E|]. exact L.
Qed.

(** C8: where the query fails.  On the empty table, which is what
    cleaning the empty table returns, and on a cleaned table without a
    single distance, the percentile of an empty array is asked for and
    the query raises instead of reporting its outliers. *)
Theorem q14_outlier_trips_raises :
  Examples.clean_trips_csv [] = [] /\
  q14_outlier_trips [] = Raise IndexError /\
  let trips :=
    Examples.clean_trips_csv
      [Trips.set_distance_km NA Examples.trip_ok] in
  length trips = 1 /\
  map Trips.distance_km trips = [NA] /\
  q14_outlier_trips trips = Raise IndexError.
Proof.
  repeat split.
Qed.

(** C5: what the queries return on the empty table.  Q4 and Q11 guard
    the empty case and return zeros; Q1 returns NaN as the average
    duration, Q6 returns NaN as the number of days, and Q14 raises. *)
Theorem empty_table_results :
  Examples.clean_trips_csv [] = [] /\
  q4_peak_day [] = {| peak_date := None; peak_day := None; trips := 0 |} /\
  (completion_rate_percentage (q11_trip_completion_rate []) == 0)%Q /\
  (utilization_percentage (q6_bike_utilization []) == 0)%Q /\
  total_trips (q1_trip_summary []) = 0 /\
  average_duration_minutes (q1_trip_summary []) = nan /\
  date_range_days (q6_bike_utilization []) = None /\
  q14_outlier_trips [] = Raise IndexError.
Proof.
  repeat split.
Qed.


(** *** Q6 *)













(** *** Q4 *)

Lemma bump_count (k k' : Z) (groups : list (Z * nat)) :
  group_count (bump k groups) k'
  = (if (k =? k')%Z then 1 else 0) + group_count groups k'.
Proof.
  induction groups as [|[j n] rest IH]; simpl.
  - lia.
  - destruct (k <? j)%Z eqn:A; simpl; [reflexivity|].
    destruct (k =? j)%Z eqn:B; simpl.
    + apply Z.eqb_eq in B. subst j.
      destruct (k =? k')%Z; lia.
    + rewrite IH. lia.
Qed.

Lemma groupby_count (keys : list Z) (groups : list (Z * nat)) (k : Z) :
  group_count (fold_left (fun g j => bump j g) keys groups) k
  = count_occ Z.eq_dec keys k + group_count groups k.
Proof.
  revert groups. induction keys as [|j keys IH]; simpl; intro groups.
  - reflexivity.
  - rewrite IH, bump_count.
    destruct (Z.eq_dec j k) as [->|N].
    + rewrite Z.eqb_refl. lia.
    + apply Z.eqb_neq in N. rewrite N. lia.
Qed.

Lemma bump_above (a : Z * nat) (k : Z) (groups : list (Z * nat)) :
  (fst a < k)%Z -> Forall (key_lt a) groups ->
  Forall (key_lt a) (bump k groups).
Proof.
  intros Hk. induction groups as [|[j n] rest IH]; simpl; intro H.
  - repeat constructor. exact Hk.
  - inversion H as [|? ? Hj Hrest]; subst.
    destruct (k <? j)%Z; [constructor; [exact Hk|exact H]|].
    destruct (k =? j)%Z; constructor; auto.
Qed.

Lemma bump_sorted (k : Z) (groups : list (Z * nat)) :
  StronglySorted key_lt groups -> StronglySorted key_lt (bump k groups).
Proof.
  induction groups as [|[j n] rest IH]; simpl; intro S.
  - repeat constructor.
  - inversion S as [|? ? Srest Hall]; subst.
    destruct (k <? j)%Z eqn:A.
    + apply Z.ltb_lt in A. constructor; trivial.
      constructor; [exact A|].
      eapply Forall_impl; [|exact Hall].
      intros b Hb. unfold key_lt in *. simpl in *. lia.
    + destruct (k =? j)%Z eqn:B.
      * constructor; trivial.
      * apply Z.ltb_ge in A. apply Z.eqb_neq in B.
        constructor; [now apply IH|].
        apply bump_above; trivial. simpl. lia.
Qed.

Lemma bump_positive (k : Z) (groups : list (Z * nat)) :
  Forall (fun g => 0 < snd g) groups ->
  Forall (fun g => 0 < snd g) (bump k groups).
Proof.
  induction groups as [|[j n] rest IH]; simpl; intro H.
  - repeat constructor.
  - inversion H; subst.
    destruct (k <? j)%Z; [constructor; simpl; [lia|exact H]|].
    destruct (k =? j)%Z; constructor; simpl; auto; lia.
Qed.

Lemma groupby_size_sorted (keys : list Z) :
  StronglySorted key_lt (groupby_size keys) /\
  Forall (fun g => 0 < snd g) (groupby_size keys).
Proof.
  unfold groupby_size.
  assert (forall groups,
             StronglySorted key_lt groups ->
             Forall (fun g => 0 < snd g) groups ->
             StronglySorted key_lt
               (fold_left (fun g j => bump j g) keys groups) /\
             Forall (fun g => 0 < snd g)
               (fold_left (fun g j => bump j g) keys groups)) as H.
  { induction keys as [|j keys IH]; simpl; intros groups S P; auto.
    apply IH; [now apply bump_sorted | now apply bump_positive]. }
  apply H; constructor.
Qed.

Lemma group_count_above (k : Z) (groups : list (Z * nat)) :
  Forall (fun g => (k < fst g)%Z) groups -> group_count groups k = 0.
Proof.
  induction groups as [|[j n] rest IH]; simpl; intro H; trivial.
  inversion H; subst. simpl in *.
  assert ((j =? k)%Z = false) as -> by (apply Z.eqb_neq; lia).
  now rewrite IH.
Qed.

Lemma group_count_In (groups : list (Z * nat)) (k : Z) (n : nat) :
  StronglySorted key_lt groups -> In (k, n) groups ->
  group_count groups k = n.
Proof.
  induction groups as [|[j m] rest IH]; simpl; intros S H; [contradiction|].
  inversion S as [|? ? Srest Hall]; subst.
  destruct H as [[= -> ->]|H].
  - rewrite Z.eqb_refl. rewrite group_count_above; [lia|].
    exact Hall.
  - assert ((j =? k)%Z = false) as ->.
    { apply Z.eqb_neq. rewrite Forall_forall in Hall.
      specialize (Hall _ H). unfold key_lt in Hall. simpl in Hall. lia. }
    now apply IH.
Qed.

Lemma group_count_pos (groups : list (Z * nat)) (k : Z) :
  0 < group_count groups k -> exists n, In (k, n) groups.
Proof.
  induction groups as [|[j m] rest IH]; simpl; intro H; [lia|].
  destruct (j =? k)%Z eqn:E.
  - apply Z.eqb_eq in E. subst j. eauto.
  - destruct (IH H) as (n & Hn). eauto.
Qed.

(** The first maximum of groups in ascending order of their keys. *)
Lemma idxmax_from_spec (rest : list (Z * nat)) (best : Z * nat) :
  StronglySorted key_lt (best :: rest) ->
  exists c,
    In (idxmax_from best rest, c) (best :: rest) /\
    forall g, In g (best :: rest) ->
      snd g <= c /\ (snd g = c -> (idxmax_from best rest <= fst g)%Z).
Proof.
  revert best. induction rest as [|g rest IH]; intros best S.
  - exists (snd best). simpl. split.
    + left. now destruct best.
    + intros h [<-|[]]. split; lia.
  - inversion S as [|? ? Stail Hall]; subst.
    inversion Stail as [|? ? Srest Hg]; subst.
    inversion Hall as [|? ? Hbg Hbrest]; subst.
    simpl. destruct (snd best <? snd g) eqn:A.
    + apply Nat.ltb_lt in A.
      destruct (IH g Stail) as (c & Hin & Hmax). exists c. split.
      * now right.
      * intros h [<-|Hh]; [|now apply Hmax].
        destruct (Hmax g (or_introl eq_refl)) as [Hle _]. split; lia.
    + apply Nat.ltb_ge in A.
      assert (StronglySorted key_lt (best :: rest)) as S'
        by (constructor; trivial).
      destruct (IH best S') as (c & Hin & Hmax). exists c. split.
      * destruct Hin as [Hin|Hin]; [now left | now right; right].
      * intros h [<-|[<-|Hh]].
        -- apply Hmax. now left.
        -- destruct (Hmax best (or_introl eq_refl)) as [Hle Hfirst].
           split; [lia|]. intro E.
           assert (snd best = c) as Eb by lia.
           specialize (Hfirst Eb). unfold key_lt in Hbg. lia.
        -- apply Hmax. now right.
Qed.

Lemma fold_max_nat (l : list nat) (a : nat) :
  a <= fold_left Nat.max l a /\
  (forall n, In n l -> n <= fold_left Nat.max l a) /\
  (fold_left Nat.max l a = a \/ In (fold_left Nat.max l a) l).
Proof.
  revert a. induction l as [|m l IH]; simpl; intro a.
  - repeat split; auto. intros n [].
  - destruct (IH (Nat.max a m)) as (H1 & H2 & H3). repeat split.
    + lia.
    + intros n [->|Hn]; [lia|auto].
    + destruct H3 as [H3|H3]; [|now right; right].
      rewrite H3. destruct (Nat.max_spec a m) as [[_ ->]|[_ ->]]; auto.
Qed.

Lemma max_count_is (groups : list (Z * nat)) (d : Z) (c : nat) :
  In (d, c) groups -> (forall g, In g groups -> snd g <= c) ->
  max_count groups = c.
Proof.
  intros Hin Hmax. unfold max_count.
  destruct (fold_max_nat (map snd groups) 0) as (_ & H2 & H3).
  apply Nat.le_antisymm.
  - destruct H3 as [->|H3]; [lia|].
    apply in_map_iff in H3. destruct H3 as (g & <- & Hg). auto.
  - apply H2. apply in_map_iff. exists (d, c). auto.
Qed.

(** The result of Q4 in terms of the number of trips per date. *)
Lemma q4_peak_day_char (df : list Trips.row) :
  match peak_date (q4_peak_day df) with
  | None =>
      stamps Trips.start_time df = [] /\
      peak_day (q4_peak_day df) = None /\
      BikeShareSystem.trips (q4_peak_day df) = 0
  | Some d =>
      peak_day (q4_peak_day df) = Some (day_name d) /\
      BikeShareSystem.trips (q4_peak_day df) = trips_on df d /\
      0 < trips_on df d /\
      forall d', trips_on df d' <= trips_on df d /\
                 (trips_on df d' = trips_on df d -> (d <= d')%Z)
  end.
Proof.
  unfold q4_peak_day, trips_on.
  set (dates := map date_of (stamps Trips.start_time df)).
  assert (forall k, group_count (groupby_size dates) k
                    = count_occ Z.eq_dec dates k) as Hcount.
  { intro k. unfold groupby_size. rewrite groupby_count. simpl. lia. }
  destruct (groupby_size_sorted dates) as [S P].
  destruct (groupby_size dates) as [|first rest] eqn:G; simpl.
  - split; [|split; reflexivity].
    assert (dates = []) as E.
    { apply (count_occ_inv_nil Z.eq_dec). intro k.
      now rewrite <- Hcount. }
    unfold dates in E. now apply map_eq_nil in E.
  - destruct (idxmax_from_spec S) as (c & Hin & Hmax).
    set (d := idxmax_from first rest) in *.
    assert (group_count (first :: rest) d = c) as Ec
      by now apply group_count_In.
    assert (max_count (first :: rest) = c) as Em.
    { apply (max_count_is _ _ Hin). intros g Hg. now apply Hmax. }
    rewrite Forall_forall in P.
    rewrite <- !Hcount. rewrite Ec.
    split; [reflexivity|]. split; [exact Em|].
    split; [apply (P _ Hin)|].
    intro d'. rewrite <- (Hcount d').
    destruct (Nat.eq_dec (group_count (first :: rest) d') 0) as [Z0|NZ].
    + rewrite Z0. pose proof (P _ Hin) as Hp. simpl in Hp. split; lia.
    + destruct (group_count_pos (first :: rest) d') as (n & Hn); [lia|].
      rewrite (@group_count_In _ d' n S Hn).
      destruct (Hmax _ Hn) as [Hle Hfirst]. simpl in *. auto.
Qed.

Lemma trips_on_perm (df df' : list Trips.row) (d : Z) :
  Permutation df df' -> trips_on df d = trips_on df' d.
Proof.
  intro H. unfold trips_on.
  apply (Permutation_count_occ Z.eq_dec).
  apply Permutation_map. unfold stamps. now apply Permutation_flat_map.
Qed.

(** C10: the peak day is a date with the largest number of trips and,
    among the dates with that number, the earliest; it is returned with
    its day name and its number of trips, and nothing is returned when no
    trip has a start time.  The result depends on the rows only, not on
    their order. *)
Theorem q4_peak_day_earliest :
  forall df : list Trips.row,
    match peak_date (q4_peak_day df) with
    | None =>
        stamps Trips.start_time df = [] /\
        peak_day (q4_peak_day df) = None /\
        BikeShareSystem.trips (q4_peak_day df) = 0
    | Some d =>
        peak_day (q4_peak_day df) = Some (day_name d) /\
        BikeShareSystem.trips (q4_peak_day df) = trips_on df d /\
        0 < trips_on df d /\
        forall d', trips_on df d' <= trips_on df d /\
                   (trips_on df d' = trips_on df d -> (d <= d')%Z)
    end /\
    forall df', Permutation df df' -> q4_peak_day df' = q4_peak_day df.
Proof.
  intro df. split; [apply q4_peak_day_char|].
  intros df' Hperm.
  pose proof (q4_peak_day_char df) as H.
  pose proof (q4_peak_day_char df') as H'.
  assert (forall d, trips_on df d = trips_on df' d) as E
    by (intro d; now apply trips_on_perm).
  destruct (q4_peak_day df) as [[d|] day n];
    destruct (q4_peak_day df') as [[d'|] day' n']; simpl in *.
  - destruct H as (-> & -> & _ & H). destruct H' as (-> & -> & _ & H').
    assert (d = d') as <-.
    { destruct (H d') as [A1 A2]. destruct (H' d) as [B1 B2].
      rewrite <- !E in B1, B2.
      assert (trips_on df d' = trips_on df d) as Eq by lia.
      specialize (A2 Eq). symmetry in Eq. specialize (B2 Eq). lia. }
    now rewrite E.
  - exfalso. destruct H as (_ & _ & Hpos & _). destruct H' as (Hnil & _).
    rewrite E in Hpos. unfold trips_on in Hpos. rewrite Hnil in Hpos.
    simpl in Hpos. lia.
  - exfalso. destruct H' as (_ & _ & Hpos & _). destruct H as (Hnil & _).
    rewrite <- E in Hpos. unfold trips_on in Hpos. rewrite Hnil in Hpos.
    simpl in Hpos. lia.
  - destruct H as (_ & -> & ->). destruct H' as (_ & -> & ->).
    reflexivity.
Qed.

Lemma q4_peak_day_earliest_witness :
  let df := Examples.clean_trips_csv
              [Examples.trip_next_day; Examples.trip_ok] in
  Permutation df (rev df) /\
  q4_peak_day (rev df) = q4_peak_day df /\
  peak_date (q4_peak_day df) = Some 19723%Z.
Proof.
  intro df.
  assert (Permutation df (rev df)) as H by apply Permutation_rev.
  split; [exact H|]. split.
  - exact (proj2 (q4_peak_day_earliest df) (rev df) H).
  - vm_compute. reflexivity.
Defined.

(** Two dates with one trip each: the earlier one is the peak day, also
    when its trip comes later in the table.  2024-01-01, day 19723 since
    1970-01-01, was a Monday. *)
Example q4_peak_day_tie :
  q4_peak_day
    (Examples.clean_trips_csv [Examples.trip_next_day; Examples.trip_ok])
  = {| peak_date := Some 19723%Z;
       peak_day := Some "Monday"%string;
       trips := 1 |}.
Proof. vm_compute. reflexivity. Qed.

(** *** Q11 *)

(** The scenario of the specification: two completed and two cancelled
    trips give a completion rate of 50. *)
Example q11_trip_completion_rate_example :
  let result :=
    q11_trip_completion_rate
      (Examples.clean_trips_csv
         [Examples.completed "TR1"; Examples.completed "TR2";
          Examples.cancelled "TR3"; Examples.cancelled "TR4"]) in
  (completion_rate_percentage result == 50)%Q /\
  completion_total_trips result = 4 /\
  completed result = 2 /\ cancelled result = 2.
Proof. vm_compute. repeat split. Qed.

End QueryFacts.

(* ================================================================== *)
(** * Further properties of the cleaning functions *)

Module CleaningFacts.

Import Frame FrameFacts DataCleaner.

Lemma to_datetime_shape (pd : string -> option Z) (dn : Q -> option Z)
      (c : cell) :
  to_datetime pd dn c = NA \/ exists t, to_datetime pd dn c = Stamp t.
Proof.
  destruct c; simpl; eauto.
  - destruct (pd s); simpl; eauto.
  - destruct (dn x); simpl; eauto.
Qed.

Lemma isin_In (c : cell) (values : list string) :
  isin c values = true <-> exists s, c = Str s /\ In s values.
Proof.
  destruct c; simpl; try (split; [discriminate|intros (s' & E & _); discriminate]).
  rewrite existsb_exists. split.
  - intros (v & Hv & E). apply String.eqb_eq in E. subst v. eauto.
  - intros (s' & [= <-] & Hs). exists s. split; trivial. apply String.eqb_refl.
Qed.

Lemma notna_neq (c : cell) : notna c = true <-> c <> NA.
Proof.
  destruct c; simpl; split; trivial; try discriminate; congruence.
Qed.

Lemma drop_duplicates_from_length (row : Type) (key : row -> cell)
      (seen : list cell) (df : list row) :
  length (drop_duplicates_from key seen df) <= length df.
Proof.
  revert seen. induction df as [|r df IH]; simpl; intro seen; trivial.
  destruct (existsb _ seen); simpl.
  - specialize (IH seen). lia.
  - specialize (IH (key r :: seen)). lia.
Qed.

Lemma filter_le (A : Type) (f : A -> bool) (l : list A) :
  length (filter f l) <= length l.
Proof.
  induction l as [|x l IH]; simpl; trivial.
  destruct (f x); simpl; lia.
Qed.

(** X1: every cleaned maintenance record has a parsed date, a
    maintenance type of the closed set, a numeric cost that is not
    negative, a record id and a bike id; the record ids of the cleaned
    table are pairwise distinct; and every cleaned record comes from the
    first raw row that carries its record id. *)
Theorem clean_maintenance_invariant :
  forall (parse_datetime : string -> option Z)
         (parse_numeric : string -> option Q)
         (datetime_of_number : Q -> option Z)
         (raw : list Maintenance.row),
    let cleaned :=
      clean_maintenance_csv parse_datetime parse_numeric datetime_of_number
        raw in
    (forall r, In r cleaned ->
       (exists t, Maintenance.date r = Stamp t) /\
       (exists s, Maintenance.maintenance_type r = Str s /\
                  In s valid_types) /\
       (exists c, Maintenance.cost r = Num c /\ (0 <= c)%Q) /\
       Maintenance.record_id r <> NA /\ Maintenance.bike_id r <> NA) /\
    NoDupA cell_eq (map Maintenance.record_id cleaned) /\
    (forall r, In r cleaned ->
       exists pre x post,
         raw = pre ++ x :: post /\
         Maintenance.record_id r = Maintenance.record_id x /\
         Maintenance.bike_id r = Maintenance.bike_id x /\
         Maintenance.date r
           = to_datetime parse_datetime datetime_of_number
               (Maintenance.date x) /\
         Maintenance.cost r
           = to_numeric parse_numeric (Maintenance.cost x) /\
         forall y, In y pre ->
           cell_eqb (Maintenance.record_id y) (Maintenance.record_id x)
           = false).
Proof.
  intros pd pn dn raw cleaned. split; [|split].
  - intros r H.
    pose proof (MaintenanceFacts.maintenance_clean_In _ _ _ _ _ H)
      as (Hna & Hty & Hcost).
    pose proof (MaintenanceFacts.clean_coerced _ _ _ _ _ H) as (Hd & _).
    simpl in Hna.
    repeat (apply andb_prop in Hna; destruct Hna as [? Hna]).
    repeat split.
    + destruct (to_datetime_shape pd dn (Maintenance.date r)) as [E|E].
      * rewrite Hd in E. rewrite E in *. discriminate.
      * now rewrite Hd in E.
    + now apply isin_In.
    + destruct (Maintenance.cost r) as [| |c|]; try discriminate.
      exists c. split; trivial. now apply Qle_bool_iff.
    + now apply notna_neq.
    + now apply notna_neq.
  - apply MaintenanceFacts.maintenance_clean_NoDupA.
  - intros r H. unfold cleaned, clean_maintenance_csv, dropna in H.
    repeat (apply filter_In in H; destruct H as [H _]).
    apply drop_duplicates_from_first in H.
    destruct H as (pre & post & E & Hpre).
    apply map_eq_app in E. destruct E as (pre' & rest & -> & <- & E).
    apply map_eq_cons in E. destruct E as (x & post' & -> & <- & _).
    exists pre', x, post'. simpl. repeat (split; [reflexivity|]).
    intros y Hy. apply (Hpre _ (in_map _ _ _ Hy)).
Qed.

Lemma cleaned_status :
  forall (parse_datetime : string -> option Z)
         (parse_numeric : string -> option Q)
         (datetime_of_number : Q -> option Z)
         (raw : list Trips.row) (r : Trips.row),
    In r (clean_trips_csv parse_datetime parse_numeric datetime_of_number
            raw) ->
    Trips.status r = NA \/ Trips.status r = Str "completed" \/
    Trips.status r = Str "cancelled".
Proof.
  intros pd pn dn raw r H. apply TripsFacts.trips_clean_In in H.
  destruct H as (x & m & _ & _ & _ & _ & _ & _ & _ & _ & _ & Hst).
  apply orb_true_iff in Hst. destruct Hst as [Hst|Hst].
  - apply isin_In in Hst. destruct Hst as (s & -> & [<-|[<-|[]]]); auto.
  - left. now destruct (Trips.status r).
Qed.

(** X2: in every cleaned trips table the trip id, the user id, the bike
    id and the two station ids of every row are present, its status is
    completed, cancelled or missing, and the trip ids are pairwise
    distinct. *)
Theorem clean_trips_keys :
  forall (parse_datetime : string -> option Z)
         (parse_numeric : string -> option Q)
         (datetime_of_number : Q -> option Z)
         (raw : list Trips.row),
    let cleaned :=
      clean_trips_csv parse_datetime parse_numeric datetime_of_number raw in
    (forall r, In r cleaned ->
       Trips.trip_id r <> NA /\ Trips.user_id r <> NA /\
       Trips.bike_id r <> NA /\ Trips.start_station_id r <> NA /\
       Trips.end_station_id r <> NA /\
       (Trips.status r = NA \/ Trips.status r = Str "completed" \/
        Trips.status r = Str "cancelled")) /\
    NoDupA cell_eq (map Trips.trip_id cleaned).
Proof.
  intros pd pn dn raw cleaned. split.
  - intros r H. pose proof (cleaned_status _ _ _ _ _ H) as Hst.
    apply TripsFacts.trips_clean_In in H.
    destruct H as (x & m & _ & _ & _ & _ & _ & Hids & _).
    simpl in Hids.
    repeat (apply andb_prop in Hids; destruct Hids as [? Hids]).
    repeat (split; [now apply notna_neq|]).
    exact Hst.
  - apply TripsFacts.trips_clean_NoDupA.
Qed.

Lemma one_minute (s e : Z) :
  (1 <= inject_Z (e - s) / inject_Z ns_per_minute)%Q <->
  (s + ns_per_minute <= e)%Z.
Proof.
  unfold Qle, Qdiv, Qmult, Qinv, inject_Z, ns_per_minute. simpl. lia.
Qed.

(** X3: a cleaned trip keeps the numeric duration of its raw row.  When
    the raw row has none, both its timestamps are parsed, its duration
    is the time from start to end in minutes, and the end lies at least
    one minute after the start. *)
Theorem clean_trips_duration :
  forall (parse_datetime : string -> option Z)
         (parse_numeric : string -> option Q)
         (datetime_of_number : Q -> option Z)
         (raw : list Trips.row) (r : Trips.row),
    In r (clean_trips_csv parse_datetime parse_numeric datetime_of_number
            raw) ->
    exists x,
      In x raw /\ Trips.trip_id r = Trips.trip_id x /\
      ((exists d, to_numeric parse_numeric (Trips.duration_minutes x) = Num d /\
                  Trips.duration_minutes r = Num d) \/
       (to_numeric parse_numeric (Trips.duration_minutes x) = NA /\
        exists s e,
          Trips.start_time r = Stamp s /\ Trips.end_time r = Stamp e /\
          Trips.duration_minutes r
          = Num (inject_Z (e - s) / inject_Z ns_per_minute) /\
          (s + ns_per_minute <= e)%Z)).
Proof.
  intros pd pn dn raw r H. apply TripsFacts.trips_clean_In in H.
  destruct H as (x & m & Hx & -> & Es & Ee & _ & _ & Hge & Ed & _).
  exists x. split; [exact Hx|].
  pose proof (TripsFacts.fill_distance_fields m
                (fill_duration (convert_row pd pn dn x))) as (E1 & _).
  pose proof (TripsFacts.fill_duration_fields (convert_row pd pn dn x))
    as (F1 & _).
  split; [now rewrite E1, F1|].
  assert (Trips.duration_minutes (fill_duration (convert_row pd pn dn x))
          = if isna (to_numeric pn (Trips.duration_minutes x))
            then minutes_between
                   (to_datetime pd dn (Trips.start_time x))
                   (to_datetime pd dn (Trips.end_time x))
            else to_numeric pn (Trips.duration_minutes x)) as FD.
  { unfold fill_duration. simpl.
    now destruct (isna (to_numeric pn (Trips.duration_minutes x))). }
  rewrite FD in Ed. rewrite Ed in Hge.
  destruct (to_numeric_shape pn (Trips.duration_minutes x)) as [N|[d N]];
    rewrite N in Ed, Hge; simpl in Ed, Hge.
  - right. split; [exact N|]. rewrite Es, Ee, Ed.
    destruct (to_datetime pd dn (Trips.start_time x)) as [| | |s];
      try discriminate Hge.
    destruct (to_datetime pd dn (Trips.end_time x)) as [| | |e];
      try discriminate Hge.
    exists s, e. simpl in *. repeat split.
    apply one_minute. now apply Qle_bool_iff.
  - left. eauto.
Qed.

Lemma clean_trips_duration_witness :
  let raw := [Trips.set_duration_minutes NA Examples.trip_ok] in
  let r :=
    Trips.set_duration_minutes
      (Num (inject_Z (1704105000000000000 - 1704103200000000000)
            / inject_Z ns_per_minute))
      (Trips.set_end_time (Stamp 1704105000000000000)
         (Trips.set_start_time (Stamp 1704103200000000000)
            Examples.trip_ok)) in
  In r (Examples.clean_trips_csv raw) /\
  exists x,
    In x raw /\ Trips.trip_id r = Trips.trip_id x /\
    ((exists d, to_numeric Examples.parse_numeric (Trips.duration_minutes x)
                = Num d /\ Trips.duration_minutes r = Num d) \/
     (to_numeric Examples.parse_numeric (Trips.duration_minutes x) = NA /\
      exists s e,
        Trips.start_time r = Stamp s /\ Trips.end_time r = Stamp e /\
        Trips.duration_minutes r
        = Num (inject_Z (e - s) / inject_Z ns_per_minute) /\
        (s + ns_per_minute <= e)%Z)).
Proof.
  intros raw r.
  assert (In r (Examples.clean_trips_csv raw)) as H.
  { vm_compute. left. reflexivity. }
  split; [exact H|].
  exact (clean_trips_duration _ _ _ _ _ H).
Defined.

Lemma clean_trips_filled (pd : string -> option Z) (pn : string -> option Q)
      (dn : Q -> option Z) (raw : list Trips.row) (r : Trips.row) :
  In r (clean_trips_csv pd pn dn raw) ->
  exists b x,
    In b (before_fill pd pn dn raw) /\ In x raw /\
    r = fill_distance
          (column_mean Trips.distance_km (before_fill pd pn dn raw)) b /\
    Trips.trip_id b = Trips.trip_id x /\
    Trips.distance_km b = to_numeric pn (Trips.distance_km x).
Proof.
  rewrite TripsFacts.clean_unfold. intro H.
  apply filter_In in H. destruct H as [H _].
  apply in_map_iff in H. destruct H as (b & <- & H).
  destruct (TripsFacts.before_fill_In _ _ _ _ _ H) as (x & Hx & E & _).
  pose proof (TripsFacts.fill_duration_fields (convert_row pd pn dn x))
    as (F1 & _ & _ & _ & _ & _ & _ & F8 & _).
  exists b, x. repeat split; trivial.
  - rewrite E, F1. reflexivity.
  - rewrite E, F8. reflexivity.
Qed.

Lemma cleaned_distance_row :
  forall (parse_datetime : string -> option Z)
         (parse_numeric : string -> option Q)
         (datetime_of_number : Q -> option Z)
         (raw : list Trips.row) (r : Trips.row),
    In r (clean_trips_csv parse_datetime parse_numeric datetime_of_number
            raw) ->
    exists b x,
      In b (before_fill parse_datetime parse_numeric datetime_of_number raw)
      /\ In x raw /\
      Trips.trip_id r = Trips.trip_id x /\
      Trips.distance_km b = to_numeric parse_numeric (Trips.distance_km x) /\
      Trips.distance_km r
      = if isna (Trips.distance_km b)
        then of_float
               (column_mean Trips.distance_km
                  (before_fill parse_datetime parse_numeric
                     datetime_of_number raw))
        else Trips.distance_km b.
Proof.
  intros pd pn dn raw r H. apply clean_trips_filled in H.
  destruct H as (b & x & Hb & Hx & -> & Eid & Ed).
  exists b, x. repeat split; trivial.
  - rewrite <- Eid. apply TripsFacts.fill_distance_fields.
  - unfold fill_distance.
    destruct (isna (Trips.distance_km b)); reflexivity.
Qed.

Lemma cleaned_distance_known :
  forall (parse_datetime : string -> option Z)
         (parse_numeric : string -> option Q)
         (datetime_of_number : Q -> option Z)
         (raw : list Trips.row) (r : Trips.row),
    column_mean Trips.distance_km
      (before_fill parse_datetime parse_numeric datetime_of_number raw)
    <> Py.nan ->
    In r (clean_trips_csv parse_datetime parse_numeric datetime_of_number
            raw) ->
    Trips.distance_km r <> NA.
Proof.
  intros pd pn dn raw r Hm Hr.
  destruct (cleaned_distance_row _ _ _ _ _ Hr)
    as (b & x & _ & _ & _ & Ed & ->).
  destruct (isna (Trips.distance_km b)) eqn:N.
  - destruct (column_mean Trips.distance_km (before_fill pd pn dn raw));
      [discriminate|exfalso; apply Hm; reflexivity].
  - intro E. rewrite E in N. discriminate.
Qed.

Lemma cleaned_distance_unknown :
  forall (parse_datetime : string -> option Z)
         (parse_numeric : string -> option Q)
         (datetime_of_number : Q -> option Z)
         (raw : list Trips.row) (r : Trips.row),
    column_mean Trips.distance_km
      (before_fill parse_datetime parse_numeric datetime_of_number raw)
    = Py.nan ->
    In r (clean_trips_csv parse_datetime parse_numeric datetime_of_number
            raw) ->
    Trips.distance_km r = NA.
Proof.
  intros pd pn dn raw r Hm Hr.
  destruct (cleaned_distance_row _ _ _ _ _ Hr)
    as (b & x & Hb & _ & _ & Ed & ->).
  rewrite Hm.
  destruct (isna (Trips.distance_km b)) eqn:N; [reflexivity|].
  exfalso. apply TripsFacts.column_mean_nan in Hm.
  destruct (to_numeric_shape pn (Trips.distance_km x)) as [N'|[d N']];
    rewrite N' in Ed; rewrite Ed in N; [discriminate|].
  assert (In d (numbers Trips.distance_km (before_fill pd pn dn raw)))
    as Hd.
  { unfold numbers. apply in_flat_map. exists b. split; trivial.
    rewrite Ed. now left. }
  rewrite Hm in Hd. exact Hd.
Qed.


(** X5: cleaning only removes rows: none of the three cleaned tables is
    longer than its raw table. *)
Theorem cleaning_removes_rows :
  forall (parse_datetime : string -> option Z)
         (parse_numeric : string -> option Q)
         (datetime_of_number : Q -> option Z),
    (forall raw,
       length (clean_trips_csv parse_datetime parse_numeric
                 datetime_of_number raw) <= length raw) /\
    (forall raw,
       length (clean_stations_csv parse_numeric raw) <= length raw) /\
    (forall raw,
       length (clean_maintenance_csv parse_datetime parse_numeric
                 datetime_of_number raw) <= length raw).
Proof.
  intros pd pn dn. split; [|split]; intro raw.
  - rewrite TripsFacts.clean_unfold.
    eapply Nat.le_trans; [apply filter_le|]. rewrite length_map.
    unfold before_fill, dropna, drop_duplicates.
    rewrite TripsFacts.fill_durations_map, TripsFacts.convert_columns_map.
    do 2 (eapply Nat.le_trans; [apply filter_le|]). rewrite length_map.
    eapply Nat.le_trans; [apply filter_le|].
    eapply Nat.le_trans; [apply drop_duplicates_from_length|].
    eapply Nat.le_trans; [apply filter_le|]. now rewrite length_map.
  - unfold clean_stations_csv, dropna, drop_duplicates.
    do 3 (eapply Nat.le_trans; [apply filter_le|]).
    eapply Nat.le_trans; [apply drop_duplicates_from_length|].
    now rewrite length_map.
  - unfold clean_maintenance_csv, dropna, drop_duplicates.
    do 3 (eapply Nat.le_trans; [apply filter_le|]).
    eapply Nat.le_trans; [apply drop_duplicates_from_length|].
    now rewrite length_map.
Qed.

End CleaningFacts.

(* ================================================================== *)
(** * Further properties of the queries *)

Module SummaryFacts.

Import Py Frame FrameFacts DataCleaner BikeShareSystem.

(** ** Rounding *)

Lemma rint_floor (x : Q) : (Qfloor x <= rint x <= Qfloor x + 1)%Z.
Proof.
  unfold rint.
  destruct (Qltb _ _); [lia|]. destruct (Qltb _ _); [lia|].
  destruct (Z.even _); lia.
Qed.

Lemma rint_mono (x y : Q) : (x <= y)%Q -> (rint x <= rint y)%Z.
Proof.
  intro H. pose proof (Qfloor_resp_le _ _ H) as Hf.
  destruct (Z.eq_dec (Qfloor x) (Qfloor y)) as [E|N].
  - unfold rint. rewrite <- E.
    destruct (Qltb (x - inject_Z (Qfloor x)) (1 # 2)) eqn:A.
    + destruct (Qltb (y - _) _); [lia|]. destruct (Qltb _ (y - _)); [lia|].
      destruct (Z.even _); lia.
    + apply Qltb_ge in A.
      assert (Qltb (y - inject_Z (Qfloor x)) (1 # 2) = false) as ->.
      { apply Qltb_ge. revert A H. generalize (inject_Z (Qfloor x)).
        intros; lra. }
      destruct (Qltb (1 # 2) (x - inject_Z (Qfloor x))) eqn:B.
      * apply Qltb_lt in B.
        assert (Qltb (1 # 2) (y - inject_Z (Qfloor x)) = true) as ->.
        { apply Qltb_lt. revert B H. generalize (inject_Z (Qfloor x)).
          intros; lra. }
        lia.
      * destruct (Qltb (1 # 2) (y - _)); destruct (Z.even _); lia.
  - pose proof (rint_floor x). pose proof (rint_floor y). lia.
Qed.

Lemma round2_mono (x y : Q) : (x <= y)%Q -> (round2 x <= round2 y)%Q.
Proof.
  intro H. unfold round2, Qle. simpl.
  apply Z.mul_le_mono_nonneg_r; [lia|].
  apply rint_mono. lra.
Qed.

Lemma round2_cents (z : Z) : round2 (z # 100)%Q = (z # 100)%Q.
Proof.
  unfold round2. f_equal.
  assert (Qfloor ((z # 100) * 100) = z) as F.
  { unfold Qfloor, Qmult. simpl. rewrite Z.div_mul by lia. reflexivity. }
  unfold rint. rewrite F.
  assert (Qltb ((z # 100) * 100 - inject_Z z) (1 # 2) = true) as ->;
    [|reflexivity].
  apply Qltb_lt. unfold Qlt, Qminus, Qplus, Qmult, Qopp, inject_Z. simpl.
  lia.
Qed.

Lemma round2_ge (x : Q) (z : Z) : (z # 100 <= x)%Q -> (z # 100 <= round2 x)%Q.
Proof.
  intro H. rewrite <- (round2_cents z). now apply round2_mono.
Qed.

Lemma round2_le (x : Q) (z : Z) : (x <= z # 100)%Q -> (round2 x <= z # 100)%Q.
Proof.
  intro H. rewrite <- (round2_cents z). now apply round2_mono.
Qed.

(** ** Sums *)

Lemma fold_Qplus (l : list Q) (a : Q) :
  (fold_left Qplus l a == a + Qsum l)%Q.
Proof.
  unfold Qsum. revert a. induction l as [|x l IH]; simpl; intro a.
  - lra.
  - rewrite (IH (a + x)%Q), (IH (0 + x)%Q). lra.
Qed.

Lemma Qsum_cons (x : Q) (l : list Q) : (Qsum (x :: l) == x + Qsum l)%Q.
Proof.
  unfold Qsum at 1. simpl. rewrite fold_Qplus. lra.
Qed.

Lemma inject_length_cons (A : Type) (x : A) (l : list A) :
  (inject_Z (Z.of_nat (length (x :: l)))
   == 1 + inject_Z (Z.of_nat (length l)))%Q.
Proof.
  simpl length. rewrite Nat2Z.inj_succ. unfold Z.succ.
  rewrite inject_Z_plus. change (inject_Z 1) with 1%Q. lra.
Qed.

Lemma mean_ge (l : list Q) (lo : Q) :
  l <> [] ->
  (forall x, In x l -> lo <= x)%Q ->
  (lo <= Qsum l / inject_Z (Z.of_nat (length l)))%Q.
Proof.
  intros Hne H.
  assert (0 < inject_Z (Z.of_nat (length l)))%Q as Hn.
  { change 0%Q with (inject_Z 0). rewrite <- Zlt_Qlt.
    destruct l; [congruence|simpl; lia]. }
  apply Qle_shift_div_l; trivial. clear Hn Hne.
  induction l as [|x l IH].
  - unfold Qsum. simpl. change (inject_Z 0) with 0%Q. lra.
  - rewrite Qsum_cons, inject_length_cons.
    assert (lo <= x)%Q by (apply H; now left).
    assert (lo * inject_Z (Z.of_nat (length l)) <= Qsum l)%Q as C
      by (apply IH; intros; apply H; now right).
    revert C. generalize (inject_Z (Z.of_nat (length l))). intros n C. nra.
Qed.


Lemma numbers_In (row : Type) (col : row -> cell) (df : list row) (x : Q) :
  In x (numbers col df) <-> exists r, In r df /\ col r = Num x.
Proof.
  unfold numbers. rewrite in_flat_map. split.
  - intros (r & Hr & Hx). exists r. split; trivial.
    destruct (col r); simpl in Hx; try contradiction.
    destruct Hx as [->|[]]. reflexivity.
  - intros (r & Hr & E). exists r. split; trivial. rewrite E. now left.
Qed.

Lemma cleaned_duration_minutes :
  forall (parse_datetime : string -> option Z)
         (parse_numeric : string -> option Q)
         (datetime_of_number : Q -> option Z)
         (raw : list Trips.row) (r : Trips.row),
    In r (clean_trips_csv parse_datetime parse_numeric datetime_of_number
            raw) ->
    exists d, Trips.duration_minutes r = Num d /\ (1 <= d)%Q.
Proof.
  intros pd pn dn raw r H. apply TripsFacts.trips_clean_In in H.
  destruct H as (x & m & _ & _ & _ & _ & _ & _ & Hge & _).
  destruct (Trips.duration_minutes r) as [| |d|]; try discriminate.
  exists d. split; trivial. now apply Qle_bool_iff.
Qed.

(** X6: on a cleaned trips table that is not empty, Q1 reports a number
    (never NaN) as the average duration, and that number is at least 1:
    every cleaned trip lasts at least one minute. *)
Theorem q1_trip_summary_cleaned :
  forall (parse_datetime : string -> option Z)
         (parse_numeric : string -> option Q)
         (datetime_of_number : Q -> option Z)
         (raw : list Trips.row),
    let trips :=
      clean_trips_csv parse_datetime parse_numeric datetime_of_number raw in
    trips <> [] ->
    total_trips (q1_trip_summary trips) = length trips /\
    0 < total_trips (q1_trip_summary trips) /\
    exists a, average_duration_minutes (q1_trip_summary trips) = Some a /\
              (1 <= a)%Q.
Proof.
  intros pd pn dn raw trips Hne. split; [reflexivity|]. split.
  { simpl. destruct trips; [congruence|simpl; lia]. }
  assert (forall x, In x (numbers Trips.duration_minutes trips) ->
                    (1 <= x)%Q) as Hall.
  { intros x Hx. apply numbers_In in Hx. destruct Hx as (r & Hr & E).
    destruct (cleaned_duration_minutes pd pn dn raw r Hr)
      as (d & Ed & Hd).
    rewrite E in Ed. injection Ed as <-. exact Hd. }
  assert (numbers Trips.duration_minutes trips <> []) as Hnum.
  { destruct trips as [|r rest] eqn:T; [congruence|].
    destruct (cleaned_duration_minutes pd pn dn raw r)
      as (d & Ed & _).
    { fold trips. rewrite T. now left. }
    unfold numbers. simpl. rewrite Ed. discriminate. }
  unfold q1_trip_summary, column_mean.
  cbn [average_duration_minutes].
  destruct (numbers Trips.duration_minutes trips) as [|x l] eqn:N;
    [congruence|].
  eexists. split; [reflexivity|].
  apply Qle_trans with (100 # 100)%Q; [discriminate|].
  apply round2_ge.
  apply Qle_trans with 1%Q; [discriminate|].
  apply mean_ge; [discriminate|exact Hall].
Qed.

Lemma q1_trip_summary_cleaned_witness :
  let trips := Examples.clean_trips_csv
                 [Examples.trip_ok; Examples.trip_same_instant] in
  trips <> [] /\
  total_trips (q1_trip_summary trips) = 2 /\
  exists a, average_duration_minutes (q1_trip_summary trips) = Some a /\
            (1 <= a)%Q.
Proof.
  intro trips.
  assert (trips <> []) as H by (vm_compute; discriminate).
  split; [exact H|].
  destruct (q1_trip_summary_cleaned Examples.parse_datetime
              Examples.parse_numeric Examples.datetime_of_number
              [Examples.trip_ok; Examples.trip_same_instant] H)
    as (_ & _ & Ha).
  split; [reflexivity|exact Ha].
Defined.

(** ** Q11 *)

Lemma count_three (A : Type) (p q r : A -> bool) (l : list A) :
  (forall x, In x l ->
     (p x = true /\ q x = false /\ r x = false) \/
     (p x = false /\ q x = true /\ r x = false) \/
     (p x = false /\ q x = false /\ r x = true)) ->
  length (filter p l) + length (filter q l) + length (filter r l)
  = length l.
Proof.
  induction l as [|x l IH]; simpl; intro H; trivial.
  assert (length (filter p l) + length (filter q l) + length (filter r l)
          = length l) as E by (apply IH; auto).
  destruct (H x (or_introl eq_refl)) as [(-> & -> & ->)|[(-> & -> & ->)|
                                         (-> & -> & ->)]]; simpl; lia.
Qed.

Lemma count_two (A : Type) (p q : A -> bool) (l : list A) :
  (forall x, p x = true -> q x = false) ->
  length (filter p l) + length (filter q l) <= length l.
Proof.
  intro H. induction l as [|x l IH]; simpl; trivial.
  destruct (p x) eqn:P; simpl.
  - rewrite (H x P). lia.
  - destruct (q x); simpl; lia.
Qed.

(** X7: in the result of Q11 the completed and the cancelled trips
    together are at most the total, and the completion rate lies between
    0 and 100.  On a cleaned table every trip is completed, cancelled or
    without status, so the three counts add up to the total. *)
Theorem q11_trip_completion_rate_counts :
  (forall trips : list Trips.row,
     let result := q11_trip_completion_rate trips in
     completion_total_trips result = length trips /\
     completed result + cancelled result <= completion_total_trips result /\
     (0 <= completion_rate_percentage result)%Q /\
     (completion_rate_percentage result <= 100)%Q) /\
  (forall (parse_datetime : string -> option Z)
          (parse_numeric : string -> option Q)
          (datetime_of_number : Q -> option Z)
          (raw : list Trips.row),
     let trips :=
       clean_trips_csv parse_datetime parse_numeric datetime_of_number raw in
     let result := q11_trip_completion_rate trips in
     completed result + cancelled result
     + length (filter (fun r => isna (Trips.status r)) trips)
     = completion_total_trips result).
Proof.
  split.
  - intros trips result. split; [reflexivity|].
    assert (completed result + cancelled result <= length trips) as Hsum.
    { apply count_two. intros x Hx.
      destruct (Trips.status x); simpl in *; try discriminate.
      apply String.eqb_eq in Hx. subst s. reflexivity. }
    split; [exact Hsum|].
    assert (completed result <= length trips) as Hc by lia.
    unfold result in *. unfold q11_trip_completion_rate in *.
    cbn [completion_rate_percentage completed cancelled] in *.
    destruct (0 <? length trips) eqn:T.
    + apply Nat.ltb_lt in T.
      set (c := count_status "completed" trips) in *.
      assert (0 <= inject_Z (Z.of_nat c))%Q as C0.
      { change 0%Q with (inject_Z 0). rewrite <- Zle_Qle. lia. }
      assert (inject_Z (Z.of_nat c) <= inject_Z (Z.of_nat (length trips)))%Q
        as C1 by (rewrite <- Zle_Qle; lia).
      assert (0 < inject_Z (Z.of_nat (length trips)))%Q as T0.
      { change 0%Q with (inject_Z 0). rewrite <- Zlt_Qlt. lia. }
      assert (0 <= inject_Z (Z.of_nat c) / inject_Z (Z.of_nat (length trips))
              /\ inject_Z (Z.of_nat c) / inject_Z (Z.of_nat (length trips))
                 <= 1)%Q as [R0 R1].
      { split.
        - apply Qle_shift_div_l; trivial; lra.
        - apply Qle_shift_div_r; trivial; lra. }
      revert R0 R1.
      generalize (inject_Z (Z.of_nat c) / inject_Z (Z.of_nat (length trips)))%Q.
      intros q R0 R1. split.
      * apply Qle_trans with (0 # 100)%Q; [discriminate|].
        apply round2_ge. apply Qle_trans with 0%Q; [discriminate|]. lra.
      * apply Qle_trans with (10000 # 100)%Q; [|discriminate].
        apply round2_le. apply Qle_trans with 100%Q; [lra|discriminate].
    + split; discriminate.
  - intros pd pn dn raw trips result.
    unfold result, q11_trip_completion_rate.
    cbn [completed cancelled completion_total_trips]. unfold count_status.
    apply count_three. intros x Hx.
    destruct (CleaningFacts.cleaned_status pd pn dn raw x Hx) as [E|[E|E]];
      rewrite E; simpl; auto.
Qed.

(** ** Q14 *)

Lemma In_firstn {A : Type} (n : nat) (l : list A) (x : A) :
  In x (firstn n l) -> In x l.
Proof.
  intro H. rewrite <- (firstn_skipn n l). apply in_or_app. now left.
Qed.

(** X8: Q14 raises exactly when the duration column or the distance
    column holds no number; on a cleaned table, exactly when the table is
    empty or none of its distances is known.  When it returns, it counts
    at most as many outliers as there are trips and lists trips of the
    table only. *)
Theorem q14_outlier_trips_outcome :
  (forall trips : list Trips.row,
     (q14_outlier_trips trips = Raise IndexError <->
      numbers Trips.duration_minutes trips = [] \/
      numbers Trips.distance_km trips = []) /\
     (forall report,
        q14_outlier_trips trips = Ok report ->
        total_outliers report <= length trips /\
        length (outliers report) <= 20 /\
        forall o, In o (outliers report) ->
                  exists r, In r trips /\ o = outlier_of r)) /\
  (forall (parse_datetime : string -> option Z)
          (parse_numeric : string -> option Q)
          (datetime_of_number : Q -> option Z)
          (raw : list Trips.row),
     let trips :=
       clean_trips_csv parse_datetime parse_numeric datetime_of_number raw in
     q14_outlier_trips trips = Raise IndexError <->
     trips = [] \/ forall r, In r trips -> Trips.distance_km r = NA).
Proof.
  assert (forall trips : list Trips.row,
             q14_outlier_trips trips = Raise IndexError <->
             numbers Trips.duration_minutes trips = [] \/
             numbers Trips.distance_km trips = []) as Hraise.
  { intro trips. split.
    - intro H.
      destruct (numbers Trips.duration_minutes trips) eqn:D; auto.
      destruct (numbers Trips.distance_km trips) eqn:K; auto.
      exfalso.
      destruct (QueryFacts.q14_outlier_trips_spec trips)
        as (md & bd & mk & bk & _ & _ & E & _);
        [rewrite D; discriminate|rewrite K; discriminate|].
      rewrite E in H. discriminate H.
    - unfold q14_outlier_trips, Numerical.iqr_outliers.
      rewrite !QueryFacts.drop_nan_numbers.
      intros [E|E]; rewrite E; [reflexivity|].
      destruct (numbers Trips.duration_minutes trips); reflexivity. }
  split.
  - intro trips. split; [apply Hraise|].
    intros report H.
    destruct (numbers Trips.duration_minutes trips) eqn:D.
    { rewrite (proj2 (Hraise trips)) in H by auto. discriminate. }
    destruct (numbers Trips.distance_km trips) eqn:K.
    { rewrite (proj2 (Hraise trips)) in H by auto. discriminate. }
    destruct (QueryFacts.q14_outlier_trips_spec trips)
      as (md & bd & mk & bk & _ & _ & E & _ & Hin & _);
      [rewrite D; discriminate|rewrite K; discriminate|].
    rewrite E in H. injection H as <-.
    split; [apply CleaningFacts.filter_le|].
    split.
    + exact (firstn_le_length 20 _).
    + intros o Ho. apply (In_firstn 20) in Ho.
      apply in_map_iff in Ho. destruct Ho as (r & <- & Hr).
      apply Hin in Hr. exists r. tauto.
  - intros pd pn dn raw trips. rewrite Hraise. split.
    + intros [E|E].
      * left. destruct trips as [|r rest] eqn:T; trivial. exfalso.
        destruct (cleaned_duration_minutes pd pn dn raw r)
          as (d & Ed & _).
        { fold trips. rewrite T. now left. }
        unfold numbers in E. simpl in E. rewrite Ed in E. discriminate.
      * right. intros r Hr.
        pose proof (@CleaningFacts.cleaned_distance_known pd pn dn raw)
          as Hsome.
        pose proof (@CleaningFacts.cleaned_distance_unknown pd pn dn raw)
          as Hnone.
        destruct (column_mean Trips.distance_km
                    (before_fill pd pn dn raw)) eqn:M.
        -- exfalso.
           assert (Trips.distance_km r <> NA) as Hd
             by (apply Hsome; [discriminate|exact Hr]).
           destruct (TripsFacts.trips_clean_In _ _ _ _ _ Hr)
             as (x & m & _ & _ & _ & _ & _ & _ & _ & _ & Hn & _).
           destruct (to_numeric_shape pn (Trips.distance_km r))
             as [N|[d N]]; rewrite Hn in N; [contradiction|].
           assert (In d (numbers Trips.distance_km trips)) as Hin
             by (apply numbers_In; eauto).
           rewrite E in Hin. exact Hin.
        -- apply Hnone; [reflexivity|exact Hr].
    + intros [E|E].
      * left. now rewrite E.
      * right. destruct (numbers Trips.distance_km trips) as [|d l] eqn:N;
          trivial. exfalso.
        assert (In d (numbers Trips.distance_km trips)) as Hin
          by (rewrite N; now left).
        apply numbers_In in Hin. destruct Hin as (r & Hr & Ed).
        rewrite (E r Hr) in Ed. discriminate.
Qed.

End SummaryFacts.

(* ================================================================== *)
(** * Order statistics: percentiles, quartiles and the summary *)

Module StatisticsFacts.

Import Py Numerical NumericalFacts.

Lemma sort_nonempty (l : list Q) : l <> [] -> sort l <> [].
Proof.
  intros H E. apply H. apply Permutation_nil. rewrite <- E.
  apply Permutation_sym, sort_perm.
Qed.

Lemma sort_length (l : list Q) : length (sort l) = length l.
Proof. apply Permutation_length, Permutation_sym, sort_perm. Qed.

Lemma virtual_index_bounds (n : nat) (p : Q) :
  0 < n -> (0 <= p)%Q -> (p <= 100)%Q ->
  (0 <= virtual_index n p)%Q /\
  (virtual_index n p <= inject_Z (Z.of_nat n - 1))%Q /\
  (0 <= Qfloor (virtual_index n p) <= Z.of_nat n - 1)%Z.
Proof.
  intros Hn Hp0 Hp1.
  assert (0 <= virtual_index n p /\
          virtual_index n p <= inject_Z (Z.of_nat n - 1))%Q as [H0 H1].
  { unfold virtual_index, Qdiv. change (/ 100)%Q with (1 # 100)%Q.
    assert (0 <= inject_Z (Z.of_nat n - 1))%Q as Hm.
    { change 0%Q with (inject_Z 0). rewrite <- Zle_Qle. lia. }
    revert Hm. generalize (inject_Z (Z.of_nat n - 1)). intros m Hm.
    split; nra. }
  repeat split; trivial.
  - rewrite <- (Qfloor_Z 0). now apply Qfloor_resp_le.
  - rewrite <- (Qfloor_Z (Z.of_nat n - 1)). now apply Qfloor_resp_le.
Qed.

Lemma virtual_index_mono (n : nat) (p p' : Q) :
  0 < n -> (p <= p')%Q -> (virtual_index n p <= virtual_index n p')%Q.
Proof.
  intros Hn Hp. unfold virtual_index, Qdiv.
  change (/ 100)%Q with (1 # 100)%Q.
  assert (0 <= inject_Z (Z.of_nat n - 1))%Q as Hm.
  { change 0%Q with (inject_Z 0). rewrite <- Zle_Qle. lia. }
  revert Hm. generalize (inject_Z (Z.of_nat n - 1)). intros m Hm. nra.
Qed.

(** The percentile does not decrease with [p]. *)
Lemma interpolate_mono (s : list Q) (p p' : Q) :
  Sorted Qle s -> s <> [] -> (0 <= p)%Q -> (p <= p')%Q -> (p' <= 100)%Q ->
  (interpolate s p <= interpolate s p')%Q.
Proof.
  intros S Hne Hp0 Hpp Hp1.
  assert (0 < length s) as Hn by (destruct s; simpl; [congruence|lia]).
  assert (p <= 100)%Q as Hp100 by lra.
  assert (0 <= p')%Q as Hp'0 by lra.
  destruct (virtual_index_bounds Hn Hp0 Hp100) as (Hh0 & Hh1 & Hf0 & Hf1).
  destruct (virtual_index_bounds Hn Hp'0 Hp1) as (Hk0 & Hk1 & Hg0 & Hg1).
  pose proof (virtual_index_mono Hn Hpp) as Hhk.
  pose proof (Qfloor_resp_le _ _ Hhk) as Hfg.
  destruct (Z.eq_dec (Qfloor (virtual_index (length s) p))
                     (Qfloor (virtual_index (length s) p'))) as [E|N].
  - assert (nth (previous_index (length s) p) s 0
            <= nth (next_index (length s) p) s 0)%Q as Hle.
    { apply sorted_nth_le; trivial; unfold previous_index, next_index; lia. }
    unfold interpolate, previous_index, next_index in *.
    rewrite <- E.
    revert Hle Hhk.
    generalize (nth (Z.to_nat (Qfloor (virtual_index (length s) p))) s 0%Q).
    generalize (nth (Z.to_nat
                       (Z.min (Qfloor (virtual_index (length s) p) + 1)
                          (Z.of_nat (length s) - 1))) s 0%Q).
    generalize (inject_Z (Qfloor (virtual_index (length s) p))).
    generalize (virtual_index (length s) p).
    generalize (virtual_index (length s) p').
    intros h' h f b a Hle Hhk. nra.
  - destruct (interpolate_between S Hne Hp0 Hp100) as [_ H1].
    destruct (interpolate_between S Hne Hp'0 Hp1) as [H2 _].
    eapply Qle_trans; [exact H1|]. eapply Qle_trans; [|exact H2].
    apply sorted_nth_le; trivial; unfold previous_index, next_index; lia.
Qed.

Lemma interpolate_0 (s : list Q) : (interpolate s 0 == nth 0 s 0)%Q.
Proof.
  unfold interpolate, previous_index, next_index.
  assert (virtual_index (length s) 0 == 0)%Q as E
    by (unfold virtual_index; field).
  pose proof (Qfloor_comp _ _ E) as F. change (Qfloor 0) with 0%Z in F.
  rewrite F, E. simpl Z.to_nat. change (inject_Z 0) with 0%Q. ring.
Qed.

Lemma interpolate_100 (s : list Q) :
  s <> [] -> (interpolate s 100 == nth (length s - 1) s 0)%Q.
Proof.
  intro Hne.
  assert (0 < length s) as Hn by (destruct s; simpl; [congruence|lia]).
  unfold interpolate, previous_index, next_index.
  assert (virtual_index (length s) 100
          == inject_Z (Z.of_nat (length s) - 1))%Q as E
    by (unfold virtual_index; field).
  pose proof (Qfloor_comp _ _ E) as F. rewrite Qfloor_Z in F.
  rewrite F, E.
  replace (Z.to_nat (Z.min (Z.of_nat (length s) - 1 + 1)
                       (Z.of_nat (length s) - 1)))
    with (length s - 1) by lia.
  replace (Z.to_nat (Z.of_nat (length s) - 1)) with (length s - 1) by lia.
  ring.
Qed.

Lemma minimum_is (l : list Q) : minimum l = nth 0 (sort l) 0%Q.
Proof. unfold minimum. now destruct (sort l). Qed.

Lemma last_nth (s : list Q) : last s 0%Q = nth (length s - 1) s 0%Q.
Proof.
  induction s as [|x s IH]; trivial.
  destruct s as [|y s]; trivial.
  change (last (x :: y :: s) 0%Q) with (last (y :: s) 0%Q). rewrite IH.
  simpl. now rewrite Nat.sub_0_r.
Qed.

Lemma maximum_is (l : list Q) :
  maximum l = nth (length l - 1) (sort l) 0%Q.
Proof. unfold maximum. now rewrite last_nth, sort_length. Qed.





(** Every percentile lies between the smallest and the largest entry. *)
Lemma interpolate_range (l : list Q) (p : Q) :
  l <> [] -> (0 <= p)%Q -> (p <= 100)%Q ->
  (minimum l <= interpolate (sort l) p)%Q /\
  (interpolate (sort l) p <= maximum l)%Q.
Proof.
  intros Hne Hp0 Hp1.
  pose proof (sort_nonempty Hne) as Hs. pose proof (sort_sorted l) as S.
  split.
  - rewrite minimum_is, <- interpolate_0.
    apply interpolate_mono; trivial; lra.
  - rewrite maximum_is, <- sort_length, <- interpolate_100 by trivial.
    apply interpolate_mono; trivial; lra.
Qed.





(** X10: with a multiplier that is not negative, on an array with at
    least one number, the bounds of [iqr_outliers] are ordered,
    lower_bound <= q1 <= q3 <= upper_bound, the interquartile range is not
    negative, the quartiles lie between the smallest and the largest
    number, and no entry between the two quartiles is flagged. *)
Theorem iqr_outliers_bounds :
  forall (data : list float) (iqr_multiplier : Q),
    drop_nan data <> [] -> (0 <= iqr_multiplier)%Q ->
    exists mask b,
      iqr_outliers data iqr_multiplier = Ok (mask, b) /\
      (0 <= iqr b)%Q /\
      (lower_bound b <= q1 b)%Q /\ (q1 b <= q3 b)%Q /\
      (q3 b <= upper_bound b)%Q /\
      (minimum (drop_nan data) <= q1 b)%Q /\
      (q3 b <= maximum (drop_nan data))%Q /\
      (forall i x,
         nth_error data i = Some (Some x) ->
         (q1 b <= x)%Q -> (x <= q3 b)%Q -> nth i mask false = false).
Proof.
  intros data m Hne Hm. unfold iqr_outliers.
  rewrite !percentile_nonempty by exact Hne.
  cbv beta iota zeta delta [bind].
  pose proof (sort_nonempty Hne) as Hs.
  pose proof (sort_sorted (drop_nan data)) as S.
  assert (interpolate (sort (drop_nan data)) 25
          <= interpolate (sort (drop_nan data)) 75)%Q as Hq
    by (apply interpolate_mono; trivial; lra).
  assert (minimum (drop_nan data)
          <= interpolate (sort (drop_nan data)) 25)%Q as Hlo
    by (apply interpolate_range; trivial; lra).
  assert (interpolate (sort (drop_nan data)) 75
          <= maximum (drop_nan data))%Q as Hhi
    by (apply interpolate_range; trivial; lra).
  eexists _, _. split; [reflexivity|].
  cbv beta iota delta [q1 q3 iqr lower_bound upper_bound].
  revert Hq Hlo Hhi.
  generalize (interpolate (sort (drop_nan data)) 25) as a.
  generalize (interpolate (sort (drop_nan data)) 75) as b.
  intros b a Hq Hlo Hhi.
  split; [lra|]. split; [nra|]. split; [exact Hq|]. split; [nra|].
  split; [exact Hlo|]. split; [exact Hhi|].
  intros i x Hi Ha Hb.
  match goal with |- ?t = false => destruct t eqn:E end; trivial.
  apply nth_map_true in E. destruct E as (y & Hy & H).
  rewrite Hi in Hy. injection Hy as <-.
  apply outside_iff in H. destruct H as (v & [= <-] & [H|H]); nra.
Qed.

Lemma iqr_outliers_bounds_witness :
  drop_nan Examples.iqr_data <> [] /\
  (0 <= default_iqr_multiplier)%Q /\
  exists mask b,
    iqr_outliers Examples.iqr_data default_iqr_multiplier = Ok (mask, b) /\
    (0 <= iqr b)%Q /\
    (lower_bound b <= q1 b)%Q /\ (q1 b <= q3 b)%Q /\
    (q3 b <= upper_bound b)%Q.
Proof.
  assert (drop_nan Examples.iqr_data <> []) as H
    by (vm_compute; discriminate).
  assert (0 <= default_iqr_multiplier)%Q as Hm by discriminate.
  split; [exact H|]. split; [exact Hm|].
  destruct (iqr_outliers_bounds Examples.iqr_data H Hm)
    as (mask & b & E & H0 & H1 & H2 & H3 & _).
  exists mask, b. tauto.
Defined.

(** *** [percentile_analysis] *)

Import StatisticalAnalyzer.

Lemma np_percentile_valid (a : list Q) (p : Z) :
  a <> [] -> in_range p ->
  Np.percentile a p = Np.Ok (interpolate (sort a) (inject_Z p)).
Proof.
  intros Ha [H0 H1]. unfold Np.percentile.
  apply Z.leb_le in H0, H1. rewrite H0, H1. simpl.
  now rewrite percentile_nonempty.
Qed.

Lemma np_percentile_raises (a : list Q) (p : Z) :
  a = [] \/ ~ in_range p -> exists e, Np.percentile a p = Np.Raise e.
Proof.
  intro H. unfold Np.percentile.
  destruct ((0 <=? p) && (p <=? 100))%Z eqn:E.
  - destruct H as [->|H]; [simpl; eauto|].
    exfalso. apply H. apply andb_prop in E. destruct E as [E0 E1].
    apply Z.leb_le in E0, E1. split; trivial.
  - eauto.
Qed.

Lemma dict_setitem_keys (d : list (Z * Q)) (k : Z) (v : Q) :
  (In k (map fst d) -> map fst (setitem d k v) = map fst d) /\
  (~ In k (map fst d) -> map fst (setitem d k v) = map fst d ++ [k]).
Proof.
  induction d as [|[k' v'] d [IH1 IH2]]; simpl.
  - split; [intros []|reflexivity].
  - destruct (Z.eqb_spec k k') as [->|N]; simpl.
    + split; [reflexivity|]. intro H. exfalso. apply H. now left.
    + split.
      * intros [E|H]; [congruence|]. now rewrite IH1.
      * intro H. rewrite IH2; trivial. intro. apply H. now right.
Qed.

Lemma dict_setitem_In (d : list (Z * Q)) (k : Z) (v : Q) (p : Z) (w : Q) :
  In (p, w) (setitem d k v) -> (p = k /\ w = v) \/ In (p, w) d.
Proof.
  induction d as [|[k' v'] d IH]; simpl.
  - intros [[= <- <-]|[]]. now left.
  - destruct (Z.eqb_spec k k') as [->|N]; simpl.
    + intros [[= <- <-]|H]; auto.
    + intros [H|H]; auto. destruct (IH H); auto.
Qed.

Lemma percentiles_from_valid (data : list Q) (percentiles : list Z)
  (d : list (Z * Q)) :
  data <> [] -> Forall in_range percentiles ->
  NoDup (map fst d) ->
  (forall p v, In (p, v) d -> v = interpolate (sort data) (inject_Z p)) ->
  exists d',
    percentiles_from data percentiles d = Np.Ok d' /\
    NoDup (map fst d') /\
    (forall p, In p (map fst d') <-> In p (map fst d) \/ In p percentiles) /\
    (forall p v, In (p, v) d' -> v = interpolate (sort data) (inject_Z p)).
Proof.
  intros Hne Hall. revert d.
  induction Hall as [|p rest Hp Hall IH]; intros d Hnd Hval; simpl.
  - exists d. repeat split; trivial; tauto.
  - rewrite np_percentile_valid by trivial. simpl.
    destruct (dict_setitem_keys d p (interpolate (sort data) (inject_Z p)))
      as [K1 K2].
    destruct (IH (setitem d p (interpolate (sort data) (inject_Z p))))
      as (d' & E & Hnd' & Hkeys & Hval').
    + destruct (in_dec Z.eq_dec p (map fst d)) as [Hin|Hin].
      * now rewrite K1.
      * rewrite K2 by trivial. apply NoDup_app; trivial.
        -- repeat constructor. intros [].
        -- intros x Hx [<-|[]]. contradiction.
    + intros q v Hq. apply dict_setitem_In in Hq.
      destruct Hq as [[-> ->]|Hq]; auto.
    + exists d'. repeat split; trivial.
      * intro H. apply Hkeys in H. destruct H as [H|H]; [|tauto].
        destruct (in_dec Z.eq_dec p (map fst d)) as [Hin|Hin].
        -- rewrite K1 in H by trivial. tauto.
        -- rewrite K2 in H by trivial. apply in_app_or in H.
           destruct H as [H|[<-|[]]]; tauto.
      * intro H. apply Hkeys.
        destruct (in_dec Z.eq_dec p (map fst d)) as [Hin|Hin].
        -- rewrite K1 by trivial. destruct H as [H|[<-|H]]; tauto.
        -- rewrite K2 by trivial. rewrite in_app_iff. simpl.
           destruct H as [H|[<-|H]]; tauto.
Qed.

Lemma percentiles_from_raises (data : list Q) (percentiles : list Z)
  (d : list (Z * Q)) :
  percentiles <> [] ->
  data = [] \/ ~ Forall in_range percentiles ->
  exists e, percentiles_from data percentiles d = Np.Raise e.
Proof.
  revert d. induction percentiles as [|p rest IH]; intros d Hne H.
  - congruence.
  - simpl.
    destruct (Np.percentile data p) as [v|e] eqn:E; simpl; [|eauto].
    assert (data <> [] /\ in_range p) as [Hd Hp].
    { split.
      - intros ->. destruct (@np_percentile_raises [] p) as [e' E'];
          [now left|congruence].
      - destruct (Z_le_dec 0 p), (Z_le_dec p 100);
          try (split; assumption);
          destruct (@np_percentile_raises data p) as [e' E'];
          try congruence; right; unfold in_range; lia. }
    destruct H as [H|H]; [contradiction|].
    apply IH.
    + intros ->. apply H. now constructor.
    + right. intro Hall. apply H. now constructor.
Qed.

(** X11: [percentile_analysis] returns a dictionary exactly when no
    percentile is asked for, or when the array has a number and every
    percentile asked for lies in 0..100; otherwise it raises.  The
    dictionary has one entry for each percentile asked for (the seven
    default ones when the caller names none), each value lies between
    the smallest and the largest number of the array, and the values do
    not decrease with the percentile. *)
Theorem percentile_analysis_outcome :
  forall (data : list float) (percentiles : option (list Z)),
    let clean := drop_nan data in
    let asked :=
      match percentiles with
      | None => [10; 25; 50; 75; 90; 95; 99]%Z
      | Some l => l
      end in
    (asked = [] \/ (clean <> [] /\ Forall in_range asked) ->
     exists d,
       percentile_analysis data percentiles = Np.Ok d /\
       NoDup (map fst d) /\
       (forall p, In p (map fst d) <-> In p asked) /\
       (forall p v, In (p, v) d ->
          (minimum clean <= v)%Q /\ (v <= maximum clean)%Q) /\
       (forall p v p' v',
          In (p, v) d -> In (p', v') d -> (p <= p')%Z -> (v <= v')%Q)) /\
    (asked <> [] /\ (clean = [] \/ ~ Forall in_range asked) ->
     exists e, percentile_analysis data percentiles = Np.Raise e).
Proof.
  intros data percentiles clean asked.
  assert (percentile_analysis data percentiles
          = percentiles_from clean asked []) as ->
    by (destruct percentiles; reflexivity).
  clearbody asked. split.
  - intros [->|[Hne Hall]].
    + exists []. simpl. repeat split; try constructor; try tauto;
        intros; contradiction.
    + destruct (@percentiles_from_valid clean asked [] Hne Hall)
        as (d & E & Hnd & Hkeys & Hval).
      * constructor.
      * intros p v [].
      * assert (forall p v, In (p, v) d -> in_range p) as Hr.
        { intros p v Hp.
          assert (In p (map fst d)) as Hk
            by (apply in_map_iff; now exists (p, v)).
          apply Hkeys in Hk. destruct Hk as [[]|Hk].
          rewrite Forall_forall in Hall. now apply Hall. }
        pose proof (sort_nonempty Hne) as Hs.
        pose proof (sort_sorted clean) as S.
        exists d. split; [exact E|]. split; [exact Hnd|]. split.
        { intro p. rewrite Hkeys. simpl. tauto. }
        split.
        { intros p v Hp. destruct (Hr _ _ Hp) as [H0 H1].
          rewrite (Hval _ _ Hp).
          apply interpolate_range; trivial.
          - change 0%Q with (inject_Z 0). now rewrite <- Zle_Qle.
          - change 100%Q with (inject_Z 100). now rewrite <- Zle_Qle. }
        intros p v p' v' Hp Hp' Hle.
        destruct (Hr _ _ Hp) as [H0 H1]. destruct (Hr _ _ Hp') as [H0' H1'].
        rewrite (Hval _ _ Hp), (Hval _ _ Hp').
        apply interpolate_mono; trivial.
        { change 0%Q with (inject_Z 0). now rewrite <- Zle_Qle. }
        { now rewrite <- Zle_Qle. }
        { change 100%Q with (inject_Z 100). now rewrite <- Zle_Qle. }
  - intros [Hne H]. now apply percentiles_from_raises.
Qed.

(** *** [zscore_outliers] *)

Import OutlierDetection.










End StatisticsFacts.

(* ================================================================== *)
(** * Vectorised fares *)

Module FareFacts.

Import Py BatchNumericalComputation.







End FareFacts.

(* ================================================================== *)
(** * Distances between stations *)

Module DistanceFacts.

Import Py DistanceCalculator.

(** ** Item assignment *)

Lemma setitem_length (A : Type) (l : list A) (i : nat) (v : A) :
  length (Np.setitem l i v) = length l.
Proof.
  revert i. induction l as [|x l IH]; intros [|i]; simpl; auto.
Qed.

Lemma setitem_nth (A : Type) (l : list A) (i j : nat) (v d : A) :
  i < length l ->
  nth j (Np.setitem l i v) d = if Nat.eqb j i then v else nth j l d.
Proof.
  revert i j. induction l as [|x l IH]; intros [|i] [|j]; simpl; intro H;
    try lia; trivial.
  apply IH. lia.
Qed.

(** A matrix of [n] rows of [n] entries. *)
Local Abbreviation square n m :=
  (length m = n /\ forall row : list float, In row m -> length row = n).

Lemma setitem_In (A : Type) (l : list A) (i : nat) (v x : A) :
  In x (Np.setitem l i v) -> x = v \/ In x l.
Proof.
  revert i. induction l as [|y l IH]; intros [|i]; simpl; try tauto.
  - intros [H|H]; auto.
  - intros [H|H]; auto. destruct (IH _ H); auto.
Qed.

Lemma setitem2_square (n : nat) (m : list (list float)) (i j : nat)
  (v : float) :
  square n m -> square n (setitem2 m i j v).
Proof.
  intros [Hl Hr]. unfold setitem2.
  destruct (nth_error m i) as [row|] eqn:E; [|now split].
  split.
  - now rewrite setitem_length.
  - intros r Hin. apply setitem_In in Hin. destruct Hin as [->|Hin]; auto.
    rewrite setitem_length. apply Hr. eapply nth_error_In; eassumption.
Qed.

Lemma setitem2_entry (n : nat) (m : list (list float)) (i j a b : nat)
  (v : float) :
  square n m -> i < n -> j < n ->
  entry (setitem2 m i j v) a b
  = if Nat.eqb a i && Nat.eqb b j then v else entry m a b.
Proof.
  intros [Hl Hr] Hi Hj. unfold setitem2, entry.
  destruct (nth_error m i) as [row|] eqn:E.
  2:{ apply nth_error_None in E. lia. }
  assert (length row = n) as Hrow
    by (apply Hr; eapply nth_error_In; eassumption).
  rewrite setitem_nth by lia.
  destruct (Nat.eqb_spec a i) as [->|N]; simpl; trivial.
  rewrite setitem_nth by lia.
  rewrite (nth_error_nth _ _ _ E).
  destruct (Nat.eqb_spec b j); trivial.
Qed.

Lemma zeros_square (n : nat) : square n (zeros n n).
Proof.
  unfold zeros. split.
  - apply repeat_length.
  - intros row H. apply repeat_spec in H. subst. apply repeat_length.
Qed.

Lemma zeros_entry (n i j : nat) :
  i < n -> j < n -> entry (zeros n n) i j = Some 0%Q.
Proof.
  intros Hi Hj. unfold entry, zeros.
  assert (forall (A : Type) (x d : A) k m, k < m -> nth k (repeat x m) d = x)
    as R.
  { intros A x d k m. revert k. induction m as [|m IH]; intros [|k] H;
      simpl; try lia; trivial. apply IH. lia. }
  rewrite (R _ _ _ i n Hi). apply R. exact Hj.
Qed.

(** ** The two loops of [pairwise_distances] *)

Section Loops.

Variable sqrt : Q -> Q.
Variable coords : list (float * float).

Local Abbreviation n := (length coords).
Local Abbreviation d := (station_distance sqrt coords).

Local Abbreviation inner i :=
  (fun (distances : list (list float)) (j : nat) =>
     let '(lat1, lon1) := nth i coords (nan, nan) in
     let '(lat2, lon2) := nth j coords (nan, nan) in
     let dist := euclidean_distance sqrt lat1 lon1 lat2 lon2 in
     let distances := setitem2 distances i j dist in
     setitem2 distances j i dist).

Local Abbreviation outer :=
  (fun (distances : list (list float)) (i : nat) =>
     fold_left (inner i) (seq (i + 1) (n - (i + 1))) distances).

Lemma inner_step (i j : nat) (m : list (list float)) :
  inner i m j = setitem2 (setitem2 m i j (d i j)) j i (d i j).
Proof.
  unfold station_distance.
  destruct (nth i coords (nan, nan)), (nth j coords (nan, nan)).
  reflexivity.
Qed.

Ltac booleans :=
  repeat match goal with
         | |- context [Nat.eqb ?x ?y] => destruct (Nat.eqb_spec x y)
         | |- context [Nat.ltb ?x ?y] => destruct (Nat.ltb_spec x y)
         end;
  subst; simpl; try lia; trivial.

(** The inner loop for the station [i]: the entries (i, j) and (j, i) of
    the stations [j] it runs through hold the distance of [i] and [j];
    the other entries are as before. *)
Lemma inner_loop (i : nat) (js : list nat) (m : list (list float)) :
  i < n -> (forall j, In j js -> j < n) -> square n m ->
  square n (fold_left (inner i) js m) /\
  forall a b,
    entry (fold_left (inner i) js m) a b
    = if Nat.eqb a i && existsb (Nat.eqb b) js then d i b
      else if Nat.eqb b i && existsb (Nat.eqb a) js then d i a
           else entry m a b.
Proof.
  intro Hi. revert m. induction js as [|j js IH]; intros m Hjs Hm.
  - split; trivial. intros a b. simpl. now rewrite !andb_false_r.
  - assert (j < n) as Hj by (apply Hjs; now left).
    assert (square n (setitem2 m i j (d i j))) as H1
      by now apply setitem2_square.
    assert (square n (setitem2 (setitem2 m i j (d i j)) j i (d i j))) as H2
      by now apply setitem2_square.
    simpl fold_left. rewrite inner_step.
    destruct (IH _ (fun j' H => Hjs j' (or_intror H)) H2) as [Hsq Hent].
    split; trivial. intros a b. rewrite Hent.
    rewrite (setitem2_entry _ _ _ _ H1 Hj Hi).
    rewrite (setitem2_entry _ _ _ _ Hm Hi Hj).
    simpl existsb.
    destruct (existsb (Nat.eqb b) js), (existsb (Nat.eqb a) js); booleans.
Qed.

Lemma existsb_seq (b lo len : nat) :
  existsb (Nat.eqb b) (seq lo len) = Nat.leb lo b && Nat.ltb b (lo + len).
Proof.
  revert lo. induction len as [|len IH]; intro lo; simpl.
  - destruct (Nat.leb_spec lo b), (Nat.ltb_spec b (lo + 0)); trivial; lia.
  - rewrite IH.
    destruct (Nat.eqb_spec b lo), (Nat.leb_spec (S lo) b),
      (Nat.ltb_spec b (S lo + len)), (Nat.leb_spec lo b),
      (Nat.ltb_spec b (lo + S len)); simpl; trivial; lia.
Qed.

(** The outer loop: for every station [i] it has run through, the
    entries (i, j) and (j, i) with [i < j] hold their distance. *)
Lemma outer_loop (stations : list nat) (m : list (list float)) :
  (forall i, In i stations -> i < n) -> square n m ->
  square n (fold_left outer stations m) /\
  forall a b,
    a < n -> b < n ->
    entry (fold_left outer stations m) a b
    = if Nat.ltb a b && existsb (Nat.eqb a) stations then d a b
      else if Nat.ltb b a && existsb (Nat.eqb b) stations then d b a
           else entry m a b.
Proof.
  revert m. induction stations as [|i stations IH]; intros m His Hm.
  - split; trivial. intros a b _ _. simpl. now rewrite !andb_false_r.
  - assert (i < n) as Hi by (apply His; now left).
    destruct (@inner_loop i (seq (i + 1) (n - (i + 1))) m Hi) as [H1 Hent1];
      trivial.
    { intros j Hj. apply in_seq in Hj. lia. }
    change (fold_left outer (i :: stations) m)
      with (fold_left outer stations
              (fold_left (inner i) (seq (i + 1) (n - (i + 1))) m)).
    destruct (IH _ (fun j' H => His j' (or_intror H)) H1) as [Hsq Hent].
    split; trivial. intros a b Ha Hb. rewrite (Hent a b Ha Hb), Hent1.
    rewrite !existsb_seq. simpl existsb.
    destruct (existsb (Nat.eqb a) stations), (existsb (Nat.eqb b) stations);
      repeat match goal with
             | |- context [Nat.eqb ?x ?y] => destruct (Nat.eqb_spec x y)
             | |- context [Nat.ltb ?x ?y] => destruct (Nat.ltb_spec x y)
             | |- context [Nat.leb ?x ?y] => destruct (Nat.leb_spec x y)
             end;
      subst; simpl; try lia; trivial.
Qed.

End Loops.

(** X14: [pairwise_distances] returns a square matrix with one row and
    one column per station; its diagonal is 0; for [i < j] the entry
    (i, j) is the Euclidean distance of the stations [i] and [j], and the
    entry (j, i) is the same number. *)
Theorem pairwise_distances_spec :
  forall (sqrt : Q -> Q) (stations_coords : list (float * float)),
    let n := length stations_coords in
    let distances := pairwise_distances sqrt stations_coords in
    length distances = n /\
    (forall row, In row distances -> length row = n) /\
    (forall i, i < n -> entry distances i i = Some 0%Q) /\
    (forall i j,
       i < j -> j < n ->
       entry distances i j = station_distance sqrt stations_coords i j /\
       entry distances j i = entry distances i j).
Proof.
  intros sqrt coords n distances.
  pose proof (@outer_loop sqrt coords (seq 0 n) (zeros n n)) as H.
  change (fold_left _ (seq 0 n) (zeros n n)) with distances in H.
  destruct H as [[Hl Hr] Hent].
  { intros i Hi. apply in_seq in Hi. lia. }
  { apply zeros_square. }
  assert (forall a, a < n -> existsb (Nat.eqb a) (seq 0 n) = true) as Hmem.
  { intros a Ha. rewrite existsb_seq.
    destruct (Nat.leb_spec 0 a), (Nat.ltb_spec a (0 + n)); trivial; lia. }
  split; [exact Hl|]. split; [exact Hr|]. split.
  - intros i Hi. rewrite (Hent i i Hi Hi), Nat.ltb_irrefl. simpl.
    now apply zeros_entry.
  - intros i j Hij Hj. assert (i < n) as Hi by lia.
    rewrite (Hent j i Hj Hi), (Hent i j Hi Hj), !Hmem by trivial.
    destruct (Nat.ltb_spec i j), (Nat.ltb_spec j i); simpl; try lia.
    split; reflexivity.
Qed.

(** ** [np.argmin] and [nearest_station] *)

Local Abbreviation proper x := (x <> Finite None).

Lemma replaces_precedes (c b : extended) :
  proper c -> proper b -> (replaces c b = true <-> precedes c b).
Proof.
  intros Hc Hb.
  destruct c as [[c|]|], b as [[b|]|]; simpl; try congruence;
    try (split; [discriminate|contradiction]); try tauto.
  apply Qltb_lt.
Qed.

Lemma precedes_irrefl (x : extended) : ~ precedes x x.
Proof. destruct x as [[x|]|]; simpl; auto. apply Qlt_irrefl. Qed.

Lemma precedes_before (x best y : extended) :
  proper y -> precedes x best -> ~ precedes y best -> precedes x y.
Proof.
  destruct x as [[x|]|], best as [[b|]|], y as [[y|]|]; simpl;
    try tauto; try congruence.
  intros _ H1 H2. apply Qnot_lt_le in H2. lra.
Qed.

Lemma precedes_asym (x y : extended) : precedes x y -> ~ precedes y x.
Proof.
  destruct x as [[x|]|], y as [[y|]|]; simpl; try tauto. lra.
Qed.

(** [argmin_from] returns the first position of a smallest entry. *)
Lemma argmin_from_spec (l pre : list extended) (best_index : nat)
  (best : extended) :
  Forall (fun x => proper x) (pre ++ l) ->
  nth_error (pre ++ l) best_index = Some best ->
  best_index < length pre ->
  (forall k x, k < length pre -> nth_error (pre ++ l) k = Some x ->
               ~ precedes x best) ->
  (forall k x, k < best_index -> nth_error (pre ++ l) k = Some x ->
               precedes best x) ->
  let r := argmin_from best_index best (length pre) l in
  exists v,
    nth_error (pre ++ l) r = Some v /\
    (forall k x, nth_error (pre ++ l) k = Some x -> ~ precedes x v) /\
    (forall k x, k < r -> nth_error (pre ++ l) k = Some x -> precedes v x).
Proof.
  revert pre best_index best.
  induction l as [|y l IH]; intros pre bi best Hall Hbest Hbi Hle Hlt; simpl.
  - exists best. split; [exact Hbest|]. split; [|exact Hlt].
    intros k x Hk. apply (Hle k); trivial.
    rewrite app_nil_r in Hk. apply nth_error_Some. congruence.
  - assert (pre ++ y :: l = (pre ++ [y]) ++ l) as E
      by (rewrite <- app_assoc; reflexivity).
    assert (length (pre ++ [y]) = S (length pre)) as El
      by (rewrite length_app; simpl; lia).
    assert (nth_error (pre ++ y :: l) (length pre) = Some y) as Hy
      by (rewrite nth_error_app2, Nat.sub_diag by lia; reflexivity).
    assert (forall k x, nth_error (pre ++ y :: l) k = Some x -> proper x)
      as Hp.
    { intros k x Hk. rewrite Forall_forall in Hall. apply Hall.
      eapply nth_error_In; eassumption. }
    assert (proper best) as Pb by (eapply Hp; eassumption).
    assert (proper y) as Py by (eapply Hp; eassumption).
    rewrite E in *. rewrite <- El.
    destruct (replaces y best) eqn:R.
    + apply replaces_precedes in R; trivial.
      apply IH; trivial; try lia.
      * intros k x Hk Hx. rewrite El in Hk.
        destruct (Nat.eq_dec k (length pre)) as [->|N].
        -- rewrite Hy in Hx. injection Hx as <-. apply precedes_irrefl.
        -- apply precedes_asym. apply precedes_before with best; trivial.
           ++ eapply Hp; eassumption.
           ++ apply (Hle k); trivial. lia.
      * intros k x Hk Hx.
        apply precedes_before with best; trivial.
        -- eapply Hp; eassumption.
        -- apply (Hle k); trivial.
    + apply IH; trivial; try lia.
      intros k x Hk Hx. rewrite El in Hk.
      destruct (Nat.eq_dec k (length pre)) as [->|N].
      * rewrite Hy in Hx. injection Hx as <-.
        intro H. apply replaces_precedes in H; trivial. congruence.
      * apply (Hle k); trivial. lia.
Qed.

Lemma argmin_spec (l : list extended) :
  l <> [] -> Forall (fun x => proper x) l ->
  exists v,
    nth_error l (argmin l) = Some v /\
    (forall k x, nth_error l k = Some x -> ~ precedes x v) /\
    (forall k x, k < argmin l -> nth_error l k = Some x -> precedes v x).
Proof.
  destruct l as [|x l]; [congruence|]. intros _ Hall.
  apply (@argmin_from_spec l [x] 0 x); simpl; trivial; try lia.
  intros [|k] y Hk; [|simpl in Hk; lia].
  intros [= <-]. apply precedes_irrefl.
Qed.

Lemma index_bound (n : nat) (i : Z) (k : nat) :
  Np.index n i = Ok k -> k < n.
Proof.
  unfold Np.index.
  destruct ((0 <=? i) && (i <? Z.of_nat n))%Z eqn:A.
  - intros [= <-]. apply andb_prop in A. lia.
  - destruct ((- Z.of_nat n <=? i) && (i <? 0))%Z eqn:B; [|discriminate].
    intros [= <-]. apply andb_prop in B. lia.
Qed.

Lemma index_raises (n : nat) (i : Z) :
  (i < - Z.of_nat n \/ Z.of_nat n <= i)%Z -> Np.index n i = Raise IndexError.
Proof.
  intro H. unfold Np.index.
  destruct ((0 <=? i) && (i <? Z.of_nat n))%Z eqn:A.
  - apply andb_prop in A. lia.
  - destruct ((- Z.of_nat n <=? i) && (i <? 0))%Z eqn:B; trivial.
    apply andb_prop in B. lia.
Qed.

Lemma masked_row (row : list Q) (j k : nat) :
  j < length row -> k < length row ->
  nth_error (Np.setitem (map Finite (map Some row)) j Infinity) k
  = Some (if Nat.eqb k j then Infinity else Finite (Some (nth k row 0%Q))).
Proof.
  intros Hj Hk.
  assert (k < length (Np.setitem (map Finite (map Some row)) j Infinity))
    as Hl by (rewrite setitem_length, !length_map; exact Hk).
  rewrite (nth_error_nth' _ (Finite (Some 0%Q)) Hl).
  rewrite setitem_nth by (rewrite !length_map; exact Hj).
  destruct (Nat.eqb k j); trivial.
  rewrite map_map.
  now rewrite (map_nth (fun x : Q => Finite (Some x))).
Qed.

(** X15: [nearest_station] raises [IndexError] when the index is outside
    the matrix.  On a row without NaN and with at least two entries it
    returns another station than the one asked for, none of the other
    stations is closer, and those before it are farther.  On a row with
    a single entry it returns the station itself. *)
Theorem nearest_station_spec :
  forall (from_station_idx : Z) (distance_matrix : list (list float)),
    ((from_station_idx < - Z.of_nat (length distance_matrix) \/
      Z.of_nat (length distance_matrix) <= from_station_idx)%Z ->
     nearest_station from_station_idx distance_matrix = Raise IndexError) /\
    (forall (i j : nat) (row : list Q),
       Np.index (length distance_matrix) from_station_idx = Ok i ->
       nth i distance_matrix [] = map Some row ->
       Np.index (length row) from_station_idx = Ok j ->
       exists r,
         nearest_station from_station_idx distance_matrix = Ok r /\
         r < length row /\
         (length row = 1 -> r = j) /\
         (2 <= length row ->
          r <> j /\
          (forall k, k < length row -> k <> j ->
                     (nth r row 0 <= nth k row 0)%Q) /\
          (forall k, k < r -> k <> j -> (nth r row 0 < nth k row 0)%Q))).
Proof.
  intros from matrix. split.
  - intro H. unfold nearest_station. now rewrite index_raises.
  - intros i j row Hi Hrow Hj. unfold nearest_station.
    rewrite Hi. cbv beta iota zeta delta [bind].
    rewrite Hrow, !length_map, Hj.
    apply index_bound in Hj.
    set (l := Np.setitem (map Finite (map Some row)) j Infinity).
    assert (length l = length row) as Hl
      by (unfold l; now rewrite setitem_length, !length_map).
    destruct (argmin_spec (l := l)) as (v & Hv & Hle & Hlt).
    { intro E. rewrite E in Hl. simpl in Hl. lia. }
    { apply Forall_forall. intros x Hx.
      apply setitem_In in Hx. destruct Hx as [->|Hx]; [discriminate|].
      apply in_map_iff in Hx. destruct Hx as (y & <- & Hy).
      apply in_map_iff in Hy. destruct Hy as (q & <- & _). discriminate. }
    assert (argmin l < length row) as Hr
      by (rewrite <- Hl; apply nth_error_Some; congruence).
    exists (argmin l). split; [reflexivity|]. split; [exact Hr|]. split.
    + intro E. lia.
    + intro H2.
      assert (exists k, k < length row /\ k <> j) as (k0 & Hk0 & Nk0).
      { destruct j; [exists 1|exists 0]; split; lia. }
      assert (forall k, k < length row ->
                nth_error l k
                = Some (if Nat.eqb k j then Infinity
                        else Finite (Some (nth k row 0%Q)))) as Hm
        by (intros; unfold l; now apply masked_row).
      assert (forall k, k < length row -> k <> j ->
                nth_error l k = Some (Finite (Some (nth k row 0%Q)))) as Hm'.
      { intros k Hk Nk. rewrite Hm by trivial.
        destruct (Nat.eqb_spec k j); [contradiction|reflexivity]. }
      assert (argmin l <> j) as Nr.
      { intros E. rewrite Hm, E, Nat.eqb_refl in Hv by trivial.
        injection Hv as <-.
        apply (Hle k0 _ (Hm' k0 Hk0 Nk0)). exact I. }
      rewrite Hm' in Hv by trivial. injection Hv as <-.
      split; [exact Nr|]. split.
      * intros k Hk Nk. apply Qnot_lt_le.
        exact (Hle k _ (Hm' k Hk Nk)).
      * intros k Hk Nk.
        assert (k < length row) as Hk' by lia.
        exact (Hlt k _ Hk (Hm' k Hk' Nk)).
Qed.

End DistanceFacts.

(* ================================================================== *)
(** * The other queries *)

Module AnalyticsFacts.

Import Py Frame FrameFacts BikeShareSystem QueryFacts Analytics.

(** ** Q3 *)

Lemma bump_total (k : Z) (groups : list (Z * nat)) :
  list_sum (map snd (bump k groups)) = S (list_sum (map snd groups)).
Proof.
  induction groups as [|[j n] rest IH]; simpl; trivial.
  destruct (k <? j)%Z; simpl; trivial.
  destruct (k =? j)%Z; simpl; [lia|]. rewrite IH. lia.
Qed.

Lemma groupby_size_total (keys : list Z) :
  list_sum (map snd (groupby_size keys)) = length keys.
Proof.
  unfold groupby_size.
  assert (forall groups,
            list_sum (map snd (fold_left (fun g j => bump j g) keys groups))
            = length keys + list_sum (map snd groups)) as H.
  { induction keys as [|k keys IH]; intro groups; simpl; trivial.
    rewrite IH, bump_total. lia. }
  rewrite H. simpl. lia.
Qed.

Lemma groupby_size_keys (keys : list Z) (k : Z) (n : nat) :
  In (k, n) (groupby_size keys) ->
  In k keys /\ n = count_occ Z.eq_dec keys k /\ 0 < n.
Proof.
  intro H. destruct (groupby_size_sorted keys) as [S P].
  pose proof (group_count_In _ _ S H) as E.
  unfold groupby_size in E. rewrite groupby_count in E. simpl in E.
  rewrite Nat.add_0_r in E.
  rewrite Forall_forall in P. specialize (P _ H). simpl in P.
  split; [|split; [congruence|exact P]].
  apply (count_occ_In Z.eq_dec). lia.
Qed.

Lemma groupby_size_complete (keys : list Z) (k : Z) :
  In k keys -> exists n, In (k, n) (groupby_size keys).
Proof.
  intro H. apply group_count_pos. unfold groupby_size.
  rewrite groupby_count. apply (count_occ_In Z.eq_dec) in H. simpl. lia.
Qed.

Lemma sorted_keys_length (groups : list (Z * nat)) (lo hi : Z) :
  StronglySorted key_lt groups ->
  (forall g, In g groups -> (lo <= fst g < hi)%Z) ->
  (Z.of_nat (length groups) <= Z.max 0 (hi - lo))%Z.
Proof.
  intro S. revert lo. induction S as [|g rest S IH Hall]; intros lo H.
  - simpl. lia.
  - assert (lo <= fst g < hi)%Z as Hg by (apply H; now left).
    assert (Z.of_nat (length rest) <= Z.max 0 (hi - (fst g + 1)))%Z as IH'.
    { apply IH. intros h Hh. rewrite Forall_forall in Hall.
      specialize (Hall _ Hh). unfold key_lt in Hall.
      assert (lo <= fst h < hi)%Z by (apply H; now right). lia. }
    simpl length. lia.
Qed.

Lemma stamps_length (col : Trips.row -> cell) (df : list Trips.row) :
  length (stamps col df) <= length df.
Proof.
  unfold stamps. induction df as [|r df IH]; simpl; trivial.
  rewrite length_app. destruct (col r); simpl; lia.
Qed.

(** X16: [q3_peak_hours] lists the hours in ascending order, each
    between 0 and 23 and each once, so at most 24 of them; the count of
    an hour is the number of trips that start in it and is never 0;
    every hour in which a trip starts is listed; and the counts add up
    to the number of trips with a start time. *)
Theorem q3_peak_hours_spec :
  forall trips : list Trips.row,
    let hours := q3_peak_hours trips in
    let started := map hour_of (stamps Trips.start_time trips) in
    StronglySorted key_lt hours /\
    (forall h n,
       In (h, n) hours ->
       (0 <= h < 24)%Z /\ 0 < n /\ n = count_occ Z.eq_dec started h) /\
    (forall h, In h started -> exists n, In (h, n) hours) /\
    length hours <= 24 /\
    list_sum (map snd hours) = length started /\
    length started <= length trips.
Proof.
  intros trips hours started.
  destruct (groupby_size_sorted started) as [S P].
  assert (forall h n, In (h, n) hours -> (0 <= h < 24)%Z) as Hrange.
  { intros h n H. apply groupby_size_keys in H. destruct H as (H & _).
    apply in_map_iff in H. destruct H as (t & <- & _).
    unfold hour_of. apply Z.mod_pos_bound. lia. }
  split; [exact S|]. split; [|split; [|split; [|split]]].
  - intros h n H. split; [now apply (Hrange h n)|].
    apply groupby_size_keys in H. tauto.
  - intros h H. now apply groupby_size_complete.
  - assert (Z.of_nat (length hours) <= Z.max 0 (24 - 0))%Z as L.
    { apply sorted_keys_length; trivial.
      intros [h n] H. now apply (Hrange h n). }
    lia.
  - apply groupby_size_total.
  - unfold started. rewrite length_map. apply stamps_length.
Qed.

(** ** Counting the rows of each key *)

Section CountingFacts.

Variable K : Type.
Variable eqb : K -> K -> bool.

Hypothesis eqb_refl : forall a, eqb a a = true.
Hypothesis eqb_sym : forall a b, eqb a b = eqb b a.
Hypothesis eqb_trans :
  forall a b c, eqb a b = true -> eqb b c = true -> eqb a c = true.

Local Abbreviation same := (fun a b : K => eqb a b = true).

Lemma count_same (a b : K) (keys : list K) :
  eqb a b = true -> count eqb a keys = count eqb b keys.
Proof.
  intro H. unfold count. f_equal. apply filter_ext. intro x.
  destruct (eqb a x) eqn:A, (eqb b x) eqn:B; trivial.
  - rewrite eqb_sym in H. rewrite (eqb_trans H A) in B. discriminate.
  - rewrite (eqb_trans H B) in A. discriminate.
Qed.

Lemma count_pos (k : K) (keys : list K) :
  In k keys -> 0 < count eqb k keys.
Proof.
  intro H. unfold count.
  assert (In k (filter (eqb k) keys)) as Hin
    by (apply filter_In; split; [exact H|apply eqb_refl]).
  destruct (filter (eqb k) keys); [contradiction|simpl; lia].
Qed.

Lemma unique_from_In (seen keys : list K) (k : K) :
  In k (unique_from eqb seen keys) ->
  In k keys /\ existsb (eqb k) seen = false.
Proof.
  revert seen. induction keys as [|x keys IH]; simpl; intros seen H.
  - contradiction.
  - destruct (existsb (eqb x) seen) eqn:E.
    + destruct (IH _ H). auto.
    + destruct H as [<-|H]; [auto|].
      destruct (IH _ H) as [H1 H2]. simpl in H2.
      apply orb_false_elim in H2. tauto.
Qed.

Lemma existsb_same (seen : list K) (a b : K) :
  eqb a b = true -> existsb (eqb a) seen = existsb (eqb b) seen.
Proof.
  intro H. induction seen as [|s seen IH]; simpl; trivial.
  rewrite IH. f_equal.
  destruct (eqb a s) eqn:A, (eqb b s) eqn:B; trivial.
  - rewrite eqb_sym in H. rewrite (eqb_trans H A) in B. discriminate.
  - rewrite (eqb_trans H B) in A. discriminate.
Qed.

Lemma unique_from_complete (seen keys : list K) (k : K) :
  In k keys ->
  existsb (eqb k) seen = true \/
  exists k0, In k0 (unique_from eqb seen keys) /\ eqb k k0 = true.
Proof.
  revert seen. induction keys as [|x keys IH]; simpl; intros seen H.
  - contradiction.
  - destruct H as [->|H].
    + destruct (existsb (eqb k) seen) eqn:E; auto.
      right. exists k. split; [now left|apply eqb_refl].
    + destruct (existsb (eqb x) seen) eqn:E.
      * apply IH; trivial.
      * destruct (IH (x :: seen) H) as [G|(k0 & G1 & G2)].
        -- simpl in G. apply orb_prop in G. destruct G as [G|G]; auto.
           right. exists x. split; [now left|exact G].
        -- right. exists k0. split; [now right|exact G2].
Qed.

Lemma unique_from_NoDupA (seen keys : list K) :
  NoDupA same (unique_from eqb seen keys).
Proof.
  revert seen. induction keys as [|x keys IH]; simpl; intro seen.
  - constructor.
  - destruct (existsb (eqb x) seen) eqn:E; [apply IH|].
    constructor; [|apply IH].
    intro H. apply InA_alt in H. destruct H as (y & Hxy & Hy).
    apply unique_from_In in Hy. destruct Hy as [_ Hy]. simpl in Hy.
    apply orb_false_elim in Hy. destruct Hy as [Hy _].
    rewrite eqb_sym in Hy. congruence.
Qed.

(** What [sizes] lists: every key of the column, once, with the number
    of its rows. *)
Lemma sizes_In (keys : list K) (k : K) (c : nat) :
  In (k, c) (sizes eqb keys) ->
  In k keys /\ c = count eqb k keys /\ 0 < c.
Proof.
  unfold sizes, unique. intro H. apply in_map_iff in H.
  destruct H as (k0 & [= <- <-] & H). apply unique_from_In in H.
  destruct H as [H _]. repeat split; trivial. now apply count_pos.
Qed.

Lemma sizes_complete (keys : list K) (k : K) :
  In k keys ->
  exists k0, In (k0, count eqb k keys) (sizes eqb keys) /\ eqb k k0 = true.
Proof.
  intro H.
  destruct (unique_from_complete [] keys k H) as [G|(k0 & G1 & G2)];
    [discriminate|].
  exists k0. split; trivial. unfold sizes, unique. apply in_map_iff.
  exists k0. split; trivial. f_equal. symmetry. now apply count_same.
Qed.

Lemma sizes_NoDupA (keys : list K) :
  NoDupA same (map fst (sizes eqb keys)).
Proof.
  unfold sizes, unique. rewrite map_map. simpl. rewrite map_id.
  apply unique_from_NoDupA.
Qed.

Lemma NoDupA_keys_perm (l l' : list (K * nat)) :
  Permutation l l' ->
  NoDupA same (map fst l) -> NoDupA same (map fst l').
Proof.
  intro P. induction P as [|x l l' P IH|x y l|l l' l'' P1 IH1 P2 IH2];
    simpl; intro H; auto.
  - inversion H as [|? ? Hx Hl]; subst. constructor; auto.
    intro G. apply Hx. apply InA_alt in G. destruct G as (z & Hz & G).
    apply InA_alt. exists z. split; trivial.
    apply (Permutation_in _ (Permutation_sym (Permutation_map fst P))).
    exact G.
  - inversion H as [|? ? Hy Hl]; subst.
    inversion Hl as [|? ? Hx Hl']; subst.
    constructor; [|constructor; trivial].
    + intro G. inversion G as [? ? E|? ? G']; subst; [|contradiction].
      apply Hy. left. rewrite eqb_sym. exact E.
    + intro G. apply Hy. now right.
Qed.

Lemma NoDupA_firstn (m : nat) (l : list K) :
  NoDupA same l -> NoDupA same (firstn m l).
Proof.
  revert m. induction l as [|x l IH]; intros [|m] H; simpl;
    try constructor.
  - inversion H; subst. intro G. apply InA_alt in G.
    destruct G as (y & Hy & G). apply SummaryFacts.In_firstn in G.
    match goal with Hx : ~ InA _ x l |- _ => apply Hx end.
    apply InA_alt. eauto.
  - inversion H; subst. now apply IH.
Qed.

End CountingFacts.

(** ** Ranking by count *)

Lemma head_prefix (A : Type) (n : Z) (l : list A) :
  exists m, head n l = firstn m l /\ ((0 <= n)%Z -> m = Z.to_nat n).
Proof.
  unfold head. destruct (0 <=? n)%Z eqn:E.
  - eauto.
  - apply Z.leb_gt in E. eexists. split; [reflexivity|lia].
Qed.

Lemma StronglySorted_app (A : Type) (R : A -> A -> Prop) (l1 l2 : list A) :
  StronglySorted R (l1 ++ l2) ->
  StronglySorted R l1 /\ forall a b, In a l1 -> In b l2 -> R a b.
Proof.
  induction l1 as [|x l1 IH]; simpl; intro S.
  - split; [constructor|contradiction].
  - inversion S as [|? ? S' Hall]; subst. destruct (IH S') as [S1 H1].
    rewrite Forall_forall in Hall. split.
    + constructor; trivial. apply Forall_forall. intros y Hy.
      apply Hall. apply in_or_app. now left.
    + intros a b [<-|Ha] Hb; [|now apply H1].
      apply Hall. apply in_or_app. now right.
Qed.

Section TopFacts.

Variable K : Type.
Variable eqb : K -> K -> bool.

Hypothesis eqb_refl : forall a, eqb a a = true.
Hypothesis eqb_sym : forall a b, eqb a b = eqb b a.
Hypothesis eqb_trans :
  forall a b c, eqb a b = true -> eqb b c = true -> eqb a c = true.

(** The first [m] groups of a ranking of the groups of a column by
    descending count. *)
Lemma top_sizes (keys : list K) (ranked : list (K * nat)) (m : nat) :
  Permutation (sizes eqb keys) ranked ->
  StronglySorted descending ranked ->
  (forall k c, In (k, c) (firstn m ranked) ->
               In k keys /\ c = count eqb k keys /\ 0 < c) /\
  NoDupA (fun a b => eqb a b = true) (map fst (firstn m ranked)) /\
  StronglySorted descending (firstn m ranked) /\
  (forall k, In k keys ->
     (exists k0 c, In (k0, c) (firstn m ranked) /\ eqb k k0 = true) \/
     (forall k' c', In (k', c') (firstn m ranked) ->
                    count eqb k keys <= c')).
Proof.
  intros P S.
  assert (StronglySorted descending (firstn m ranked ++ skipn m ranked))
    as S' by now rewrite firstn_skipn.
  apply StronglySorted_app in S'. destruct S' as [S1 S2].
  split; [|split; [|split; [exact S1|]]].
  - intros k c H. apply SummaryFacts.In_firstn in H.
    apply (Permutation_in _ (Permutation_sym P)) in H.
    eapply sizes_In; eauto.
  - rewrite <- firstn_map. apply NoDupA_firstn.
    eapply NoDupA_keys_perm; eauto. eapply sizes_NoDupA; eauto.
  - intros k Hk.
    destruct (@sizes_complete K eqb eqb_refl eqb_sym eqb_trans keys k Hk)
      as (k0 & H0 & E).
    apply (Permutation_in _ P) in H0.
    rewrite <- (firstn_skipn m ranked) in H0. apply in_app_or in H0.
    destruct H0 as [H0|H0]; [left; eauto|].
    right. intros k' c' H'. exact (S2 _ _ H' H0).
Qed.

End TopFacts.

Lemma count_rows (row : Type) (col : row -> cell) (df : list row)
  (k : cell) :
  k <> NA ->
  count cell_eqb k (filter notna (map col df)) = rows_with col k df.
Proof.
  intro Hk. unfold count, rows_with.
  induction df as [|r df IH]; simpl; trivial.
  destruct (col r) eqn:E; simpl; rewrite ?E;
    destruct k; simpl; try contradiction; trivial;
    match goal with
    | |- context [if ?b then _ else _] => destruct b; simpl; now rewrite IH
    end.
Qed.

Section RankingFacts.

Variable sort_values : forall K : Type, list (K * nat) -> list (K * nat).

Hypothesis sort_values_perm :
  forall (K : Type) (l : list (K * nat)), Permutation l (sort_values l).
Hypothesis sort_values_sorted :
  forall (K : Type) (l : list (K * nat)),
    StronglySorted descending (sort_values l).

(** The first values of [value_counts] on a column of a table. *)
Lemma top_values (row : Type) (col : row -> cell) (df : list row)
  (top_n : Z) :
  let top := head top_n (value_counts sort_values (map col df)) in
  ((0 <= top_n)%Z -> length top <= Z.to_nat top_n) /\
  (forall k c, In (k, c) top ->
               k <> NA /\ c = rows_with col k df /\ 0 < c) /\
  NoDupA cell_eq (map fst top) /\
  StronglySorted descending top /\
  (forall r, In r df -> col r <> NA ->
     (exists k c, In (k, c) top /\ cell_eq (col r) k) \/
     (forall k c, In (k, c) top -> rows_with col (col r) df <= c)).
Proof.
  intro top. unfold top, value_counts.
  set (keys := filter notna (map col df)).
  destruct (head_prefix top_n (sort_values (sizes cell_eqb keys)))
    as (m & -> & Hm).
  destruct (@top_sizes cell cell_eqb cell_eqb_refl cell_eqb_sym
              cell_eqb_trans keys (sort_values (sizes cell_eqb keys)) m)
    as (H1 & H2 & H3 & H4).
  { apply sort_values_perm. }
  { apply sort_values_sorted. }
  assert (forall k, In k keys -> k <> NA) as Hna.
  { intros k Hk. apply filter_In in Hk. destruct Hk as [_ Hk].
    now destruct k. }
  split; [|split; [|split; [exact H2|split; [exact H3|]]]].
  - intro H. rewrite (Hm H). apply firstn_le_length.
  - intros k c H. destruct (H1 _ _ H) as (Hk & Ec & Hc).
    pose proof (Hna _ Hk) as N. unfold keys in Ec.
    rewrite count_rows in Ec by trivial. auto.
  - intros r Hr N.
    assert (In (col r) keys) as Hk.
    { apply filter_In. split; [now apply in_map|].
      now destruct (col r). }
    destruct (H4 _ Hk) as [(k0 & c & G & E)|G].
    + left. eauto.
    + right. intros k c H. rewrite <- count_rows by trivial.
      fold keys. now apply (G k c).
Qed.

End RankingFacts.

(** ** An instance of the sorting routine *)

Lemma insert_by_count_perm (K : Type) (g : K * nat) (l : list (K * nat)) :
  Permutation (g :: l) (insert_by_count g l).
Proof.
  induction l as [|h l IH]; simpl; trivial.
  destruct (snd h <? snd g); trivial.
  eapply perm_trans; [apply perm_swap|]. now apply perm_skip.
Qed.

Lemma insert_by_count_sorted (K : Type) (g : K * nat) (l : list (K * nat)) :
  StronglySorted descending l ->
  StronglySorted descending (insert_by_count g l).
Proof.
  induction l as [|h l IH]; simpl; intro S.
  - repeat constructor.
  - inversion S as [|? ? S' Hall]; subst.
    destruct (Nat.ltb_spec (snd h) (snd g)) as [L|L].
    + constructor; trivial. constructor; [unfold descending; lia|].
      eapply Forall_impl; [|exact Hall].
      unfold descending. intros. lia.
    + constructor; [now apply IH|].
      apply Forall_forall. intros x Hx.
      apply (Permutation_in _ (Permutation_sym (insert_by_count_perm g l)))
        in Hx.
      destruct Hx as [<-|Hx]; [exact L|].
      rewrite Forall_forall in Hall. now apply Hall.
Qed.

Lemma stable_sort_values_perm (K : Type) (l : list (K * nat)) :
  Permutation l (stable_sort_values l).
Proof.
  induction l as [|g l IH]; simpl; trivial.
  eapply perm_trans; [apply perm_skip, IH|apply insert_by_count_perm].
Qed.

Lemma stable_sort_values_sorted (K : Type) (l : list (K * nat)) :
  StronglySorted descending (stable_sort_values l).
Proof.
  induction l as [|g l IH]; simpl; [constructor|].
  now apply insert_by_count_sorted.
Qed.

Lemma StronglySorted_map (A B : Type) (f : A -> B) (R : B -> B -> Prop)
  (l : list A) :
  StronglySorted (fun a b => R (f a) (f b)) l -> StronglySorted R (map f l).
Proof.
  induction 1 as [|x l S IH Hall]; simpl; constructor; trivial.
  apply Forall_forall. intros y Hy. apply in_map_iff in Hy.
  destruct Hy as (z & <- & Hz). rewrite Forall_forall in Hall. auto.
Qed.

(** X17: [q8_top_users] lists users by descending number of trips, at
    most [top_n] of them, each once and none without id; the count of a
    user is the number of their trips; and a user who is left out has
    no more trips than any user who is listed. *)
Theorem q8_top_users_spec :
  forall (sort_values : forall K : Type, list (K * nat) -> list (K * nat)),
    (forall (K : Type) (l : list (K * nat)),
        Permutation l (sort_values K l)) ->
    (forall (K : Type) (l : list (K * nat)),
        StronglySorted descending (sort_values K l)) ->
    forall (trips : list Trips.row) (top_n : Z),
      let top := q8_top_users sort_values trips top_n in
      ((0 <= top_n)%Z -> length top <= Z.to_nat top_n) /\
      (forall u, In u top ->
         user_id u <> NA /\
         trip_count u = rows_with Trips.user_id (user_id u) trips /\
         0 < trip_count u) /\
      NoDupA cell_eq (map user_id top) /\
      StronglySorted (fun a b => trip_count b <= trip_count a) top /\
      (forall r, In r trips -> Trips.user_id r <> NA ->
         (exists u, In u top /\ cell_eq (Trips.user_id r) (user_id u)) \/
         (forall u, In u top ->
            rows_with Trips.user_id (Trips.user_id r) trips
            <= trip_count u)).
Proof.
  intros sort_values Hperm Hsorted trips top_n top.
  destruct (@top_values sort_values Hperm Hsorted _ Trips.user_id trips top_n)
    as (H1 & H2 & H3 & H4 & H5).
  unfold top, q8_top_users.
  set (pairs := head top_n
                  (value_counts sort_values (map Trips.user_id trips))) in *.
  split; [|split; [|split; [|split]]].
  - now rewrite length_map.
  - intros u Hu. apply in_map_iff in Hu. destruct Hu as ([k c] & <- & Hp).
    simpl. now apply H2.
  - rewrite map_map. exact H3.
  - apply StronglySorted_map. exact H4.
  - intros r Hr N. destruct (H5 r Hr N) as [(k & c & Hp & E)|G].
    + left. exists {| user_id := k; trip_count := c |}. split; trivial.
      apply in_map_iff. exists (k, c). auto.
    + right. intros u Hu. apply in_map_iff in Hu.
      destruct Hu as ([k c] & <- & Hp). simpl. now apply (G k c).
Qed.

Lemma q8_top_users_spec_witness :
  let trips := [Examples.completed "TR1"; Examples.cancelled "TR2"] in
  let top := q8_top_users stable_sort_values trips 15 in
  top = [{| user_id := Str "USR1000"; trip_count := 2 |}] /\
  length top <= 15 /\
  NoDupA cell_eq (map user_id top).
Proof.
  intros trips top.
  destruct (q8_top_users_spec stable_sort_values stable_sort_values_perm
              stable_sort_values_sorted trips 15) as (H1 & _ & H3 & _).
  split; [reflexivity|]. split; [apply H1; lia|exact H3].
Defined.

(** X18: [q13_bike_maintenance_frequency] lists bikes by descending
    number of maintenance records, at most [top_n] of them, each once
    and none without id; the count of a bike is the number of its
    records; and a bike that is left out has no more records than any
    bike that is listed. *)
Theorem q13_bike_maintenance_frequency_spec :
  forall (sort_values : forall K : Type, list (K * nat) -> list (K * nat)),
    (forall (K : Type) (l : list (K * nat)),
        Permutation l (sort_values K l)) ->
    (forall (K : Type) (l : list (K * nat)),
        StronglySorted descending (sort_values K l)) ->
    forall (maint : list Maintenance.row) (top_n : Z),
      let top := q13_bike_maintenance_frequency sort_values maint top_n in
      ((0 <= top_n)%Z -> length top <= Z.to_nat top_n) /\
      (forall b, In b top ->
         bike_id b <> NA /\
         maintenance_records b
         = rows_with Maintenance.bike_id (bike_id b) maint /\
         0 < maintenance_records b) /\
      NoDupA cell_eq (map bike_id top) /\
      StronglySorted
        (fun a b => maintenance_records b <= maintenance_records a) top /\
      (forall r, In r maint -> Maintenance.bike_id r <> NA ->
         (exists b, In b top /\ cell_eq (Maintenance.bike_id r) (bike_id b))
         \/
         (forall b, In b top ->
            rows_with Maintenance.bike_id (Maintenance.bike_id r) maint
            <= maintenance_records b)).
Proof.
  intros sort_values Hperm Hsorted maint top_n top.
  destruct (@top_values sort_values Hperm Hsorted _ Maintenance.bike_id maint
              top_n)
    as (H1 & H2 & H3 & H4 & H5).
  unfold top, q13_bike_maintenance_frequency.
  set (pairs := head top_n
                  (value_counts sort_values
                     (map Maintenance.bike_id maint))) in *.
  split; [|split; [|split; [|split]]].
  - now rewrite length_map.
  - intros b Hb. apply in_map_iff in Hb. destruct Hb as ([k c] & <- & Hp).
    simpl. now apply H2.
  - rewrite map_map. exact H3.
  - apply StronglySorted_map. exact H4.
  - intros r Hr N. destruct (H5 r Hr N) as [(k & c & Hp & E)|G].
    + left. exists {| bike_id := k; maintenance_records := c |}.
      split; trivial. apply in_map_iff. exists (k, c). auto.
    + right. intros b Hb. apply in_map_iff in Hb.
      destruct Hb as ([k c] & <- & Hp). simpl. now apply (G k c).
Qed.

Lemma q13_bike_maintenance_frequency_spec_witness :
  let maint := [maintenance_record "M1" "BK200";
                maintenance_record "M2" "BK201";
                maintenance_record "M3" "BK201"] in
  let top := q13_bike_maintenance_frequency stable_sort_values maint 1 in
  top = [{| bike_id := Str "BK201"; maintenance_records := 2 |}] /\
  length top <= 1 /\
  NoDupA cell_eq (map bike_id top).
Proof.
  intros maint top.
  destruct (q13_bike_maintenance_frequency_spec stable_sort_values
              stable_sort_values_perm stable_sort_values_sorted maint 1)
    as (H1 & _ & H3 & _).
  split; [reflexivity|]. split; [apply H1; lia|exact H3].
Defined.

(** ** Station names *)

Lemma station_name_of_last (stations : list Stations.row) (sid : cell) :
  (exists s, In s stations /\ cell_eq (Stations.station_id s) sid /\
             station_name_of stations sid = Stations.station_name s) \/
  ((forall s, In s stations -> ~ cell_eq (Stations.station_id s) sid) /\
   station_name_of stations sid = sid).
Proof.
  unfold station_name_of.
  induction stations as [|s stations IH] using rev_ind.
  - right. split; [intros s []|reflexivity].
  - rewrite fold_left_app. simpl.
    destruct (cell_eqb (Stations.station_id s) sid) eqn:E.
    + left. exists s. split; [apply in_or_app; right; now left|].
      split; [exact E|reflexivity].
    + destruct IH as [(s0 & H0 & E0 & N0)|[H0 N0]].
      * left. exists s0. split; [apply in_or_app; now left|]. auto.
      * right. split; trivial. intros s' Hs'. apply in_app_or in Hs'.
        destruct Hs' as [Hs'|[<-|[]]]; [now apply H0|].
        unfold cell_eq. rewrite E. discriminate.
Qed.

Lemma NoDupA_key_inj (row : Type) (key : row -> cell) (l : list row)
  (a b : row) :
  NoDupA cell_eq (map key l) -> In a l -> In b l ->
  cell_eq (key a) (key b) -> a = b.
Proof.
  induction l as [|x l IH]; simpl; intros N Ha Hb E; [contradiction|].
  inversion N as [|? ? Hx N']; subst.
  destruct Ha as [->|Ha], Hb as [->|Hb]; trivial.
  - exfalso. apply Hx. apply InA_alt. exists (key b).
    split; [exact E|now apply in_map].
  - exfalso. apply Hx. apply InA_alt. exists (key a).
    split; [unfold cell_eq; rewrite cell_eqb_sym; exact E|now apply in_map].
  - now apply IH.
Qed.

(** With the ids of a cleaned table the name shown for an id is that of
    the one station with this id, and is never missing. *)
Lemma station_name_of_cleaned (parse_numeric : string -> option Q)
  (raw : list Stations.row) (sid : cell) :
  let stations := DataCleaner.clean_stations_csv parse_numeric raw in
  (forall s, In s stations -> cell_eq (Stations.station_id s) sid ->
             station_name_of stations sid = Stations.station_name s) /\
  ((forall s, In s stations -> ~ cell_eq (Stations.station_id s) sid) ->
   station_name_of stations sid = sid) /\
  (sid <> NA -> station_name_of stations sid <> NA).
Proof.
  intro stations.
  destruct (station_name_of_last stations sid)
    as [(s0 & H0 & E0 & N0)|[H0 N0]].
  - split; [|split].
    + intros s Hs E. rewrite N0. f_equal.
      apply (NoDupA_key_inj Stations.station_id stations); trivial.
      * apply StationsFacts.stations_clean_NoDupA.
      * unfold cell_eq in *. rewrite cell_eqb_sym in E.
        eapply cell_eqb_trans; eassumption.
    + intro H. exfalso. exact (H s0 H0 E0).
    + intros _. rewrite N0.
      apply StationsFacts.stations_clean_In in H0.
      destruct H0 as (H0 & _). simpl in H0.
      apply andb_prop in H0. destruct H0 as [_ H0].
      apply andb_prop in H0. destruct H0 as [H0 _].
      now destruct (Stations.station_name s0).
  - split; [|split].
    + intros s Hs E. exfalso. exact (H0 s Hs E).
    + intros _. exact N0.
    + intro N. now rewrite N0.
Qed.

(** ** Q2 *)

Lemma top_stations
  (sort_values : forall K : Type, list (K * nat) -> list (K * nat))
  (parse_numeric : string -> option Q) (raw : list Stations.row)
  (col : Trips.row -> cell) (trips : list Trips.row) (top_n : Z) :
  (forall (K : Type) (l : list (K * nat)),
      Permutation l (sort_values K l)) ->
  (forall (K : Type) (l : list (K * nat)),
      StronglySorted descending (sort_values K l)) ->
  let stations := DataCleaner.clean_stations_csv parse_numeric raw in
  let top :=
    map (fun p => {| station := station_name_of stations (fst p);
                     station_trip_count := snd p |})
      (head top_n (value_counts sort_values (map col trips))) in
  ((0 <= top_n)%Z -> length top <= Z.to_nat top_n) /\
  StronglySorted
    (fun a b => station_trip_count b <= station_trip_count a) top /\
  (forall e, In e top ->
             station_entry col trips stations e /\ station e <> NA).
Proof.
  intros Hperm Hsorted stations top.
  destruct (@top_values sort_values Hperm Hsorted _ col trips top_n)
    as (H1 & H2 & _ & H4 & _).
  unfold top. split; [|split].
  - now rewrite length_map.
  - apply StronglySorted_map. exact H4.
  - intros e He. apply in_map_iff in He. destruct He as ([k c] & <- & Hp).
    destruct (H2 _ _ Hp) as (N & Ec & Hc).
    destruct (station_name_of_cleaned parse_numeric raw k) as (G1 & G2 & G3).
    split; [|now apply G3].
    exists k. simpl. repeat split; trivial.
Qed.

(** X19: for a cleaned stations table, each of the two lists of
    [q2_popular_stations] is in descending order of trips and has at
    most [top_n] entries; every entry stands for a station id of the
    trips, counts the trips with that id, and shows the name of the one
    station with this id, or the id itself when the stations table has
    no such station; no entry is without a station. *)
Theorem q2_popular_stations_spec :
  forall (sort_values : forall K : Type, list (K * nat) -> list (K * nat)),
    (forall (K : Type) (l : list (K * nat)),
        Permutation l (sort_values K l)) ->
    (forall (K : Type) (l : list (K * nat)),
        StronglySorted descending (sort_values K l)) ->
    forall (parse_numeric : string -> option Q)
           (raw_stations : list Stations.row)
           (trips : list Trips.row) (top_n : Z),
      let stations :=
        DataCleaner.clean_stations_csv parse_numeric raw_stations in
      let result := q2_popular_stations sort_values trips stations top_n in
      ((0 <= top_n)%Z ->
       length (top_start_stations result) <= Z.to_nat top_n /\
       length (top_end_stations result) <= Z.to_nat top_n) /\
      StronglySorted
        (fun a b => station_trip_count b <= station_trip_count a)
        (top_start_stations result) /\
      StronglySorted
        (fun a b => station_trip_count b <= station_trip_count a)
        (top_end_stations result) /\
      (forall e, In e (top_start_stations result) ->
         station_entry Trips.start_station_id trips stations e /\
         station e <> NA) /\
      (forall e, In e (top_end_stations result) ->
         station_entry Trips.end_station_id trips stations e /\
         station e <> NA).
Proof.
  intros sort_values Hperm Hsorted pn raw trips top_n stations result.
  destruct (@top_stations sort_values pn raw Trips.start_station_id trips
              top_n Hperm Hsorted) as (S1 & S2 & S3).
  destruct (@top_stations sort_values pn raw Trips.end_station_id trips
              top_n Hperm Hsorted) as (E1 & E2 & E3).
  unfold result, q2_popular_stations.
  cbv beta iota zeta delta [top_start_stations top_end_stations].
  repeat split; auto; try (now apply S3); try (now apply E3).
Qed.

Lemma q2_popular_stations_spec_witness :
  let trips := [Examples.completed "TR1"; Examples.cancelled "TR2"] in
  let stations :=
    DataCleaner.clean_stations_csv Examples.parse_numeric Examples.stations in
  let result := q2_popular_stations stable_sort_values trips stations 10 in
  result
  = {| top_start_stations :=
         [{| station := Str "Central Station"; station_trip_count := 2 |}];
       top_end_stations :=
         [{| station := Str "ST101"; station_trip_count := 2 |}] |} /\
  (forall e, In e (top_start_stations result) ->
     station_entry Trips.start_station_id trips stations e /\
     station e <> NA).
Proof.
  intros trips stations result.
  destruct (q2_popular_stations_spec stable_sort_values
              stable_sort_values_perm stable_sort_values_sorted
              Examples.parse_numeric Examples.stations trips 10)
    as (_ & _ & _ & H & _).
  split; [vm_compute; reflexivity|exact H].
Defined.

(** ** Q10 *)









(** ** Q9 and Q5: aggregates by group *)


Section GroupingFacts.

Variable sort_keys : list cell -> list cell.
Hypothesis sort_keys_perm : forall l, Permutation l (sort_keys l).

Variable row : Type.
Variable key : row -> cell.



End GroupingFacts.







End AnalyticsFacts.

(* ================================================================== *)
(** * Sorting and searching *)

Module AlgorithmsFacts.

Import Py Algorithms.

Section KeysFacts.

Variable A : Type.
Variable key : A -> Q.

Local Abbreviation le := (key_le key).

Lemma key_le_trans (a b c : A) : le a b -> le b c -> le a c.
Proof. unfold key_le. apply Qle_trans. Qed.

Lemma sorted_strongly (l : list A) : Sorted le l -> StronglySorted le l.
Proof.
  apply Sorted_StronglySorted. intros a b c. apply key_le_trans.
Qed.

(** ** [merge] *)

Lemma merge_nil_r (l : list A) : merge key l [] = l.
Proof. now destruct l. Qed.

Lemma merge_cons (x y : A) (l r : list A) :
  merge key (x :: l) (y :: r)
  = if Qle_bool (key x) (key y) then x :: merge key l (y :: r)
    else y :: merge key (x :: l) r.
Proof. reflexivity. Qed.

Lemma merge_perm (l r : list A) : Permutation (l ++ r) (merge key l r).
Proof.
  revert r. induction l as [|x l IHl]; intro r; [now destruct r|].
  induction r as [|y r IHr].
  - rewrite app_nil_r. apply Permutation_refl.
  - rewrite merge_cons. destruct (Qle_bool (key x) (key y)).
    + simpl. apply perm_skip. apply IHl.
    + eapply perm_trans; [|apply perm_skip, IHr].
      apply Permutation_sym, (Permutation_middle (x :: l) r y).
Qed.

Lemma merge_head (l r : list A) (a : A) :
  HdRel le a l -> HdRel le a r -> HdRel le a (merge key l r).
Proof.
  intros Hl Hr. destruct l as [|x l]; [now destruct r|].
  destruct r as [|y r]; trivial.
  rewrite merge_cons. destruct (Qle_bool (key x) (key y)); constructor.
  - now inversion Hl.
  - now inversion Hr.
Qed.

Lemma merge_sorted (l r : list A) :
  Sorted le l -> Sorted le r -> Sorted le (merge key l r).
Proof.
  revert r. induction l as [|x l IHl]; intros r Sl Sr; [now destruct r|].
  induction r as [|y r IHr]; trivial.
  rewrite merge_cons. inversion Sl; subst. inversion Sr; subst.
  destruct (Qle_bool (key x) (key y)) eqn:E.
  - constructor; [now apply IHl|].
    apply merge_head; trivial. constructor. now apply Qle_bool_iff.
  - constructor; [now apply IHr|].
    apply merge_head; trivial. constructor.
    unfold key_le. apply Qlt_le_weak, Qltb_lt. unfold Qltb. now rewrite E.
Qed.

(** Of two elements with one key those of the left list come first. *)
Lemma merge_stable (l r : list A) (k : Q) :
  Sorted le l ->
  filter (has_key key k) (merge key l r)
  = filter (has_key key k) l ++ filter (has_key key k) r.
Proof.
  revert r. induction l as [|x l IHl]; intros r Sl; [now destruct r|].
  induction r as [|y r IHr].
  - now rewrite merge_nil_r, app_nil_r.
  - rewrite merge_cons. destruct (Qle_bool (key x) (key y)) eqn:E.
    + inversion Sl; subst.
      change (filter (has_key key k) (x :: merge key l (y :: r)))
        with (if has_key key k x
              then x :: filter (has_key key k) (merge key l (y :: r))
              else filter (has_key key k) (merge key l (y :: r))).
      change (filter (has_key key k) (x :: l))
        with (if has_key key k x then x :: filter (has_key key k) l
              else filter (has_key key k) l).
      rewrite IHl by trivial. now destruct (has_key key k x).
    + change (filter (has_key key k) (y :: merge key (x :: l) r))
        with (if has_key key k y
              then y :: filter (has_key key k) (merge key (x :: l) r)
              else filter (has_key key k) (merge key (x :: l) r)).
      change (filter (has_key key k) (y :: r))
        with (if has_key key k y then y :: filter (has_key key k) r
              else filter (has_key key k) r).
      rewrite IHr.
      destruct (has_key key k y) eqn:Ky; trivial.
      assert (key y < key x)%Q as L
        by (apply Qltb_lt; unfold Qltb; now rewrite E).
      assert (filter (has_key key k) (x :: l) = []) as ->; trivial.
      apply sorted_strongly in Sl.
      inversion Sl as [|? ? _ Hall]; subst.
      unfold has_key in Ky. apply Qeq_bool_iff in Ky.
      assert (forall z, In z (x :: l) -> has_key key k z = false) as Hz.
      { intros z [<-|Hz]; unfold has_key;
          destruct (Qeq_bool (key _) k) eqn:Ez; trivial;
          apply Qeq_bool_iff in Ez.
        - lra.
        - rewrite Forall_forall in Hall. specialize (Hall _ Hz).
          unfold key_le in Hall. lra. }
      clear - Hz. induction (x :: l) as [|z t IH]; trivial.
      simpl. rewrite (Hz z) by now left.
      apply IH. intros. apply Hz. now right.
Qed.

(** ** [merge_sort] *)

Lemma merge_sort_sorted (data : list A) : Sorted le (merge_sort key data).
Proof.
  functional induction (merge_sort key data).
  - destruct data as [|x [|y data]]; try discriminate; repeat constructor.
  - now apply merge_sorted.
Qed.

Lemma merge_sort_perm (data : list A) :
  Permutation data (merge_sort key data).
Proof.
  functional induction (merge_sort key data); trivial.
  eapply perm_trans; [|apply merge_perm].
  rewrite <- (firstn_skipn (length data / 2) data) at 1.
  now apply Permutation_app.
Qed.

Lemma merge_sort_stable (data : list A) (k : Q) :
  filter (has_key key k) (merge_sort key data)
  = filter (has_key key k) data.
Proof.
  functional induction (merge_sort key data); trivial.
  rewrite merge_stable by apply merge_sort_sorted.
  rewrite IHl, IHl0, <- filter_app. now rewrite firstn_skipn.
Qed.

(** ** [quick_sort] *)

Lemma partition_perm (data : list A) (pk : Q) :
  Permutation data
    (filter (smaller key pk) data ++ filter (equal key pk) data
     ++ filter (larger key pk) data).
Proof.
  induction data as [|x data IH]; simpl; trivial.
  unfold smaller at 1, equal at 1, larger at 1.
  destruct (Qltb (key x) pk) eqn:S, (Qeq_bool (key x) pk) eqn:E,
    (Qltb pk (key x)) eqn:L;
    try apply Qltb_lt in S; try apply Qeq_bool_iff in E;
    try apply Qltb_lt in L; try (exfalso; lra).
  - simpl. now apply perm_skip.
  - eapply perm_trans; [apply perm_skip, IH|].
    apply Permutation_middle.
  - eapply perm_trans; [apply perm_skip, IH|].
    rewrite !app_assoc. apply Permutation_middle.
  - exfalso. apply Qltb_ge in S. apply Qltb_ge in L.
    apply Qeq_bool_neq in E. apply E. lra.
Qed.

Lemma sorted_app (l1 l2 : list A) :
  StronglySorted le l1 -> StronglySorted le l2 ->
  (forall a b, In a l1 -> In b l2 -> le a b) ->
  StronglySorted le (l1 ++ l2).
Proof.
  induction 1 as [|x l1 S1 IH Hall]; simpl; intros S2 H; trivial.
  constructor.
  - apply IH; trivial. intros. apply H; auto.
  - apply Forall_app. split; trivial.
    apply Forall_forall. intros b Hb. apply H; auto.
Qed.

Lemma equal_sorted (data : list A) (pk : Q) :
  StronglySorted le (filter (equal key pk) data).
Proof.
  induction data as [|x data IH]; simpl; [constructor|].
  destruct (equal key pk x) eqn:E; trivial.
  constructor; trivial. apply Forall_forall. intros y Hy.
  apply filter_In in Hy. destruct Hy as [_ Hy].
  unfold equal in *. apply Qeq_bool_iff in E, Hy.
  unfold key_le. lra.
Qed.

Lemma quick_sort_perm (data : list A) :
  Permutation data (quick_sort key data).
Proof.
  functional induction (quick_sort key data); trivial.
  eapply perm_trans; [apply (partition_perm data (key pivot))|].
  apply Permutation_app; trivial.
  apply Permutation_app; trivial.
Qed.

Lemma quick_sort_sorted (data : list A) :
  StronglySorted le (quick_sort key data).
Proof.
  functional induction (quick_sort key data).
  - destruct data as [|x [|y data]]; try discriminate; repeat constructor.
  - apply nth_error_None in e0. apply Nat.leb_gt in e.
    assert (length data / 2 < length data) by (apply Nat.div_lt; lia). lia.
  - apply sorted_app; trivial.
    + apply sorted_app; trivial; [apply equal_sorted|].
      intros a b Ha Hb. apply filter_In in Ha. destruct Ha as [_ Ha].
      apply (Permutation_in _ (Permutation_sym (quick_sort_perm _))) in Hb.
      apply filter_In in Hb. destruct Hb as [_ Hb].
      unfold equal, larger in *.
      apply Qeq_bool_iff in Ha. apply Qltb_lt in Hb. unfold key_le. lra.
    + intros a b Ha Hb.
      apply (Permutation_in _ (Permutation_sym (quick_sort_perm _))) in Ha.
      apply filter_In in Ha. destruct Ha as [_ Ha].
      unfold smaller in Ha. apply Qltb_lt in Ha.
      apply in_app_or in Hb. destruct Hb as [Hb|Hb].
      * apply filter_In in Hb. destruct Hb as [_ Hb].
        unfold equal in Hb. apply Qeq_bool_iff in Hb. unfold key_le. lra.
      * apply (Permutation_in _ (Permutation_sym (quick_sort_perm _)))
          in Hb.
        apply filter_In in Hb. destruct Hb as [_ Hb].
        unfold larger in Hb. apply Qltb_lt in Hb. unfold key_le. lra.
Qed.

Lemma filter_filter (p q : A -> bool) (l : list A) :
  filter p (filter q l) = filter (fun x => q x && p x) l.
Proof.
  induction l as [|x l IH]; simpl; trivial.
  destruct (q x); simpl; [destruct (p x)|]; now rewrite IH.
Qed.

Lemma filter_none (p : A -> bool) (l : list A) :
  (forall x, In x l -> p x = false) -> filter p l = [].
Proof.
  induction l as [|x l IH]; simpl; intro H; trivial.
  rewrite (H x) by now left. apply IH. intros. apply H. now right.
Qed.

(** The elements with the key [k] are all in one of the three parts the
    pivot makes, in the order they had. *)
Lemma partition_stable (data : list A) (pk k : Q) :
  filter (has_key key k) (filter (smaller key pk) data)
  ++ filter (has_key key k) (filter (equal key pk) data)
  ++ filter (has_key key k) (filter (larger key pk) data)
  = filter (has_key key k) data.
Proof.
  rewrite !filter_filter.
  destruct (Qlt_le_dec k pk) as [L|G].
  - rewrite (filter_none (fun x => equal key pk x && has_key key k x)),
      (filter_none (fun x => larger key pk x && has_key key k x)).
    + rewrite !app_nil_r. apply filter_ext. intro x.
      unfold smaller, has_key. destruct (Qeq_bool (key x) k) eqn:E;
        [|now rewrite andb_false_r].
      apply Qeq_bool_iff in E. rewrite andb_true_r.
      apply Qltb_lt. lra.
    + intros x _. unfold larger, has_key.
      destruct (Qeq_bool (key x) k) eqn:E; [|now rewrite andb_false_r].
      apply Qeq_bool_iff in E. rewrite andb_true_r.
      apply Qltb_ge. lra.
    + intros x _. unfold equal, has_key.
      destruct (Qeq_bool (key x) k) eqn:E; [|now rewrite andb_false_r].
      apply Qeq_bool_iff in E. rewrite andb_true_r.
      apply not_true_is_false. intro F. apply Qeq_bool_iff in F. lra.
  - rewrite (filter_none (fun x => smaller key pk x && has_key key k x)).
    2:{ intros x _. unfold smaller, has_key.
        destruct (Qeq_bool (key x) k) eqn:E; [|now rewrite andb_false_r].
        apply Qeq_bool_iff in E. rewrite andb_true_r.
        apply Qltb_ge. lra. }
    simpl. destruct (Qeq_dec k pk) as [E|N].
    + rewrite (filter_none (fun x => larger key pk x && has_key key k x)).
      2:{ intros x _. unfold larger, has_key.
          destruct (Qeq_bool (key x) k) eqn:F; [|now rewrite andb_false_r].
          apply Qeq_bool_iff in F. rewrite andb_true_r.
          apply Qltb_ge. lra. }
      rewrite app_nil_r. apply filter_ext. intro x.
      unfold equal, has_key. destruct (Qeq_bool (key x) k) eqn:F;
        [|now rewrite andb_false_r].
      apply Qeq_bool_iff in F. rewrite andb_true_r.
      apply Qeq_bool_iff. lra.
    + rewrite (filter_none (fun x => equal key pk x && has_key key k x)).
      2:{ intros x _. unfold equal, has_key.
          destruct (Qeq_bool (key x) k) eqn:F; [|now rewrite andb_false_r].
          apply Qeq_bool_iff in F. rewrite andb_true_r.
          apply not_true_is_false. intro F'. apply Qeq_bool_iff in F'.
          apply N. lra. }
      simpl. apply filter_ext. intro x.
      unfold larger, has_key. destruct (Qeq_bool (key x) k) eqn:F;
        [|now rewrite andb_false_r].
      apply Qeq_bool_iff in F. rewrite andb_true_r.
      apply Qltb_lt.
      destruct (Qlt_le_dec pk k) as [L|G']; [lra|].
      exfalso. apply N. lra.
Qed.

Lemma quick_sort_stable (data : list A) (k : Q) :
  filter (has_key key k) (quick_sort key data)
  = filter (has_key key k) data.
Proof.
  functional induction (quick_sort key data); trivial.
  rewrite !filter_app, IHl, IHl0. apply partition_stable.
Qed.

(** ** [linear_search] *)

Lemma linear_search_from_spec (data : list A) (target : Q) (i : nat) :
  match linear_search_from key i data target with
  | Some r =>
      exists j x,
        r = i + j /\ nth_error data j = Some x /\ (key x == target)%Q /\
        forall j' y, j' < j -> nth_error data j' = Some y ->
                     ~ (key y == target)%Q
  | None => forall x, In x data -> ~ (key x == target)%Q
  end.
Proof.
  revert i. induction data as [|item rest IH]; intro i; simpl.
  - intros x [].
  - destruct (Qeq_bool (key item) target) eqn:E.
    + apply Qeq_bool_iff in E. exists 0, item.
      split; [lia|]. split; [reflexivity|]. split; [exact E|].
      intros j' y Hj. lia.
    + apply Qeq_bool_neq in E. specialize (IH (S i)).
      destruct (linear_search_from key (S i) rest target) as [r|].
      * destruct IH as (j & x & -> & Hx & Ex & Hfirst).
        exists (S j), x.
        split; [lia|]. split; [exact Hx|]. split; [exact Ex|].
        intros [|j'] y Hj; simpl; [now intros [= <-]|].
        apply Hfirst. lia.
      * intros x [<-|Hx]; auto.
Qed.

(** ** [binary_search] *)

Lemma getitem_in_range (data : list A) (mid : Z) :
  (0 <= mid < Z.of_nat (length data))%Z ->
  exists x, getitem data mid = Ok x /\
            nth_error data (Z.to_nat mid) = Some x.
Proof.
  intro H. unfold getitem, Np.index.
  assert (((0 <=? mid) && (mid <? Z.of_nat (length data)))%Z = true) as ->
    by (apply andb_true_intro; split; [apply Z.leb_le|apply Z.ltb_lt]; lia).
  cbv beta iota delta [bind].
  destruct (nth_error data (Z.to_nat mid)) as [x|] eqn:E; eauto.
  apply nth_error_None in E. lia.
Qed.

Lemma sorted_nth_error (data : list A) (i j : nat) (x y : A) :
  StronglySorted le data -> i <= j ->
  nth_error data i = Some x -> nth_error data j = Some y ->
  (key x <= key y)%Q.
Proof.
  intro S. revert i j. induction S as [|a l S IH Hall]; intros i j Hij.
  - destruct i; discriminate.
  - destruct i as [|i], j as [|j]; simpl; try lia.
    + intros [= <-] [= <-]. apply Qle_refl.
    + intros [= <-] Hy. rewrite Forall_forall in Hall.
      apply Hall. eapply nth_error_In; eassumption.
    + apply IH. lia.
Qed.

Lemma midpoint (left right : Z) :
  (left <= right)%Z -> (left <= (left + right) / 2 <= right)%Z.
Proof.
  intro H.
  split; [apply Z.div_le_lower_bound|apply Z.div_le_upper_bound]; lia.
Qed.

(** The loop keeps its two bounds inside the list, so that no index it
    uses is out of range; on a sorted list the positions it gives up
    do not hold the target. *)
Lemma binary_search_loop_spec (data : list A) (target : Q)
  (bounds : Z * Z) :
  (0 <= fst bounds)%Z -> (snd bounds < Z.of_nat (length data))%Z ->
  (exists i x,
     binary_search_loop key data target bounds = Ok (Some i) /\
     (fst bounds <= i <= snd bounds)%Z /\
     nth_error data (Z.to_nat i) = Some x /\ (key x == target)%Q) \/
  (binary_search_loop key data target bounds = Ok None /\
   (StronglySorted le data ->
    forall i x, (fst bounds <= i <= snd bounds)%Z ->
                nth_error data (Z.to_nat i) = Some x ->
                ~ (key x == target)%Q)).
Proof.
  functional induction (binary_search_loop key data target bounds);
    simpl fst in *; simpl snd in *; intros H0 H1.
  - apply Z.leb_le in e0. pose proof (midpoint e0) as M.
    destruct (@getitem_in_range data ((left + right) / 2)%Z) as (x & E & _);
      [lia|]. congruence.
  - apply Z.leb_le in e0. pose proof (midpoint e0) as M.
    destruct (@getitem_in_range data ((left + right) / 2)%Z)
      as (x & E & Hx); [lia|].
    rewrite E in e1. injection e1 as <-.
    apply Qeq_bool_iff in e2. left. eauto 10.
  - apply Z.leb_le in e0. pose proof (midpoint e0) as M.
    destruct (@getitem_in_range data ((left + right) / 2)%Z)
      as (x & E & Hx); [lia|].
    rewrite E in e1. injection e1 as <-.
    apply Qltb_lt in e3.
    destruct IHr as [(i & y & Ei & Hi & Hy & Ey)|[En Hn]]; try lia.
    + left. exists i, y. repeat split; trivial; lia.
    + right. split; trivial. intros S i y Hi Hy.
      destruct (Z_le_gt_dec i ((left + right) / 2)) as [L|G].
      * assert (key y <= key x)%Q
          by (apply (@sorted_nth_error data (Z.to_nat i)
                       (Z.to_nat ((left + right) / 2))); trivial; lia).
        lra.
      * apply (Hn S i y); trivial. lia.
  - apply Z.leb_le in e0. pose proof (midpoint e0) as M.
    destruct (@getitem_in_range data ((left + right) / 2)%Z)
      as (x & E & Hx); [lia|].
    rewrite E in e1. injection e1 as <-.
    apply Qeq_bool_neq in e2. apply Qltb_ge in e3.
    destruct IHr as [(i & y & Ei & Hi & Hy & Ey)|[En Hn]]; try lia.
    + left. exists i, y. repeat split; trivial; lia.
    + right. split; trivial. intros S i y Hi Hy.
      destruct (Z_lt_ge_dec i ((left + right) / 2)) as [L|G].
      * apply (Hn S i y); trivial. lia.
      * assert (key x <= key y)%Q
          by (apply (@sorted_nth_error data
                       (Z.to_nat ((left + right) / 2)) (Z.to_nat i));
              trivial; lia).
        intro F. apply e2. lra.
  - right. split; trivial. intros _ i x Hi. apply Z.leb_gt in e0. lia.
Qed.

(** The recursive search takes the steps of the loop. *)
Lemma binary_search_between_loop (data : list A) (target : Q)
  (bounds : Z * Z) :
  binary_search_between key data target bounds
  = binary_search_loop key data target bounds.
Proof.
  functional induction (binary_search_loop key data target bounds);
    rewrite binary_search_between_equation;
    repeat match goal with
           | H : (_ <=? _)%Z = true |- _ =>
               apply Z.leb_le in H; rewrite (proj2 (Z.ltb_ge _ _) H)
           | H : (_ <=? _)%Z = false |- _ =>
               apply Z.leb_gt in H; rewrite (proj2 (Z.ltb_lt _ _) H)
           | H : getitem _ _ = _ |- _ => rewrite H; clear H
           | H : Qeq_bool _ _ = _ |- _ => rewrite H; clear H
           | H : Qltb _ _ = _ |- _ => rewrite H; clear H
           end;
    trivial.
Qed.

(** ** [bubble_sort] *)

Lemma bubble_cons (m : nat) (x y : A) (rest : list A) :
  bubble key (S m) (x :: y :: rest)
  = if Qltb (key y) (key x)
    then (y :: fst (bubble key m (x :: rest)), true)
    else (x :: fst (bubble key m (y :: rest)),
          snd (bubble key m (y :: rest))).
Proof. reflexivity. Qed.

Lemma bubble_perm (m : nat) (l : list A) :
  Permutation l (fst (bubble key m l)).
Proof.
  revert l. induction m as [|m IH]; intro l; [now destruct l|].
  destruct l as [|x [|y rest]]; trivial.
  rewrite bubble_cons. destruct (Qltb (key y) (key x)); simpl.
  - eapply perm_trans; [apply perm_swap|]. apply perm_skip, IH.
  - apply perm_skip, IH.
Qed.

Lemma bubble_length (m : nat) (l : list A) :
  length (fst (bubble key m l)) = length l.
Proof. symmetry. apply Permutation_length, bubble_perm. Qed.

(** A pass over the first [m + 1] elements leaves the others alone. *)
Lemma bubble_app (m : nat) (l1 l2 : list A) :
  length l1 = S m ->
  bubble key m (l1 ++ l2)
  = (fst (bubble key m l1) ++ l2, snd (bubble key m l1)).
Proof.
  revert l1. induction m as [|m IH]; intros l1 H.
  - destruct l1 as [|x [|y l1]]; try discriminate. simpl. now destruct l2.
  - destruct l1 as [|x [|y l1]]; try discriminate.
    change ((x :: y :: l1) ++ l2) with (x :: y :: (l1 ++ l2)).
    rewrite !bubble_cons.
    destruct (Qltb (key y) (key x)).
    + change (x :: l1 ++ l2) with ((x :: l1) ++ l2).
      rewrite IH by (simpl in *; lia). reflexivity.
    + change (y :: l1 ++ l2) with ((y :: l1) ++ l2).
      rewrite IH by (simpl in *; lia). reflexivity.
Qed.

(** A pass over a whole list ends with its largest element. *)
Lemma bubble_last (m : nat) (l : list A) :
  length l = S m ->
  exists front largest,
    fst (bubble key m l) = front ++ [largest] /\
    forall a, In a l -> le a largest.
Proof.
  revert l. induction m as [|m IH]; intros l H.
  - destruct l as [|x [|y l]]; try discriminate.
    exists [], x. split; trivial. intros a [<-|[]]. apply Qle_refl.
  - destruct l as [|x [|y rest]]; try discriminate.
    rewrite bubble_cons. destruct (Qltb (key y) (key x)) eqn:E.
    + destruct (IH (x :: rest)) as (front & largest & Ef & Hl);
        [simpl in *; lia|].
      exists (y :: front), largest. simpl. rewrite Ef. split; trivial.
      apply Qltb_lt in E.
      assert (le x largest) as Hx by (apply Hl; now left).
      intros a [<-|[<-|Ha]]; trivial.
      * unfold key_le in *. lra.
      * apply Hl. now right.
    + destruct (IH (y :: rest)) as (front & largest & Ef & Hl);
        [simpl in *; lia|].
      exists (x :: front), largest. simpl. rewrite Ef. split; trivial.
      apply Qltb_ge in E.
      assert (le y largest) as Hy by (apply Hl; now left).
      intros a [<-|Ha]; [|now apply Hl].
      unfold key_le in *. lra.
Qed.

(** A pass over a whole list that swaps nothing finds it sorted. *)
Lemma bubble_unswapped (m : nat) (l : list A) :
  length l = S m -> snd (bubble key m l) = false ->
  Sorted le l /\ fst (bubble key m l) = l.
Proof.
  revert l. induction m as [|m IH]; intros l H.
  - destruct l as [|x [|y l]]; try discriminate. repeat constructor.
  - destruct l as [|x [|y rest]]; try discriminate.
    rewrite bubble_cons. destruct (Qltb (key y) (key x)) eqn:E; simpl;
      [discriminate|].
    intro F. destruct (IH (y :: rest)) as [S Ef]; trivial;
      [simpl in *; lia|].
    rewrite Ef. split; trivial.
    constructor; trivial. constructor. now apply Qltb_ge.
Qed.

(** The outer loop: the elements behind the part that is still to be
    passed over are the largest, in order. *)
Lemma bubble_passes_spec (passes i n : nat) (front back : list A) :
  n = passes + i -> length front = passes ->
  StronglySorted le back ->
  (forall a b, In a front -> In b back -> le a b) ->
  StronglySorted le (bubble_passes key passes i n (front ++ back)) /\
  Permutation (front ++ back)
    (bubble_passes key passes i n (front ++ back)).
Proof.
  revert i front back.
  induction passes as [|passes IH]; intros i front back Hn Hf Sb Hfb.
  - destruct front; [|discriminate]. simpl. auto.
  - simpl bubble_passes.
    replace (n - i - 1) with passes by lia.
    rewrite bubble_app by exact Hf.
    destruct (snd (bubble key passes front)) eqn:Sw.
    + destruct (bubble_last front Hf) as (front' & largest & Ef & Hl).
      pose proof (bubble_perm passes front) as P. rewrite Ef in P.
      rewrite Ef, <- app_assoc. simpl app.
      assert (In largest front) as Hin.
      { apply (Permutation_in _ (Permutation_sym P)).
        apply in_or_app. right. now left. }
      assert (forall a, In a front' -> In a front) as Hsub.
      { intros a Ha. apply (Permutation_in _ (Permutation_sym P)).
        apply in_or_app. now left. }
      destruct (IH (S i) front' (largest :: back)) as [S' P']; try lia.
      * pose proof (bubble_length passes front) as L.
        rewrite Ef, length_app in L. simpl in L. lia.
      * constructor; trivial. apply Forall_forall. intros b Hb.
        now apply Hfb.
      * intros a b Ha [<-|Hb]; [apply Hl|apply Hfb]; auto.
      * split; trivial.
        eapply perm_trans; [|exact P'].
        apply Permutation_app_tail with (tl := back) in P.
        rewrite <- app_assoc in P. exact P.
    + destruct (bubble_unswapped front Hf Sw) as [S Ef].
      rewrite Ef. split; [|apply Permutation_refl].
      apply sorted_app; trivial. now apply sorted_strongly.
Qed.

Lemma bubble_sort_sorted (data : list A) :
  StronglySorted le (bubble_sort key data) /\
  Permutation data (bubble_sort key data).
Proof.
  unfold bubble_sort.
  destruct (@bubble_passes_spec (length data) 0 (length data) data [])
    as [S P]; trivial; try lia.
  - constructor.
  - intros a b _ [].
  - rewrite app_nil_r in *. auto.
Qed.

End KeysFacts.

(** X23: [merge_sort] returns the elements of the list in ascending
    order of their keys: the result is sorted, it is a rearrangement of
    the list, and elements with one key keep the order they had (the
    sort is stable). *)
Theorem merge_sort_spec :
  forall (A : Type) (key : A -> Q) (data : list A),
    StronglySorted (key_le key) (merge_sort key data) /\
    Permutation data (merge_sort key data) /\
    (forall k, filter (has_key key k) (merge_sort key data)
               = filter (has_key key k) data).
Proof.
  intros A key data. split; [|split].
  - apply sorted_strongly, merge_sort_sorted.
  - apply merge_sort_perm.
  - apply merge_sort_stable.
Qed.

(** X24: [quick_sort] returns the elements of the list in ascending
    order of their keys: the result is sorted and a rearrangement of
    the list.  As it is written, with its three comprehensions, it
    keeps the order of the elements with one key: it is stable. *)
Theorem quick_sort_spec :
  forall (A : Type) (key : A -> Q) (data : list A),
    StronglySorted (key_le key) (quick_sort key data) /\
    Permutation data (quick_sort key data) /\
    (forall k, filter (has_key key k) (quick_sort key data)
               = filter (has_key key k) data).
Proof.
  intros A key data. split; [|split].
  - apply quick_sort_sorted.
  - apply quick_sort_perm.
  - apply quick_sort_stable.
Qed.

(** X25: [linear_search] returns the first position whose key equals
    the target, and [None] exactly when no element has that key. *)
Theorem linear_search_spec :
  forall (A : Type) (key : A -> Q) (data : list A) (target : Q),
    (forall i,
       linear_search key data target = Some i <->
       (exists x, nth_error data i = Some x /\ (key x == target)%Q) /\
       (forall j y, j < i -> nth_error data j = Some y ->
                    ~ (key y == target)%Q)) /\
    (linear_search key data target = None <->
     forall x, In x data -> ~ (key x == target)%Q).
Proof.
  intros A key data target. unfold linear_search.
  pose proof (linear_search_from_spec key data target 0) as H.
  destruct (linear_search_from key 0 data target) as [r|].
  - destruct H as (j & x & -> & Hx & Ex & Hfirst). simpl. split.
    + intro i. split.
      * intros [= <-]. split; eauto.
      * intros [(y & Hy & Ey) Hi]. f_equal.
        destruct (Nat.lt_trichotomy j i) as [L|[E|G]]; trivial.
        -- exfalso. exact (Hi j x L Hx Ex).
        -- exfalso. exact (Hfirst i y G Hy Ey).
    + split; [discriminate|]. intro Hn. exfalso.
      apply (Hn x); trivial. eapply nth_error_In; eassumption.
  - split.
    + intro i. split; [discriminate|].
      intros [(y & Hy & Ey) _]. exfalso.
      apply (H y); trivial. eapply nth_error_In; eassumption.
    + split; trivial.
Qed.

(** X26: [binary_search] never raises: its two bounds stay inside the
    list.  A position it returns holds an element whose key equals the
    target; on a list sorted by key it returns [None] only when no
    element has that key.  [binary_search_recursive], called without
    bounds, returns what [binary_search] returns. *)
Theorem binary_search_spec :
  forall (A : Type) (key : A -> Q) (data : list A) (target : Q),
    (exists r,
       binary_search key data target = Ok r /\
       forall i, r = Some i ->
                 (0 <= i < Z.of_nat (length data))%Z /\
                 exists x, nth_error data (Z.to_nat i) = Some x /\
                           (key x == target)%Q) /\
    (StronglySorted (key_le key) data ->
     binary_search key data target = Ok None ->
     forall x, In x data -> ~ (key x == target)%Q) /\
    binary_search_recursive key data target 0 None
    = binary_search key data target.
Proof.
  intros A key data target. unfold binary_search, binary_search_recursive.
  destruct (@binary_search_loop_spec A key data target
              (0%Z, (Z.of_nat (length data) - 1)%Z))
    as [(i & x & E & Hi & Hx & Ex)|[E Hn]]; simpl; try lia.
  - split; [|split].
    + exists (Some i). split; trivial. intros ? [= <-].
      split; [simpl in Hi; lia|eauto].
    + intros _ F. rewrite E in F. discriminate F.
    + apply binary_search_between_loop.
  - split; [|split].
    + exists None. split; trivial. discriminate.
    + intros S _ x Hx. apply In_nth_error in Hx. destruct Hx as (n & Hx).
      apply (Hn S (Z.of_nat n) x).
      * simpl. assert (n < length data)
          by (apply nth_error_Some; congruence). lia.
      * now rewrite Nat2Z.id.
    + apply binary_search_between_loop.
Qed.

(** X27: [bubble_sort], with its shrinking passes and its early exit
    when a pass swaps nothing, returns the elements of the list in
    ascending order of their keys: the result is sorted and a
    rearrangement of the list. *)
Theorem bubble_sort_spec :
  forall (A : Type) (key : A -> Q) (data : list A),
    StronglySorted (key_le key) (bubble_sort key data) /\
    Permutation data (bubble_sort key data) /\
    length (bubble_sort key data) = length data.
Proof.
  intros A key data. destruct (bubble_sort_sorted key data) as [S P].
  repeat split; trivial. symmetry. now apply Permutation_length.
Qed.

End AlgorithmsFacts.

(* ================================================================== *)
(** * Fares of the pricing strategies *)

Module PricingFacts.

Import Pricing.

Lemma max_spec (a b : Q) :
  (a <= max a b)%Q /\ (b <= max a b)%Q /\ (max a b == a \/ max a b == b)%Q.
Proof.
  unfold max. destruct (Qltb a b) eqn:E.
  - apply Qltb_lt in E. split; [lra|]. split; [lra|]. right. reflexivity.
  - apply Qltb_ge in E. split; [lra|]. split; [lra|]. left. reflexivity.
Qed.



Module Casual := CasualPricingStrategy.
Module Member := MemberPricingStrategy.
Module PeakHour := PeakHourPricingStrategy.
Module DistanceBased := DistanceBasedPricingStrategy.



End PricingFacts.

(* ================================================================== *)
(** * The bikes of a station *)

Module StationFacts.

Import Station.

Lemma contains_In (bikes : list string) (bike_id : string) :
  contains bikes bike_id = true <-> In bike_id bikes.
Proof.
  unfold contains. rewrite existsb_exists. split.
  - intros (b & Hb & E). apply String.eqb_eq in E. now subst.
  - intro H. exists bike_id. split; trivial. apply String.eqb_refl.
Qed.

Lemma remove_In (bikes : list string) (bike_id b : string) :
  In b (remove bikes bike_id) -> In b bikes.
Proof.
  induction bikes as [|x bikes IH]; simpl; trivial.
  destruct (String.eqb bike_id x); simpl; tauto.
Qed.

Lemma remove_NoDup (bikes : list string) (bike_id : string) :
  NoDup bikes ->
  NoDup (remove bikes bike_id) /\ ~ In bike_id (remove bikes bike_id).
Proof.
  induction 1 as [|x bikes Hx ND [IH1 IH2]]; simpl.
  - split; [constructor|tauto].
  - destruct (String.eqb_spec bike_id x) as [->|N].
    + split; trivial.
    + split.
      * constructor; trivial. intro H. apply Hx. eapply remove_In, H.
      * intros [E|H]; [congruence|contradiction].
Qed.

Lemma remove_length (bikes : list string) (bike_id : string) :
  In bike_id bikes -> S (length (remove bikes bike_id)) = length bikes.
Proof.
  induction bikes as [|x bikes IH]; simpl; [contradiction|].
  destruct (String.eqb_spec bike_id x) as [->|N]; trivial.
  intros [E|H]; [congruence|]. simpl. now rewrite IH.
Qed.

Lemma add_bike_sound (self : station) (bike_id : string) :
  sound self -> sound (snd (add_bike self bike_id)).
Proof.
  unfold sound. intros [ND L]. unfold add_bike.
  destruct ((Z.of_nat (length (current_bikes self)) <? capacity self)%Z)
    eqn:E; simpl; [|now split].
  destruct (contains (current_bikes self) bike_id) eqn:C; simpl;
    [now split|].
  apply Z.ltb_lt in E. split.
  - apply NoDup_app; trivial.
    + repeat constructor. intros [].
    + intros b Hb [<-|[]]. apply contains_In in Hb. congruence.
  - rewrite length_app. simpl. lia.
Qed.

Lemma remove_bike_sound (self : station) (bike_id : string) :
  sound self -> sound (snd (remove_bike self bike_id)).
Proof.
  unfold sound. intros [ND L]. unfold remove_bike.
  destruct (contains (current_bikes self) bike_id) eqn:C; simpl;
    [|now split].
  apply contains_In in C. split.
  - now apply remove_NoDup.
  - pose proof (remove_length _ _ C). lia.
Qed.

Lemma run_sound (calls : list call) (self : station) :
  sound self ->
  sound (run calls self) /\ capacity (run calls self) = capacity self.
Proof.
  unfold run. revert self.
  induction calls as [|c calls IH]; intros self H; simpl; [auto|].
  assert (sound (step self c) /\ capacity (step self c) = capacity self)
    as [H' E].
  { destruct c as [b|b]; simpl.
    - split; [now apply add_bike_sound|].
      unfold add_bike. destruct (_ && _); reflexivity.
    - split; [now apply remove_bike_sound|].
      unfold remove_bike. destruct (contains _ _); reflexivity. }
  destruct (IH _ H') as [G1 G2]. split; trivial. congruence.
Qed.

(** X30: a station that [Station.__init__] accepts has a positive
    capacity and no bike.  Whatever calls of [add_bike] and
    [remove_bike] follow, it never holds a bike twice nor more bikes
    than its capacity, and its free places and its bikes add up to the
    capacity.  From there [add_bike] succeeds exactly when the bike is not
    at the station and a place is free, and then the bike is there;
    [remove_bike] succeeds exactly when the bike is there, and then it
    is gone. *)
Theorem station_bikes_spec :
  forall (station_id name : string) (places : Z) (latitude longitude : Q)
         (new : station) (calls : list call),
    init station_id name places latitude longitude = Np.Ok new ->
    let self := run calls new in
    (0 < places)%Z /\ current_bikes new = [] /\
    capacity self = places /\
    NoDup (current_bikes self) /\
    (Z.of_nat (length (current_bikes self)) <= places)%Z /\
    (available_spots self + Z.of_nat (length (current_bikes self))
     = places)%Z /\
    (forall bike_id,
       (fst (add_bike self bike_id) = true <->
        ~ In bike_id (current_bikes self) /\ (0 < available_spots self)%Z)
       /\
       (fst (add_bike self bike_id) = true ->
        current_bikes (snd (add_bike self bike_id))
        = current_bikes self ++ [bike_id]) /\
       (fst (add_bike self bike_id) = false ->
        snd (add_bike self bike_id) = self)) /\
    (forall bike_id,
       (fst (remove_bike self bike_id) = true <->
        In bike_id (current_bikes self)) /\
       (fst (remove_bike self bike_id) = true ->
        ~ In bike_id (current_bikes (snd (remove_bike self bike_id))) /\
        S (length (current_bikes (snd (remove_bike self bike_id))))
        = length (current_bikes self)) /\
       (fst (remove_bike self bike_id) = false ->
        snd (remove_bike self bike_id) = self)).
Proof.
  intros station_id name places latitude longitude new calls Hinit self.
  unfold init in Hinit.
  destruct (String.eqb station_id ""); [discriminate|].
  destruct (String.eqb name ""); [discriminate|].
  destruct (places <=? 0)%Z eqn:P; [discriminate|].
  destruct (negb _); [discriminate|].
  destruct (negb _); [discriminate|].
  injection Hinit as <-. apply Z.leb_gt in P.
  match goal with
  | self := run calls ?s |- _ =>
      destruct (@run_sound calls s) as [[ND L] C]
  end.
  { unfold sound. simpl. split; [constructor|lia]. }
  fold self in ND, L, C. simpl in C.
  split; [exact P|]. split; [reflexivity|]. split; [exact C|].
  split; [exact ND|]. split; [lia|].
  assert (available_spots self
          = places - Z.of_nat (length (current_bikes self)))%Z as Hs
    by (unfold available_spots; lia).
  split; [lia|]. split.
  - intro bike_id. unfold add_bike.
    destruct ((Z.of_nat (length (current_bikes self)) <? capacity self)%Z)
      eqn:E; simpl.
    + apply Z.ltb_lt in E.
      destruct (contains (current_bikes self) bike_id) eqn:B; simpl.
      * apply contains_In in B.
        split; [|split]; trivial; try discriminate.
        split; [discriminate|]. intros [N _]. contradiction.
      * split; [|split]; trivial; try discriminate.
        split; trivial. intros _. split; [|lia].
        intro H. apply contains_In in H. congruence.
    + apply Z.ltb_ge in E.
      split; [|split]; trivial; try discriminate.
      split; [discriminate|]. intros [_ H]. lia.
  - intro bike_id. unfold remove_bike.
    destruct (contains (current_bikes self) bike_id) eqn:B; simpl.
    + apply contains_In in B. split; [tauto|]. split; [|discriminate].
      intros _. split.
      * now apply remove_NoDup.
      * now apply remove_length.
    + split; [|split]; trivial; try discriminate.
      split; [discriminate|]. intro H. apply contains_In in H. congruence.
Qed.

Lemma station_bikes_spec_witness :
  let calls := [AddBike "BK1"; AddBike "BK2"; AddBike "BK1"; AddBike "BK3";
                RemoveBike "BK1"] in
  exists new,
    init "ST100" "Central" 2 48.78 9.18 = Np.Ok new /\
    current_bikes (run calls new) = ["BK2"]%string /\
    NoDup (current_bikes (run calls new)) /\
    available_spots (run calls new) = 1%Z.
Proof.
  intro calls. eexists. split; [reflexivity|].
  match goal with
  | |- current_bikes (run calls ?s) = _ /\ _ =>
      destruct (station_bikes_spec "ST100" "Central" 2 48.78 9.18
                  calls (new := s) eq_refl)
        as (_ & _ & _ & ND & _ & Hs & _)
  end.
  split; [reflexivity|]. split; [exact ND|reflexivity].
Defined.

End StationFacts.
